(** * Merkle tree (pkg/): shallow embedding of the Go package and its properties

    Go's [crypto/sha256] is embedded in [SHA256]; the package code follows:
    [concat] (the buffer fill), [hash.go], [node.go], [merkle_tree.go].
    The goroutines of one level write disjoint slots of a pre-sized array;
    they are run here one after another, in index order. *)

From Stdlib Require Import ZArith String Ascii Strings.Byte Sorting.Sorted.
From stdpp Require Import base list list_tactics.

(* ------------------------------------------------------------------ *)
(** ** crypto/sha256 (FIPS 180-4), on bytes *)

Module Sha256.
Open Scope Z_scope.

Definition mask32 : Z := 0xffffffff.
Definition w32 (x : Z) : Z := Z.land x mask32.
Definition add32 (x y : Z) : Z := w32 (x + y).
Definition rotr (x n : Z) : Z := w32 (Z.lor (Z.shiftr x n) (Z.shiftl x (32 - n))).

Definition Ch (x y z : Z) : Z := Z.lxor (Z.land x y) (Z.land (Z.lxor x mask32) z).
Definition Maj (x y z : Z) : Z :=
  Z.lxor (Z.lxor (Z.land x y) (Z.land x z)) (Z.land y z).
Definition Sigma0 (x : Z) : Z := Z.lxor (Z.lxor (rotr x 2) (rotr x 13)) (rotr x 22).
Definition Sigma1 (x : Z) : Z := Z.lxor (Z.lxor (rotr x 6) (rotr x 11)) (rotr x 25).
Definition sigma0 (x : Z) : Z := Z.lxor (Z.lxor (rotr x 7) (rotr x 18)) (Z.shiftr x 3).
Definition sigma1 (x : Z) : Z := Z.lxor (Z.lxor (rotr x 17) (rotr x 19)) (Z.shiftr x 10).

(** The round constants, eight per row as FIPS 180-4 lists them. *)
Definition K : list Z :=
  [0x428a2f98; 0x71374491; 0xb5c0fbcf; 0xe9b5dba5; 0x3956c25b; 0x59f111f1; 0x923f82a4; 0xab1c5ed5] ++
  [0xd807aa98; 0x12835b01; 0x243185be; 0x550c7dc3; 0x72be5d74; 0x80deb1fe; 0x9bdc06a7; 0xc19bf174] ++
  [0xe49b69c1; 0xefbe4786; 0x0fc19dc6; 0x240ca1cc; 0x2de92c6f; 0x4a7484aa; 0x5cb0a9dc; 0x76f988da] ++
  [0x983e5152; 0xa831c66d; 0xb00327c8; 0xbf597fc7; 0xc6e00bf3; 0xd5a79147; 0x06ca6351; 0x14292967] ++
  [0x27b70a85; 0x2e1b2138; 0x4d2c6dfc; 0x53380d13; 0x650a7354; 0x766a0abb; 0x81c2c92e; 0x92722c85] ++
  [0xa2bfe8a1; 0xa81a664b; 0xc24b8b70; 0xc76c51a3; 0xd192e819; 0xd6990624; 0xf40e3585; 0x106aa070] ++
  [0x19a4c116; 0x1e376c08; 0x2748774c; 0x34b0bcb5; 0x391c0cb3; 0x4ed8aa4a; 0x5b9cca4f; 0x682e6ff3] ++
  [0x748f82ee; 0x78a5636f; 0x84c87814; 0x8cc70208; 0x90befffa; 0xa4506ceb; 0xbef9a3f7; 0xc67178f2].

(** The eight working variables a..h. *)
Definition state : Type := (Z * Z * Z * Z * Z * Z * Z * Z)%type.

Definition IV : state :=
  (0x6a09e667, 0xbb67ae85, 0x3c6ef372, 0xa54ff53a,
   0x510e527f, 0x9b05688c, 0x1f83d9ab, 0x5be0cd19).

Definition round (s : state) (kw : Z * Z) : state :=
  let '(a, b, c, d, e, f, g, h) := s in
  let '(k, w) := kw in
  let t1 := add32 (add32 (add32 (add32 h (Sigma1 e)) (Ch e f g)) k) w in
  let t2 := add32 (Sigma0 a) (Maj a b c) in
  (add32 t1 t2, a, b, c, add32 d t1, e, f, g).

(** Message schedule: W[0..15] from the block, then W[16..63]. *)
Fixpoint extend (n : nat) (w : list Z) : list Z :=
  match n with
  | O => w
  | S n' =>
      let t := length w in
      let wt := add32 (add32 (sigma1 (nth (t - 2) w 0)) (nth (t - 7) w 0))
                      (add32 (sigma0 (nth (t - 15) w 0)) (nth (t - 16) w 0)) in
      extend n' (w ++ [wt])
  end.

Fixpoint be_words (bs : list Z) : list Z :=
  match bs with
  | b0 :: b1 :: b2 :: b3 :: rest =>
      (b0 * 16777216 + b1 * 65536 + b2 * 256 + b3) :: be_words rest
  | _ => []
  end.

Definition compress (s : state) (block : list Z) : state :=
  let w := extend 48 (be_words block) in
  let '(a, b, c, d, e, f, g, h) := s in
  let '(a', b', c', d', e', f', g', h') := fold_left round (combine K w) s in
  (add32 a a', add32 b b', add32 c c', add32 d d',
   add32 e e', add32 f f', add32 g g', add32 h h').

Fixpoint blocks (n : nat) (m : list Z) : list (list Z) :=
  match n with
  | O => []
  | S n' => firstn 64 m :: blocks n' (skipn 64 m)
  end.

Definition be64 (x : Z) : list Z :=
  map (fun k => Z.land (Z.shiftr x (8 * (7 - Z.of_nat k))) 255) (seq 0 8).

Definition pad (m : list Z) : list Z :=
  let l := length m in
  let k := ((119 - l mod 64) mod 64)%nat in
  m ++ [128] ++ repeat 0 k ++ be64 (8 * Z.of_nat l).

Definition word_bytes (x : Z) : list Z :=
  [Z.land (Z.shiftr x 24) 255; Z.land (Z.shiftr x 16) 255;
   Z.land (Z.shiftr x 8) 255; Z.land x 255].

Definition digest_Z (m : list Z) : list Z :=
  let p := pad m in
  let '(a, b, c, d, e, f, g, h) :=
    fold_left compress (blocks (length p / 64) p) IV in
  word_bytes a ++ word_bytes b ++ word_bytes c ++ word_bytes d ++
  word_bytes e ++ word_bytes f ++ word_bytes g ++ word_bytes h.

Definition byte_of_Z (z : Z) : byte :=
  match Byte.of_N (Z.to_N (z mod 256)) with Some b => b | None => x00 end.

Definition Z_of_byte (b : byte) : Z := Z.of_N (Byte.to_N b).

(** [sha256.Sum256] on a byte slice. *)
Definition sum (m : list byte) : list byte :=
  map byte_of_Z (digest_Z (map Z_of_byte m)).

End Sha256.

Definition bytes_of_string (s : string) : list byte := list_byte_of_string s.

(* ------------------------------------------------------------------ *)
(** ** Go results and errors *)

(** The error values of the package; [Errorf ctx e] is
    [fmt.Errorf("<ctx>: %w", e)]. *)
Inductive error : Type :=
| ErrMerkleTreeConfigIsNil
| ErrMerkleTreeConfigHasherIsNil
| ErrMerkleTreeConfigMaxGoroutineIsEqZero
| ErrMerkleTreeDataIsNilOrEmpty
| ErrData (msg : string)          (* returned by a caller's Data.Hash *)
| Errorf (ctx : string) (e : error)
| ErrNewLeaf (i : nat) (e : error). (* "NewLeaf(data[%d]): %w" *)

(** How a Go call ends: a value, a returned error, a panic (which stops the
    process: nothing in the package recovers), or no end at all. *)
Inductive outcome (A : Type) : Type :=
| Ok (a : A)
| Fail (e : error)
| Panic (msg : string)
| Diverge.
Arguments Ok {A} a.
Arguments Fail {A} e.
Arguments Panic {A} msg.
Arguments Diverge {A}.

Definition obind {A B} (m : outcome A) (k : A -> outcome B) : outcome B :=
  match m with
  | Ok a => k a
  | Fail e => Fail e
  | Panic s => Panic s
  | Diverge => Diverge
  end.
Notation "'let?' x := m 'in' k" := (obind m (fun x => k))
  (at level 200, x name, m at level 100, k at level 200).

Definition index_out_of_range : string := "runtime error: index out of range"%string.
Definition nil_dereference : string :=
  "runtime error: invalid memory address or nil pointer dereference"%string.

(* ------------------------------------------------------------------ *)
(** ** hash.go *)

(** [type Hash string] *)
Definition Hash : Type := string.
Definition UNKNOWNHASH : Hash := "unknown"%string.
Definition SHA256 : Hash := "sha256"%string.

(** [ErrHashNotAllowed = errors.New("Hash<%s> is not recognized")], formatted
    with [fmt.Sprintf] in the panics below. *)
Definition hash_not_allowed (s : Hash) : string :=
  ("Hash<" ++ s ++ "> is not recognized")%string.

Definition IsValid (s : Hash) : bool :=
  if string_dec s SHA256 then true
  else if string_dec s UNKNOWNHASH then false
  else false.

(** [crypto.Hash], as far as the package can reach it. *)
Inductive crypto_Hash : Type := CRYPTO_SHA256.

Definition crypto_New (c : crypto_Hash) : list byte -> list byte :=
  match c with CRYPTO_SHA256 => Sha256.sum end.

(** [func (s Hash) Hash() crypto.Hash] *)
Definition Hash_Hash (s : Hash) : outcome crypto_Hash :=
  if string_dec s SHA256 then Ok CRYPTO_SHA256 else Panic (hash_not_allowed s).

(** [func (s Hash) HashFunc() func() hash.Hash]: a fresh engine, seen through
    what it computes from the bytes written to it. *)
Definition HashFunc (s : Hash) : outcome (list byte -> list byte) :=
  if string_dec s SHA256 then Ok Sha256.sum else Panic (hash_not_allowed s).

(** [HashPool]: engines are reset before they go back into the pool, so a
    pooled engine computes what a fresh one of the pool's algorithm does. *)
Record HashPool : Type := { pool_hash : crypto_Hash }.

Definition NewHashPool (h : crypto_Hash) : HashPool := {| pool_hash := h |}.

(** [Hasher]; the Go field [Hash] is [HHash] here. *)
Record Hasher : Type := { IsSort : bool; HHash : Hash; Pool : option HashPool }.

(* ------------------------------------------------------------------ *)
(** ** Data (the item interface) and StringData *)

Record Data : Type := {
  Data_Hash : Hasher -> outcome (list byte);
  Data_String : string }.

(** [StringData.Hash] writes [[]byte(s.Value)] into a fresh or pooled engine;
    [hash.Hash.Write] never returns an error. *)
Definition StringData (v : string) : Data := {|
  Data_Hash := fun h =>
    match Pool h with
    | None => let? f := HashFunc (HHash h) in Ok (f (bytes_of_string v))
    | Some p => Ok (crypto_New (pool_hash p) (bytes_of_string v))
    end;
  Data_String := v |}.

(* ------------------------------------------------------------------ *)
(** ** node.go: nodes live in an arena; a pointer is an index into it *)

Record Node : Type := {
  Parent : option nat;
  Left : option nat;
  Right : option nat;
  isOrphan : bool;
  NHash : list byte;
  NData : option Data }.

Definition isLeaf (n : Node) : bool :=
  match Left n, Right n with None, None => true | _, _ => false end.

Definition set_Parent (p : option nat) (n : Node) : Node :=
  {| Parent := p; Left := Left n; Right := Right n; isOrphan := isOrphan n;
     NHash := NHash n; NData := NData n |}.

Definition set_NHash (h : list byte) (n : Node) : Node :=
  {| Parent := Parent n; Left := Left n; Right := Right n; isOrphan := isOrphan n;
     NHash := h; NData := NData n |}.

(** The program state: the node arena, the free list of the package-level
    [buffers] pool of concat buffers, and a ghost count of the writes made to
    hash engines. *)
Record St : Type := {
  heap : list Node; buffers : list (list byte); hash_writes : nat;
  pool_picks : list (option nat) }.

Definition M (A : Type) : Type := St -> outcome A * St.

Definition ret {A} (a : A) : M A := fun st => (Ok a, st).
Definition bind {A B} (m : M A) (k : A -> M B) : M B := fun st =>
  match m st with
  | (Ok a, st') => k a st'
  | (Fail e, st') => (Fail e, st')
  | (Panic s, st') => (Panic s, st')
  | (Diverge, st') => (Diverge, st')
  end.
Notation "'let*' x := m 'in' k" := (bind m (fun x => k))
  (at level 200, x name, m at level 100, k at level 200).

Definition lift {A} (o : outcome A) : M A := fun st => (o, st).
Definition failM {A} (e : error) : M A := lift (Fail e).
Definition panicM {A} (s : string) : M A := lift (Panic s).

Definition tick : M unit := fun st =>
  (Ok tt, {| heap := heap st; buffers := buffers st; hash_writes := S (hash_writes st);
             pool_picks := pool_picks st |}).

(** [*p] *)
Definition load (p : nat) : M Node := fun st =>
  match heap st !! p with
  | Some n => (Ok n, st)
  | None => (Panic nil_dereference, st)
  end.

Definition alloc (n : Node) : M nat := fun st =>
  (Ok (length (heap st)),
   {| heap := heap st ++ [n]; buffers := buffers st; hash_writes := hash_writes st;
      pool_picks := pool_picks st |}).

(** [p.Parent = q] *)
Definition store_Parent (p : nat) (q : nat) : M unit := fun st =>
  match heap st !! p with
  | Some n => (Ok tt, {| heap := <[p := set_Parent (Some q) n]> (heap st);
                         buffers := buffers st; hash_writes := hash_writes st;
                         pool_picks := pool_picks st |})
  | None => (Panic nil_dereference, st)
  end.

(* ------------------------------------------------------------------ *)
(** ** The concat buffer pool and [concat] *)

(** [bytes.Compare]: lexicographic order on unsigned bytes; [Gt] is the
    Go result [1], [Lt] is [-1]. *)
Fixpoint bytes_Compare (a b : list byte) : comparison :=
  match a, b with
  | [], [] => Eq
  | [], _ :: _ => Lt
  | _ :: _, [] => Gt
  | x :: a', y :: b' =>
      match N.compare (Byte.to_N x) (Byte.to_N y) with
      | Eq => bytes_Compare a' b'
      | c => c
      end
  end.

(** [bytes.Equal] *)
Fixpoint bytes_Equal (a b : list byte) : bool :=
  match a, b with
  | [], [] => true
  | x :: a', y :: b' => Byte.eqb x y && bytes_Equal a' b'
  | _, _ => false
  end.

(** [make([]byte, 256+256)] *)
Definition buffer_len : nat := 256 + 256.
Definition new_buffer : list byte := repeat x00 buffer_len.

(** [GetConcatBuffers()]: [sync.Pool.Get] removes an arbitrary buffer the
    pool holds and hands it out with the bytes left in it, or ignores the pool
    and makes a new buffer; the pool may also drop what it holds at any time,
    which [Get] cannot tell from a buffer it never picks. The choices are the
    state's [pool_picks], one per call: [Some i] takes the buffer at position
    [i]; [None], a position past the end, or no choice left makes a new one. *)
Definition GetConcatBuffers : M (list byte) := fun st =>
  match pool_picks st with
  | Some i :: picks =>
      match buffers st !! i with
      | Some b => (Ok b, {| heap := heap st; buffers := delete i (buffers st);
                            hash_writes := hash_writes st; pool_picks := picks |})
      | None => (Ok new_buffer, {| heap := heap st; buffers := buffers st;
                                   hash_writes := hash_writes st; pool_picks := picks |})
      end
  | None :: picks => (Ok new_buffer, {| heap := heap st; buffers := buffers st;
                                        hash_writes := hash_writes st; pool_picks := picks |})
  | [] => (Ok new_buffer, st)
  end.

(** [BuffCloser.Close()]: the buffer goes back as it is, not zeroed. *)
Definition CloseBuffer (b : list byte) : M unit := fun st =>
  (Ok tt, {| heap := heap st; buffers := b :: buffers st; hash_writes := hash_writes st;
             pool_picks := pool_picks st |}).

(** [b[i] = v] and [b[i]], with Go's bounds checks. *)
Definition set_index (b : list byte) (i : nat) (v : byte) : outcome (list byte) :=
  if decide (i < length b) then Ok (<[i := v]> b) else Panic index_out_of_range.

Definition get_index (b : list byte) (i : nat) : outcome byte :=
  match b !! i with Some v => Ok v | None => Panic index_out_of_range end.

(** [for i := lo; i < lo + n; i++ { body }] over the buffer. *)
Fixpoint for_range (i n : nat) (body : nat -> list byte -> outcome (list byte))
    (b : list byte) : outcome (list byte) :=
  match n with
  | O => Ok b
  | S n' => let? b' := body i b in for_range (S i) n' body b'
  end.

(** [if isSort && bytes.Compare(b1, b2) == 1 { swap }] *)
Definition sort_pair (isSort : bool) (b1 b2 : list byte) : list byte * list byte :=
  if isSort && match bytes_Compare b1 b2 with Gt => true | _ => false end
  then (b2, b1) else (b1, b2).

(** The body of [concat] after the buffer is chosen:
<<
  if isSort && bytes.Compare(b1, b2) == 1 { b1, b2 = b2, b1 }
  i := 0
  for i = 0; i < len(b1); i++ { b[i] = b1[i] }
  for j := i; j < len(b2); j++ { b[j] = b1[i-len(b1)] }
>> *)
Definition concat_fill (b : list byte) (isSort : bool) (b1 b2 : list byte)
    : outcome (list byte) :=
  let '(b1, b2) := sort_pair isSort b1 b2 in
  let? b := for_range 0 (length b1)
              (fun i b => let? v := get_index b1 i in set_index b i v) b in
  let i := length b1 in
  for_range i (length b2 - i)
    (fun j b => let? v := get_index b1 (i - length b1) in set_index b j v) b.

(** [concat(isReuseBuffAllocation, isSort, b1, b2)]: the returned slice is the
    pooled buffer itself, handed back to the pool by the deferred [Close].
    Here the caller gets the buffer's contents at the return: that is what
    its [h.Write] reads when no other goroutine takes the buffer from the
    pool in between, as in the runs of [pair_level]. The interleaved model
    ([pooled_concat_step], [pooled_write_step]) keeps the buffer by
    reference instead. *)
Definition concat (isReuseBuffAllocation isSort : bool) (b1 b2 : list byte)
    : M (list byte) :=
  if isReuseBuffAllocation then
    let* cb := GetConcatBuffers in
    let* b := lift (concat_fill cb isSort b1 b2) in
    let* _ := CloseBuffer b in
    ret b
  else lift (concat_fill new_buffer isSort b1 b2).

(** The block that [NewParentNode], [computeNodeHash] and the loop of
    [Verify] share: an engine (fresh from [HashFunc] without a pool, pooled
    otherwise) is written [concat(pooled, IsSort, l, r)] and summed. *)
Definition hashConcat (h : Hasher) (l r : list byte) : M (list byte) :=
  match Pool h with
  | None =>
      let* f := lift (HashFunc (HHash h)) in
      let* b := concat false (IsSort h) l r in
      let* _ := tick in
      ret (f b)
  | Some p =>
      let* b := concat true (IsSort h) l r in
      let* _ := tick in
      ret (crypto_New (pool_hash p) b)
  end.

(* ------------------------------------------------------------------ *)
(** ** node.go constructors *)

Definition newLeaf (p : Hasher) (d : Data) (isPadding : bool) : M nat :=
  let* _ := tick in
  match Data_Hash d p with
  | Ok b => alloc {| Parent := None; Left := None; Right := None;
                     isOrphan := isPadding; NHash := b; NData := Some d |}
  | Fail e => failM (Errorf "d.Hasher()" e)
  | Panic s => panicM s
  | Diverge => lift Diverge
  end.

Definition NewLeaf (p : Hasher) (d : Data) : M nat := newLeaf p d false.
Definition NewOrphanLeaf (p : Hasher) (d : Data) : M nat := newLeaf p d true.

Definition NewParentNode (p : Hasher) (left right : nat) : M nat :=
  let* ln := load left in
  let* rn := load right in
  let* h := hashConcat p (NHash ln) (NHash rn) in
  alloc {| Parent := None; Left := Some left; Right := Some right;
           isOrphan := false; NHash := h; NData := None |}.

(* ------------------------------------------------------------------ *)
(** ** merkle_tree.go *)

(** [MaxGoroutine] only bounds how many goroutines run at once; the context
    argument of [Build] and [Verify] is never read by the package and is
    left out. *)
Record MerkleTreeConfig : Type := {
  CHasher : option Hasher;
  MaxGoroutine : N;
  cisSort : bool }.

(** [MerkleTree] embeds its [MerkleTreeConfig]: [mt.Hasher] is
    [CHasher (Config mt)]. *)
Record MerkleTree : Type := {
  Root : option nat;
  Leaves : list nat;
  Config : MerkleTreeConfig }.

Record MerkleTreeBuilder : Type := { config : option MerkleTreeConfig }.

Definition NewMerkleTreeBuilder : MerkleTreeBuilder :=
  {| config := Some {| CHasher := None; MaxGoroutine := 0; cisSort := false |} |}.

(** The setters write through [b.config]; a builder made by
    [NewMerkleTreeBuilder] always has one. *)
Definition WithHasher (hasher : Hasher) (b : MerkleTreeBuilder) : MerkleTreeBuilder :=
  match config b with
  | Some c => {| config := Some {| CHasher := Some hasher; MaxGoroutine := MaxGoroutine c;
                                   cisSort := cisSort c |} |}
  | None => b
  end.

Definition WithMaxGoroutine (n : N) (b : MerkleTreeBuilder) : MerkleTreeBuilder :=
  match config b with
  | Some c => {| config := Some {| CHasher := CHasher c; MaxGoroutine := n;
                                   cisSort := cisSort c |} |}
  | None => b
  end.

Definition mt_hasher (mt : MerkleTree) : M Hasher :=
  match CHasher (Config mt) with Some h => ret h | None => panicM nil_dereference end.

(** [return nil, fmt.Errorf(..., err)] around a call. *)
Definition map_err {A} (f : error -> error) (m : M A) : M A := fun st =>
  match m st with
  | (Fail e, st') => (Fail (f e), st')
  | r => r
  end.

(** The leaf goroutines, in index order: goroutine [i] stores
    [NewLeaf(mt.Hasher, data[i])] into [leaves[i]]. *)
Fixpoint make_leaves (h : Hasher) (i : nat) (data : list Data) : M (list nat) :=
  match data with
  | [] => ret []
  | d :: rest =>
      let* l := map_err (ErrNewLeaf i) (NewLeaf h d) in
      let* ls := make_leaves h (S i) rest in
      ret (l :: ls)
  end.

(** [NodeSorter.Less]: [bytes.Compare(a.Hash, b.Hash) == -1]. *)
Definition node_Less (a b : nat * list byte) : bool :=
  match bytes_Compare (snd a) (snd b) with Lt => true | _ => false end.

(** [sort.Sort] on up to 12 elements is Go's [insertionSort]: element [i]
    moves left past every element it is strictly [Less] than. On longer
    arrays pdqsort may order nodes of equal digests differently. *)
Fixpoint insert_sorted (x : nat * list byte) (l : list (nat * list byte))
    : list (nat * list byte) :=
  match l with
  | [] => [x]
  | y :: l' => if node_Less x y then x :: l else y :: insert_sorted x l'
  end.

Definition insertionSort (l : list (nat * list byte)) : list (nat * list byte) :=
  fold_left (fun acc x => insert_sorted x acc) l [].

Fixpoint load_hashes (ns : list nat) : M (list (nat * list byte)) :=
  match ns with
  | [] => ret []
  | n :: rest =>
      let* nd := load n in
      let* r := load_hashes rest in
      ret ((n, NHash nd) :: r)
  end.

Definition sort_nodes (ns : list nat) : M (list nat) :=
  let* hs := load_hashes ns in
  ret (map fst (insertionSort hs)).

Definition generateLeafNodes (mt : MerkleTree) (data : list Data) : M (list nat) :=
  match data with
  | [] => failM ErrMerkleTreeDataIsNilOrEmpty
  | _ =>
      let* h := mt_hasher mt in
      let* leaves := make_leaves h 0 data in
      let* leaves :=
        if Nat.odd (length data) then
          match last data with
          | Some d => let* l := NewOrphanLeaf h d in ret (leaves ++ [l])
          | None => panicM index_out_of_range
          end
        else ret leaves in
      if IsSort h then sort_nodes leaves else ret leaves
  end.

(** The pairing goroutines of one level, in index order, each one run to
    its end before the next starts: the pair [(leafNodes[i],
    leafNodes[i+1])], or [(leafNodes[i], leafNodes[i])] for the last node of
    an odd level, gets a new parent stored in [nodes[i/2]], and both
    children's [Parent] point to it. This is the run of a [race_free]
    configuration; [pair_level_sched] below runs the goroutines of a level
    interleaved, as [errgroup] may. *)
Fixpoint pair_level (h : Hasher) (ns : list nat) : M (list nat) :=
  match ns with
  | [] => ret []
  | [a] =>
      let* p := map_err (Errorf "NewParentNode()") (NewParentNode h a a) in
      let* _ := store_Parent a p in
      let* _ := store_Parent a p in
      ret [p]
  | a :: b :: rest =>
      let* p := map_err (Errorf "NewParentNode()") (NewParentNode h a b) in
      let* _ := store_Parent a p in
      let* _ := store_Parent b p in
      let* ps := pair_level h rest in
      ret (p :: ps)
  end.

(** [generateParentNodes] recurses once per level; [fuel] bounds the depth.
    [Build] gives it the leaf count, more than the number of levels of any
    input of two or more nodes; on a single node the Go recursion never
    ends (one node is paired with itself, forever). *)
Fixpoint generateParentNodes (fuel : nat) (mt : MerkleTree) (leafNodes : list nat)
    : M (option nat) :=
  match fuel with
  | O => lift Diverge
  | S fuel' =>
      match leafNodes with
      | [] => failM ErrMerkleTreeDataIsNilOrEmpty
      | _ =>
          let* h := mt_hasher mt in
          let* nodes := pair_level h leafNodes in
          if decide (length leafNodes = 2) then
            match leafNodes !! 1 with
            | Some l => let* n := load l in ret (Parent n)
            | None => panicM index_out_of_range
            end
          else generateParentNodes fuel' mt nodes
      end
  end.

(** [Build] returns [(mt, err)]: the tree pointer and the error. *)
Definition Build (b : MerkleTreeBuilder) (data : list Data)
    : M (option MerkleTree * option error) :=
  match config b with
  | None => ret (None, Some ErrMerkleTreeConfigIsNil)
  | Some c =>
    match CHasher c with
    | None => ret (None, Some ErrMerkleTreeConfigHasherIsNil)
    | Some _ =>
      if decide (MaxGoroutine c = 0%N) then
        ret (None, Some ErrMerkleTreeConfigMaxGoroutineIsEqZero)
      else
      match data with
      | [] => ret (None, Some ErrMerkleTreeDataIsNilOrEmpty)
      | _ =>
        let mt := {| Root := None; Leaves := []; Config := c |} in
        fun st =>
        match generateLeafNodes mt data st with
        | (Ok leafNodes, st1) =>
            match generateParentNodes (length leafNodes) mt leafNodes st1 with
            | (Ok root, st2) =>
                (Ok (Some {| Root := root; Leaves := leafNodes; Config := c |}, None), st2)
            | (Fail e, st2) =>
                (Ok (Some mt, Some (Errorf "mt.generateParentNodes()" e)), st2)
            | (Panic s, st2) => (Panic s, st2)
            | (Diverge, st2) => (Diverge, st2)
            end
        | (Fail e, st1) => (Ok (Some mt, Some (Errorf "mt.generateLeafNodes(data)" e)), st1)
        | (Panic s, st1) => (Panic s, st1)
        | (Diverge, st1) => (Diverge, st1)
        end
      end
    end
  end.

(** [computeNodeHash]: a leaf is re-hashed from its data, an inner node from
    the digests stored in its two children. *)
Definition computeNodeHash (h : Hasher) (n : option nat) : M (list byte) :=
  match n with
  | None => panicM nil_dereference
  | Some p =>
      let* nd := load p in
      if isLeaf nd then
        match NData nd with
        | Some d => let* _ := tick in lift (Data_Hash d h)
        | None => panicM nil_dereference
        end
      else
        match Left nd, Right nd with
        | Some l, Some r =>
            let* ln := load l in
            let* rn := load r in
            hashConcat h (NHash ln) (NHash rn)
        | _, _ => panicM nil_dereference
        end
  end.

(** The [for currentParent != nil] loop of [Verify]. [fuel] is the number of
    nodes in the arena, which every parent chain without a cycle fits in. *)
Fixpoint verify_path (fuel : nat) (h : Hasher) (cur : option nat) : M bool :=
  match cur with
  | None => ret true
  | Some p =>
    match fuel with
    | O => lift Diverge
    | S fuel' =>
        let* pn := load p in
        let* lh := map_err (Errorf "mt.computeNodeHash(currentParent.Left)")
                     (computeNodeHash h (Left pn)) in
        let* rh := map_err (Errorf "mt.computeNodeHash(currentParent.Right)")
                     (computeNodeHash h (Right pn)) in
        let* x := hashConcat h lh rh in
        if bytes_Equal x (NHash pn) then verify_path fuel' h (Parent pn) else ret false
    end
  end.

(** [for _, leaf := range mt.Leaves]: the first leaf whose digest equals the
    item's digest decides. *)
Fixpoint verify_scan (h : Hasher) (hash : list byte) (leaves : list nat) : M bool :=
  match leaves with
  | [] => ret false
  | l :: rest =>
      let* ln := load l in
      if bytes_Equal (NHash ln) hash
      then fun st => verify_path (length (heap st)) h (Parent ln) st
      else verify_scan h hash rest
  end.

Definition Verify (mt : MerkleTree) (data : Data) : M bool :=
  match Leaves mt with
  | [] => ret false
  | _ =>
      let* h := mt_hasher mt in
      let* _ := tick in
      let* hash := map_err (Errorf "data.Hasher()") (lift (Data_Hash data h)) in
      verify_scan h hash (Leaves mt)
  end.

(* ------------------------------------------------------------------ *)
(** ** cmd/build.go: the [build] command *)

(** [buildCmd.RunE] once viper has read its settings: the hash identifier,
    [performance.reuse-buffer-allocation], [sort],
    [performance.max-goroutine] and [data]. The result is the returned error
    and the digest [log.Infof] prints, if any. *)
Definition buildCmd_RunE (hash : Hash) (reuse isSort : bool) (maxG : N) (values : list string)
    : M (option error * option (list byte)) :=
  if negb (IsValid hash) then ret (None, None) else
  let* hashPool :=
    if reuse then (let* c := lift (Hash_Hash hash) in ret (Some (NewHashPool c)))
    else ret None in
  let data := map StringData values in
  let* r := Build (WithMaxGoroutine maxG
                    (WithHasher {| IsSort := isSort; HHash := hash; Pool := hashPool |}
                       NewMerkleTreeBuilder)) data in
  match r with
  | (_, Some e) => ret (Some e, None)
  | (None, None) => panicM nil_dereference
  | (Some mt, None) =>
      match Root mt with
      | Some p => let* n := load p in ret (None, Some (NHash n))
      | None => panicM nil_dereference
      end
  end.

(* ------------------------------------------------------------------ *)
(** ** The goroutines of [generateParentNodes], interleaved *)

(** [pair_level] runs the pairing goroutines of a level one after the
    other. Go runs up to [MaxGoroutine] of them at once ([errs.SetLimit]),
    and with a pool the slice [concat] returns is the array of a
    [BuffCloser] that its deferred [Close] has already put back into
    [buffers]: another goroutine can take that buffer from the pool and
    overwrite it before [h.Write] reads it. The model below keeps the concat
    buffers by reference and runs the goroutines' steps in the order a
    schedule gives. A pooled goroutine takes two steps: up to the return of
    [concat] (engine, buffer taken, filled and put back), then [h.Write] of
    the returned slice, [h.Sum], the new node and the parent pointers. A
    goroutine without a pool shares nothing with the others and takes one
    step. *)

Inductive gphase : Type :=
| GStart
| GWrite (cb : nat)   (* [concat] returned the array of buffer [cb] *)
| GDone.

(** The arena and counters of [St]; the arrays of the [BuffCloser]s made
    so far, by reference; the ones [buffers] holds; where each goroutine of
    the level is; and the level's [nodes] slice. *)
Record RSt : Type := {
  rst : St;
  rbufs : list (list byte);
  rpool : list nat;
  phases : list gphase;
  rnodes : list (option nat) }.

(** A run that a schedule drives: [None] when the schedule asks for a step
    the goroutines cannot take at that point. *)
Definition R (A : Type) : Type := RSt -> option (outcome A * RSt).

Definition rret {A} (a : A) : R A := fun s => Some (Ok a, s).
Definition rbind {A B} (m : R A) (k : A -> R B) : R B := fun s =>
  match m s with
  | Some (Ok a, s') => k a s'
  | Some (Fail e, s') => Some (Fail e, s')
  | Some (Panic msg, s') => Some (Panic msg, s')
  | Some (Diverge, s') => Some (Diverge, s')
  | None => None
  end.
Notation "'let!' x := m 'in' k" := (rbind m (fun x => k))
  (at level 200, x name, m at level 100, k at level 200).

Definition rpanic {A} (msg : string) : R A := fun s => Some (Panic msg, s).

(** An action of the sequential model, on the arena and counters. *)
Definition rM {A} (m : M A) : R A := fun s =>
  let '(o, st') := m (rst s) in
  Some (o, {| rst := st'; rbufs := rbufs s; rpool := rpool s;
              phases := phases s; rnodes := rnodes s |}).

Definition set_phase (c : nat) (g : gphase) : R unit := fun s =>
  Some (Ok tt, {| rst := rst s; rbufs := rbufs s; rpool := rpool s;
                  phases := <[c := g]> (phases s); rnodes := rnodes s |}).

(** [nodes[c] = node] *)
Definition set_node (c : nat) (q : nat) : R unit := fun s =>
  Some (Ok tt, {| rst := rst s; rbufs := rbufs s; rpool := rpool s;
                  phases := phases s; rnodes := <[c := Some q]> (rnodes s) |}).

(** [GetConcatBuffers()]: the buffer at position [pick] of those the pool
    holds, or a new [make([]byte, 256+256)]. *)
Definition rGet (pick : option nat) : R nat := fun s =>
  let fresh := Some (Ok (length (rbufs s)),
                     {| rst := rst s; rbufs := rbufs s ++ [new_buffer]; rpool := rpool s;
                        phases := phases s; rnodes := rnodes s |}) in
  match pick with
  | Some i =>
      match rpool s !! i with
      | Some cb => Some (Ok cb, {| rst := rst s; rbufs := rbufs s;
                                   rpool := delete i (rpool s);
                                   phases := phases s; rnodes := rnodes s |})
      | None => fresh
      end
  | None => fresh
  end.

(** [cb.Close()]: back into the pool, contents kept. *)
Definition rPut (cb : nat) : R unit := fun s =>
  Some (Ok tt, {| rst := rst s; rbufs := rbufs s; rpool := cb :: rpool s;
                  phases := phases s; rnodes := rnodes s |}).

Definition rload_buf (cb : nat) : R (list byte) := fun s =>
  match rbufs s !! cb with
  | Some arr => Some (Ok arr, s)
  | None => Some (Panic nil_dereference, s)
  end.

Definition rstore_buf (cb : nat) (arr : list byte) : R unit := fun s =>
  Some (Ok tt, {| rst := rst s; rbufs := <[cb := arr]> (rbufs s); rpool := rpool s;
                  phases := phases s; rnodes := rnodes s |}).

(** [left, right := _i, _i+1] for goroutine [c] ([_i = 2c]), and
    [if left+1 == len(leafNodes) { right = left }]. *)
Definition pair_children (ns : list nat) (c : nat) : R (nat * nat) :=
  let left := 2 * c in
  let right := if decide (left + 1 = length ns) then left else left + 1 in
  match ns !! left, ns !! right with
  | Some a, Some b => rret (a, b)
  | _, _ => rpanic index_out_of_range
  end.

(** First step of a pooled goroutine: [NewParentNode] up to the return of
    [concat(true, ...)]. [getHash] hands out an engine of its own pool,
    reset by its [Close] before it goes back: no other goroutine sees it. *)
Definition pooled_concat_step (h : Hasher) (ns : list nat) (c : nat) (pick : option nat)
    : R unit :=
  let! ab := pair_children ns c in
  let! ln := rM (load (fst ab)) in
  let! rn := rM (load (snd ab)) in
  let! cb := rGet pick in
  let! arr := rload_buf cb in
  let! filled := (fun s => Some (concat_fill arr (IsSort h) (NHash ln) (NHash rn), s)) in
  let! _ := rstore_buf cb filled in
  let! _ := rPut cb in
  set_phase c (GWrite cb).

(** Second step: [h.Write] reads the array of [cb] as it is now, [h.Sum],
    the new node, [leafNodes[left].Parent = node], [leafNodes[right].Parent
    = node] and [nodes[c] = node]. *)
Definition pooled_write_step (p : HashPool) (ns : list nat) (c cb : nat) : R unit :=
  let! ab := pair_children ns c in
  let! arr := rload_buf cb in
  let! _ := rM tick in
  let! q := rM (alloc {| Parent := None; Left := Some (fst ab); Right := Some (snd ab);
                         isOrphan := false; NHash := crypto_New (pool_hash p) arr;
                         NData := None |}) in
  let! _ := rM (store_Parent (fst ab) q) in
  let! _ := rM (store_Parent (snd ab) q) in
  let! _ := set_node c q in
  set_phase c GDone.

(** The whole body of a goroutine without a pool, as in [pair_level]. *)
Definition plain_step (h : Hasher) (ns : list nat) (c : nat) : R unit :=
  let! ab := pair_children ns c in
  let! q := rM (map_err (Errorf "NewParentNode()") (NewParentNode h (fst ab) (snd ab))) in
  let! _ := rM (store_Parent (fst ab) q) in
  let! _ := rM (store_Parent (snd ab) q) in
  let! _ := set_node c q in
  set_phase c GDone.

(** [errs.Go] starts the goroutines in order, goroutine [c] once fewer than
    [MaxGoroutine] of those started before it are still running. *)
Definition running (g : gphase) : bool := match g with GDone => false | _ => true end.

Definition started (m : N) (c : nat) (ps : list gphase) : bool :=
  (N.of_nat (length (List.filter running (take c ps))) <? m)%N.

(** Goroutine [c] takes its next step; [pick] is the pool's choice when
    that step takes a concat buffer. *)
Definition gstep (h : Hasher) (m : N) (ns : list nat) (c : nat) (pick : option nat) : R unit :=
  fun s =>
  if started m c (phases s) then
    match phases s !! c, Pool h with
    | Some GStart, None => plain_step h ns c s
    | Some GStart, Some _ => pooled_concat_step h ns c pick s
    | Some (GWrite cb), Some p => pooled_write_step p ns c cb s
    | _, _ => None
    end
  else None.

Fixpoint run_steps (h : Hasher) (m : N) (ns : list nat) (sched : list (nat * option nat))
    : R unit :=
  match sched with
  | [] => rret tt
  | (c, pick) :: rest => let! _ := gstep h m ns c pick in run_steps h m ns rest
  end.

(** Every goroutine in turn, each one run to its end, the pool making new
    buffers. *)
Definition seq_sched (h : Hasher) (k : nat) : list (nat * option nat) :=
  flat_map (fun c => match Pool h with
                     | Some _ => [(c, None); (c, None)]
                     | None => [(c, None)]
                     end) (seq 0 k).

(** One level: [nodes] has [len(leafNodes)/2] entries, one more when the
    count is odd; after the schedule every goroutine has returned
    ([errs.Wait]) and [nodes] is read back. *)
Definition pair_level_sched (h : Hasher) (m : N) (ns : list nat)
    (sched : option (list (nat * option nat))) : R (list nat) := fun s =>
  let k := length ns / 2 + (if Nat.odd (length ns) then 1 else 0) in
  let s0 := {| rst := rst s; rbufs := rbufs s; rpool := rpool s;
               phases := repeat GStart k; rnodes := repeat None k |} in
  match run_steps h m ns (default (seq_sched h k) sched) s0 with
  | Some (Ok _, s1) =>
      if forallb (fun g => negb (running g)) (phases s1) then
        match mapM id (rnodes s1) with
        | Some ps => Some (Ok ps, s1)
        | None => None
        end
      else None
  | Some (Fail e, s1) => Some (Fail e, s1)
  | Some (Panic msg, s1) => Some (Panic msg, s1)
  | Some (Diverge, s1) => Some (Diverge, s1)
  | None => None
  end.

(** [generateParentNodes] with one schedule per level (in order from the
    leaves; a level with none runs [seq_sched]). *)
Fixpoint generateParentNodes_sched (fuel : nat) (mt : MerkleTree)
    (scheds : list (list (nat * option nat))) (leafNodes : list nat) : R (option nat) :=
  match fuel with
  | O => fun s => Some (Diverge, s)
  | S fuel' =>
      match leafNodes with
      | [] => fun s => Some (Fail ErrMerkleTreeDataIsNilOrEmpty, s)
      | _ =>
          let! h := rM (mt_hasher mt) in
          let! nodes := pair_level_sched h (MaxGoroutine (Config mt)) leafNodes (head scheds) in
          if decide (length leafNodes = 2) then
            match leafNodes !! 1 with
            | Some l => let! n := rM (load l) in rret (Parent n)
            | None => rpanic index_out_of_range
            end
          else generateParentNodes_sched fuel' mt (tail scheds) nodes
      end
  end.

(** [Build] with the levels run by [generateParentNodes_sched]; the concat
    pool starts empty, as in a new process. *)
Definition Build_sched (scheds : list (list (nat * option nat))) (b : MerkleTreeBuilder)
    (data : list Data) (st : St) : option (outcome (option MerkleTree * option error) * RSt) :=
  let s0 := {| rst := st; rbufs := []; rpool := []; phases := []; rnodes := [] |} in
  match config b with
  | None => Some (Ok (None, Some ErrMerkleTreeConfigIsNil), s0)
  | Some c =>
    match CHasher c with
    | None => Some (Ok (None, Some ErrMerkleTreeConfigHasherIsNil), s0)
    | Some _ =>
      if decide (MaxGoroutine c = 0%N) then
        Some (Ok (None, Some ErrMerkleTreeConfigMaxGoroutineIsEqZero), s0)
      else
      match data with
      | [] => Some (Ok (None, Some ErrMerkleTreeDataIsNilOrEmpty), s0)
      | _ =>
        let mt := {| Root := None; Leaves := []; Config := c |} in
        match rM (generateLeafNodes mt data) s0 with
        | Some (Ok leafNodes, s1) =>
            match generateParentNodes_sched (length leafNodes) mt scheds leafNodes s1 with
            | Some (Ok root, s2) =>
                Some (Ok (Some {| Root := root; Leaves := leafNodes; Config := c |}, None), s2)
            | Some (Fail e, s2) =>
                Some (Ok (Some mt, Some (Errorf "mt.generateParentNodes()" e)), s2)
            | Some (Panic msg, s2) => Some (Panic msg, s2)
            | Some (Diverge, s2) => Some (Diverge, s2)
            | None => None
            end
        | Some (Fail e, s1) => Some (Ok (Some mt, Some (Errorf "mt.generateLeafNodes(data)" e)), s1)
        | Some (Panic msg, s1) => Some (Panic msg, s1)
        | Some (Diverge, s1) => Some (Diverge, s1)
        | None => None
        end
      end
    end
  end.

(* ------------------------------------------------------------------ *)
(** ** Vocabulary of the properties *)

(** The error categories of the design: the Go errors that report a missing
    configuration piece, and the one that reports empty input. *)
Inductive error_kind : Type := ConfigInvalid | EmptyInput | OtherError.

Definition kind_of (e : error) : error_kind :=
  match e with
  | ErrMerkleTreeConfigIsNil | ErrMerkleTreeConfigHasherIsNil
  | ErrMerkleTreeConfigMaxGoroutineIsEqZero => ConfigInvalid
  | ErrMerkleTreeDataIsNilOrEmpty => EmptyInput
  | _ => OtherError
  end.

(** A buffer the pool may hold: full size, and zero past the first 32 bytes
    (the only bytes that 32-byte operands ever overwrite). *)
Definition buf_ok (b : list byte) : Prop :=
  length b = buffer_len /\ drop 32 b = repeat x00 (buffer_len - 32).

Definition pool_ok (st : St) : Prop := Forall buf_ok (buffers st).

(** What [hashConcat] yields on two 32-byte digests from a pool of
    [buf_ok] buffers: the digest of the first (sorted) operand followed by
    zeros. *)
Definition comb (h : Hasher) (l r : list byte) : outcome (list byte) :=
  let m := fst (sort_pair (IsSort h) l r) ++ repeat x00 (buffer_len - 32) in
  match Pool h with
  | None => let? f := HashFunc (HHash h) in Ok (f m)
  | Some p => Ok (crypto_New (pool_hash p) m)
  end.

(** A configuration whose pairing goroutines never share a concat buffer:
    without a pool each goroutine makes its own buffer and engine, and with
    [MaxGoroutine] 1 ([errs.SetLimit(1)]) a goroutine hashes the buffer
    [concat] returned before the next one starts. There a level computes
    what [pair_level] computes; with a pool and more than one goroutine it
    need not (see [generateParentNodes_sched]). *)
Definition race_free (c : MerkleTreeConfig) (h : Hasher) : Prop :=
  Pool h = None \/ MaxGoroutine c = 1%N.

(** A hasher whose engine can be built: a pool, or a supported identifier. *)
Definition hasher_ok (h : Hasher) : Prop := Pool h <> None \/ HHash h = SHA256.

(** The nodes allocated from index [lo] on form well-built trees for [h]:
    a leaf stores its data's digest, an inner node the combination of its
    two (older) children's digests, every digest has 32 bytes, and a parent
    pointer leads to a younger inner node that has the node as a child. *)
Definition node_ok (h : Hasher) (H : list Node) (lo n : nat) (nd : Node) : Prop :=
  length (NHash nd) = 32 /\
  ((Left nd = None /\ Right nd = None /\
    exists d, NData nd = Some d /\ Data_Hash d h = Ok (NHash nd)) \/
   (exists l r ln rn, Left nd = Some l /\ Right nd = Some r /\
      lo <= l < n /\ lo <= r < n /\ H !! l = Some ln /\ H !! r = Some rn /\
      comb h (NHash ln) (NHash rn) = Ok (NHash nd))) /\
  (forall p, Parent nd = Some p ->
     n < p /\ exists pn, H !! p = Some pn /\ (Left pn = Some n \/ Right pn = Some n)).

Definition region_ok (h : Hasher) (lo : nat) (H : list Node) : Prop :=
  forall n nd, lo <= n -> H !! n = Some nd -> node_ok h H lo n nd.

(** [T] is reached from [n] by following parent pointers. *)
Inductive under (H : list Node) : nat -> nat -> Prop :=
| under_parent n nd p : H !! n = Some nd -> Parent nd = Some p -> under H n p
| under_step n nd p t : H !! n = Some nd -> Parent nd = Some p -> under H p t -> under H n t.

(** The leaf that [Verify]'s scan stops at. *)
Fixpoint first_match (H : list Node) (x : list byte) (leaves : list nat) : option nat :=
  match leaves with
  | [] => None
  | l :: rest =>
      match H !! l with
      | Some ln => if bytes_Equal (NHash ln) x then Some l else first_match H x rest
      | None => None
      end
  end.

(** Overwrite the digest stored in node [t]. *)
Definition tamper (t : nat) (x : list byte) (st : St) : St :=
  {| heap := match heap st !! t with
             | Some nd => <[t := set_NHash x nd]> (heap st)
             | None => heap st
             end;
     buffers := buffers st; hash_writes := hash_writes st; pool_picks := pool_picks st |}.

(** The root digest of a build, with the error it returned. *)
Definition root_digest (r : outcome (option MerkleTree * option error) * St)
    : outcome (option (list byte) * option error) :=
  match r with
  | (Ok (Some mt, err), st) =>
      Ok (match Root mt with
          | Some p => option_map NHash (heap st !! p)
          | None => None
          end, err)
  | (Ok (None, err), _) => Ok (None, err)
  | (Fail e, _) => Fail e
  | (Panic s, _) => Panic s
  | (Diverge, _) => Diverge
  end.

(** An error [Verify] may return: the item's digest could not be computed,
    or the digest of the data of a node in the arena could not. *)
Definition node_data_fails (h : Hasher) (H : list Node) (e : error) : Prop :=
  exists side e0 n nd d', e = Errorf side e0 /\ H !! n = Some nd /\
     NData nd = Some d' /\ Data_Hash d' h = Fail e0.

Definition digest_error (h : Hasher) (H : list Node) (d : Data) (e : error) : Prop :=
  (exists e0, e = Errorf "data.Hasher()" e0 /\ Data_Hash d h = Fail e0) \/
  node_data_fails h H e.

(** A computation that leaves the arena as it is. *)
Definition keeps_heap {A} (m : M A) : Prop :=
  forall st o st', m st = (o, st') -> heap st' = heap st.

(** The state a program starts in: no node, an empty buffer pool. *)
Definition initial_state : St := {| heap := []; buffers := []; hash_writes := 0; pool_picks := [] |}.

(** The configurations of the tests and of the command line. *)
Definition sha256_hasher (isSort : bool) (pooled : bool) : Hasher :=
  {| IsSort := isSort; HHash := SHA256;
     Pool := if pooled then Some (NewHashPool CRYPTO_SHA256) else None |}.

Definition builder (h : Hasher) (n : N) : MerkleTreeBuilder :=
  WithMaxGoroutine n (WithHasher h NewMerkleTreeBuilder).

(** The digest an item is expected to have: 32 bytes, computed without error. *)
Definition digest32 (h : Hasher) (d : Data) : Prop :=
  exists x, Data_Hash d h = Ok x /\ length x = 32.

(** Total readings of a digest computation, for the pure model of a build. *)
Definition digest (h : Hasher) (d : Data) : list byte :=
  match Data_Hash d h with Ok x => x | _ => [] end.

Definition comb_digest (h : Hasher) (l r : list byte) : list byte :=
  match comb h l r with Ok x => x | _ => [] end.

Definition hash_at (H : list Node) (i : nat) : list byte :=
  match H !! i with Some nd => NHash nd | None => [] end.

(** What [Verify] reads of a node besides its parent pointer. *)
Definition view (n : Node) : option nat * option nat * list byte :=
  (Left n, Right n, NHash n).

(** [H'] extends [H] and keeps the view of every node of [H]. *)
Definition grows (H H' : list Node) : Prop :=
  length H <= length H' /\
  forall i, i < length H -> option_map view (H' !! i) = option_map view (H !! i).

(** The invariant of a build that started on an arena of [lo] nodes. *)
Definition build_ok (h : Hasher) (lo : nat) (st : St) : Prop :=
  region_ok h lo (heap st) /\ pool_ok st /\ lo <= length (heap st).

Definition in_region (lo : nat) (H : list Node) (i : nat) : Prop := lo <= i < length H.

Definition leaf_at (lo : nat) (H : list Node) (i : nat) : Prop :=
  lo <= i /\ exists nd, H !! i = Some nd /\ Left nd = None /\ Right nd = None.

(** The node [newLeaf] allocates. *)
Definition leaf_node (d : Data) (x : list byte) (pad : bool) : Node :=
  {| Parent := None; Left := None; Right := None; isOrphan := pad;
     NHash := x; NData := Some d |}.

(** The digests of one level of [generateParentNodes], computed without an
    arena, and the root digest it ends with. *)
Fixpoint pure_level (h : Hasher) (hs : list (list byte)) : list (list byte) :=
  match hs with
  | [] => []
  | [a] => [comb_digest h a a]
  | a :: b :: rest => comb_digest h a b :: pure_level h rest
  end.

Fixpoint pure_root (fuel : nat) (h : Hasher) (hs : list (list byte)) : option (list byte) :=
  match fuel with
  | O => None
  | S fuel' =>
      match hs with
      | [] => None
      | _ => if decide (length hs = 2) then head (pure_level h hs)
             else pure_root fuel' h (pure_level h hs)
      end
  end.

(** The item [generateLeafNodes] repeats as padding leaf, if any. *)
Definition padding (data : list Data) : list Data :=
  if Nat.odd (length data) then
    match last data with Some d => [d] | None => [] end
  else [].

(** The leaf digests of a build, in the order of [mt.Leaves]. *)
Definition pure_leaves (h : Hasher) (data : list Data) : list (list byte) :=
  let hs := map (digest h) (data ++ padding data) in
  if IsSort h then map snd (insertionSort (map (fun x => (0, x)) hs)) else hs.

Definition pure_build_root (h : Hasher) (data : list Data) : option (list byte) :=
  pure_root (length (pure_leaves h data)) h (pure_leaves h data).

(** The order [NodeSorter] sorts by: not [Less] the other way round. *)
Definition byte_le (a b : list byte) : Prop := bytes_Compare a b <> Gt.

(* ================================================================== *)
(** ** Concrete inputs and checkers for the examples *)

(** An item whose [Hash] method returns an error. *)
Definition failing_data (msg : string) : Data :=
  {| Data_Hash := fun _ => Fail (ErrData msg); Data_String := msg |}.

Definition md5_hasher : Hasher := {| IsSort := false; HHash := "md5"%string; Pool := None |}.
Definition items5 : list Data := map StringData ["value1";"value2";"value3";"value4";"value5"]%string.
Definition items4 : list Data := map StringData ["value1";"value2";"value3";"value1"]%string.
Definition items3 : list Data := map StringData ["value1";"value2";"value3"]%string.

#[local] Instance byte_EqDecision : EqDecision byte := Byte.byte_eq_dec.

Definition is_panic {A} (r : outcome A * St) : bool :=
  match fst r with Panic _ => true | _ => false end.
Definition is_ok {A} (r : outcome A * St) : bool :=
  match fst r with Ok _ => true | _ => false end.
Definition check_tree (P : MerkleTree -> St -> bool)
    (r : outcome (option MerkleTree * option error) * St) : bool :=
  match r with (Ok (Some mt, None), st) => P mt st | _ => false end.

(** The last leaf of the array is not a padding leaf. *)
Definition last_leaf_not_padding (mt : MerkleTree) (st : St) : bool :=
  match last (Leaves mt) with
  | Some l => match heap st !! l with Some nd => negb (isOrphan nd) | None => false end
  | None => false
  end.

Definition dup_tamper_check (mt : MerkleTree) (st : St) : bool :=
  bool_decide (Leaves mt = [1; 0; 3; 2]) && bool_decide (Root mt = Some 6) &&
  bool_decide (hash_at (heap st) 3 = digest (sha256_hasher true false) (StringData "value1")) &&
  bool_decide (option_map Parent (heap st !! 3) = Some (Some 5)) &&
  bool_decide (hash_at (heap st) 5 <> []) &&
  match fst (Verify mt (StringData "value1") (tamper 5 [] st)) with Ok true => true | _ => false end.

Definition cfg (h : Hasher) : MerkleTreeConfig :=
  {| CHasher := Some h; MaxGoroutine := 1; cisSort := false |}.
Definition tree1 (h : Hasher) (leaves : list nat) : MerkleTree :=
  {| Root := head leaves; Leaves := leaves; Config := cfg h |}.
Definition arena (h : Hasher) (vs : list string) : St :=
  {| heap := map (fun v => leaf_node (StringData v) (digest h (StringData v)) false) vs;
     buffers := []; hash_writes := 0; pool_picks := [] |}.

(** The root digest a scheduled build stores, when it returns a tree. *)
Definition rroot_digest (r : option (outcome (option MerkleTree * option error) * RSt))
    : option (list byte) :=
  match r with
  | Some (Ok (Some mt, None), s) =>
      match Root mt with Some p => option_map NHash (heap (rst s) !! p) | None => None end
  | _ => None
  end.

(** Four leaves, two pairing goroutines on the first level, both running
    ([MaxGoroutine] 2): goroutine 0 gets a new buffer from [concat] and puts
    it back; goroutine 1 takes that same buffer from the pool and fills it
    with its own left digest; then goroutine 0 hashes the buffer, then
    goroutine 1. The upper level runs as in [seq_sched]. *)
Definition race_sched : list (list (nat * option nat)) :=
  [[(0, None); (1, Some 0); (0, None); (1, None)]].

Definition roots_check (a b : option (list byte))
    (c : outcome (option (list byte) * option error)) : bool :=
  match a, b, c with
  | Some r1, Some r2, Ok (Some r3, None) => negb (bytes_Equal r1 r2) && bytes_Equal r1 r3
  | _, _, _ => false
  end.

Definition check_rtree (P : MerkleTree -> RSt -> bool)
    (r : option (outcome (option MerkleTree * option error) * RSt)) : bool :=
  match r with Some (Ok (Some mt, None), s) => P mt s | _ => false end.

Definition verify_is_false (d : Data) (mt : MerkleTree) (s : RSt) : bool :=
  match fst (Verify mt d (rst s)) with Ok false => true | _ => false end.

(** Bookkeeping for the runs of a level under a schedule: how many
    goroutines have stored their node, the right child of goroutine [c],
    and the invariant every step keeps. *)
Definition count_some (l : list (option nat)) : nat :=
  length (List.filter (fun o => match o with Some _ => true | None => false end) l).

Definition right_child (ns : list nat) (c : nat) : nat :=
  if decide (2 * c + 1 = length ns) then 2 * c else 2 * c + 1.

(** After any prefix of a schedule: the goroutines that returned are those
    that stored a node; the arena holds [lo] nodes plus one per stored node;
    the node of goroutine [c] has the children of its pair. *)
Definition sched_inv (ns : list nat) (k lo : nat) (s : RSt) : Prop :=
  length (phases s) = k /\ length (rnodes s) = k /\
  (forall c, phases s !! c = Some GDone <-> exists q, rnodes s !! c = Some (Some q)) /\
  length (heap (rst s)) = lo + count_some (rnodes s) /\
  (forall c q, rnodes s !! c = Some (Some q) ->
     exists pn a b, heap (rst s) !! q = Some pn /\ Left pn = Some a /\ Right pn = Some b /\
       ns !! (2 * c) = Some a /\ ns !! right_child ns c = Some b).

(** The arena and the goroutines' progress unchanged. *)
Definition rframe (s s' : RSt) : Prop :=
  rst s' = rst s /\ phases s' = phases s /\ rnodes s' = rnodes s.

(** Without a pool: the digests of the nodes stored so far, from the
    digests the level started with. *)
Definition digest_inv (h : Hasher) (ns : list nat) (H0 : list Node) (s : RSt) : Prop :=
  grows H0 (heap (rst s)) /\
  forall c q, rnodes s !! c = Some (Some q) ->
    exists pn a b, heap (rst s) !! q = Some pn /\ ns !! (2 * c) = Some a /\
      ns !! right_child ns c = Some b /\ Left pn = Some a /\ Right pn = Some b /\
      NHash pn = comb_digest h (hash_at H0 a) (hash_at H0 b).

(** A fresh process around an arena, and a run that returned. *)
Definition rstart (st : St) : RSt :=
  {| rst := st; rbufs := []; rpool := []; phases := []; rnodes := [] |}.

Definition ris_ok {A} (r : option (outcome A * RSt)) : bool :=
  match r with Some (Ok _, _) => true | _ => false end.

(** Closes a goal [b = true] by evaluating [b] with the virtual machine,
    recording a cast the kernel also checks with it. *)
Ltac vm_refl := match goal with |- ?g => exact (eq_refl true <: g) end.

Ltac digest32_tac := eexists; split; [reflexivity|vm_compute; reflexivity].

(** * Proofs *)

Lemma bytes_Equal_eq a b : bytes_Equal a b = true <-> a = b.
Proof.
  revert b; induction a as [|x a IH]; intros [|y b]; simpl; try (split; congruence).
  rewrite andb_true_iff, IH. split.
  - intros [Hxy ->]. apply Byte.byte_dec_bl in Hxy. now subst.
  - intros Heq. injection Heq as -> ->. split; [apply Byte.byte_dec_lb|]; reflexivity.
Qed.

Lemma bytes_Equal_refl a : bytes_Equal a a = true.
Proof. now apply bytes_Equal_eq. Qed.

Lemma bytes_Compare_antisym a b : bytes_Compare a b = CompOpp (bytes_Compare b a).
Proof.
  revert b; induction a as [|x a IH]; intros [|y b]; simpl; try reflexivity.
  rewrite (N.compare_antisym (Byte.to_N y) (Byte.to_N x)).
  destruct (N.compare (Byte.to_N y) (Byte.to_N x)); simpl; auto.
Qed.

Lemma bytes_Compare_Eq a b : bytes_Compare a b = Eq -> a = b.
Proof.
  revert b; induction a as [|x a IH]; intros [|y b]; simpl; try congruence.
  destruct (N.compare (Byte.to_N x) (Byte.to_N y)) eqn:E; try congruence.
  intros Hab. apply N.compare_eq in E.
  pose proof (Byte.of_to_N x) as Hx. pose proof (Byte.of_to_N y) as Hy.
  rewrite E in Hx. rewrite (IH b Hab). congruence.
Qed.

Lemma sort_pair_comm b1 b2 : sort_pair true b1 b2 = sort_pair true b2 b1.
Proof.
  unfold sort_pair; simpl. rewrite (bytes_Compare_antisym b2 b1).
  destruct (bytes_Compare b1 b2) eqn:E; simpl; auto.
  now rewrite (bytes_Compare_Eq _ _ E).
Qed.

Lemma sum_length m : length (Sha256.sum m) = 32.
Proof.
  unfold Sha256.sum, Sha256.digest_Z. rewrite length_map.
  destruct (fold_left _ _ _) as [[[[[[[? ?] ?] ?] ?] ?] ?] ?]. reflexivity.
Qed.

Lemma crypto_New_length c m : length (crypto_New c m) = 32.
Proof. destruct c. apply sum_length. Qed.

Lemma for_range_copy (src : list byte) n i c :
  i + n <= length src -> i + n <= length c ->
  exists r, for_range i n (fun k b => let? v := get_index src k in set_index b k v) c = Ok r /\
    length r = length c /\
    forall k, r !! k = if decide (i <= k < i + n) then src !! k else c !! k.
Proof.
  revert i c. induction n as [|n IH]; intros i c Hs Hc; simpl.
  - exists c. split; [done|]. split; [done|]. intros k. case_decide; [lia|done].
  - destruct (lookup_lt_is_Some_2 src i) as [v Hv]; [lia|].
    unfold get_index at 1. rewrite Hv. simpl.
    unfold set_index at 1. rewrite decide_True by lia. simpl.
    destruct (IH (S i) (<[i:=v]> c)) as (r & Hr & Hlen & Hk);
      [lia | rewrite length_insert; lia |].
    exists r. split; [exact Hr|]. split; [rewrite Hlen, length_insert; done|].
    intros k. rewrite Hk. destruct (decide (k = i)) as [->|Hne].
    + rewrite decide_False by lia. rewrite decide_True by lia.
      rewrite list_lookup_insert_eq by lia. done.
    + rewrite list_lookup_insert_ne by done. repeat case_decide; try lia; done.
Qed.

Lemma sort_pair_length s b1 b2 :
  length b1 = 32 -> length b2 = 32 ->
  length (fst (sort_pair s b1 b2)) = 32 /\ length (snd (sort_pair s b1 b2)) = 32.
Proof. unfold sort_pair. destruct (_ && _); simpl; auto. Qed.

(** On two 32-byte operands the buffer ends up holding the first (sorted)
    operand followed by what the buffer held past byte 32: the second loop
    of [concat] runs zero times. *)
Lemma concat_fill_32 buf s b1 b2 :
  length buf = buffer_len -> length b1 = 32 -> length b2 = 32 ->
  concat_fill buf s b1 b2 = Ok (fst (sort_pair s b1 b2) ++ drop 32 buf).
Proof.
  intros Hbuf H1 H2. unfold concat_fill.
  destruct (sort_pair_length s b1 b2 H1 H2) as [Hx Hy].
  destruct (sort_pair s b1 b2) as [x y]; simpl in *.
  destruct (for_range_copy x 32 0 buf) as (r & Hr & Hlen & Hk);
    [lia | unfold buffer_len in Hbuf; lia |].
  rewrite Hx, Hr. simpl. rewrite ?Hx, ?Hy. simpl. f_equal.
  apply list_eq. intros k. rewrite Hk. case_decide.
  - rewrite lookup_app_l by lia. done.
  - rewrite lookup_app_r by lia. rewrite lookup_drop. f_equal. lia.
Qed.

Lemma new_buffer_ok : buf_ok new_buffer.
Proof. split; reflexivity. Qed.

Lemma filled_ok x b : length x = 32 -> buf_ok b -> buf_ok (x ++ drop 32 b).
Proof.
  intros Hx [Hl Hd]. split.
  - rewrite length_app, length_drop, Hx, Hl. reflexivity.
  - rewrite drop_app_length'; [exact Hd | symmetry; exact Hx].
Qed.

Lemma GetConcatBuffers_heap st :
  exists b st1, GetConcatBuffers st = (Ok b, st1) /\ heap st1 = heap st.
Proof.
  unfold GetConcatBuffers.
  destruct (pool_picks st) as [|[i|] picks]; [eauto|..|eauto].
  destruct (buffers st !! i); eauto.
Qed.

Lemma GetConcatBuffers_spec st :
  pool_ok st -> exists b st1, GetConcatBuffers st = (Ok b, st1) /\ buf_ok b /\
    pool_ok st1 /\ heap st1 = heap st.
Proof.
  intros Hp. unfold GetConcatBuffers.
  destruct (pool_picks st) as [|[i|] picks].
  - eexists _, _. split; [reflexivity|]. split; [apply new_buffer_ok|]. auto.
  - destruct (buffers st !! i) as [b|] eqn:Eb.
    + eexists _, _. split; [reflexivity|]. unfold pool_ok in *. cbn.
      split; [rewrite Forall_lookup in Hp; exact (Hp i b Eb)|].
      split; [apply Forall_delete, Hp|reflexivity].
    + eexists _, _. split; [reflexivity|]. split; [apply new_buffer_ok|]. auto.
  - eexists _, _. split; [reflexivity|]. split; [apply new_buffer_ok|]. auto.
Qed.

Lemma hashConcat_spec h l r st :
  pool_ok st -> length l = 32 -> length r = 32 ->
  exists st', hashConcat h l r st = (comb h l r, st') /\
    heap st' = heap st /\ pool_ok st'.
Proof.
  intros Hpool Hl Hr. unfold hashConcat, comb.
  destruct (sort_pair_length (IsSort h) l r Hl Hr) as [Hx _].
  destruct (Pool h) as [p|].
  - destruct (GetConcatBuffers_spec st Hpool) as (b & st1 & Eg & Hb & Hp1 & Hh1).
    unfold concat, bind. rewrite Eg. unfold lift, CloseBuffer, tick, ret.
    rewrite concat_fill_32 by (apply Hb || assumption).
    destruct Hb as [Hbl Hbd]. rewrite Hbd.
    eexists. split; [reflexivity|]. split; [exact Hh1|].
    unfold pool_ok; cbn -[buffer_len]. constructor; [|exact Hp1].
    rewrite <- Hbd. apply filled_ok; [exact Hx | split; assumption].
  - unfold bind, lift, concat, tick, ret.
    destruct (HashFunc (HHash h)) as [f|e|m|]; cbn -[new_buffer buffer_len];
      try (eexists; split; [reflexivity | split; [reflexivity | exact Hpool]]).
    rewrite concat_fill_32 by (reflexivity || assumption).
    destruct new_buffer_ok as [_ Hnd]. rewrite Hnd.
    eexists. split; [reflexivity|]. split; [reflexivity|]. exact Hpool.
Qed.

(** With sorting off and a second operand no longer than the first, the
    second copy loop of [concat] runs zero times. *)
Lemma concat_fill_nosort b b1 b2 :
  length b2 <= length b1 ->
  concat_fill b false b1 b2 =
  let? b := for_range 0 (length b1)
              (fun i b => let? v := get_index b1 i in set_index b i v) b in Ok b.
Proof.
  intros Hle. unfold concat_fill, sort_pair. simpl.
  replace (length b2 - length b1) with 0 by lia. reflexivity.
Qed.

Lemma concat_fill_comm b d1 d2 :
  concat_fill b true d1 d2 = concat_fill b true d2 d1.
Proof. unfold concat_fill. now rewrite sort_pair_comm. Qed.

Lemma Verify_no_leaves mt d st :
  Leaves mt = [] -> Verify mt d st = (Ok false, st).
Proof. intros H. unfold Verify. now rewrite H. Qed.

(** ** C2: the buffer of [concat] does not hold the second operand *)

(** C2 (code_bug). The combination step is meant to hash both digests
    written one after the other. At [d1] = 32 zero bytes and [d2] = 32 bytes
    [0x01], with sorting off and no pool, the buffer [concat] returns holds
    [d1] and then 480 zero bytes: bytes 32..63 are zero, not [d2]. *)
Theorem concat_second_operand_not_copied :
  fst (concat false false (repeat x00 32) (repeat x01 32) initial_state)
    = Ok (repeat x00 buffer_len) /\
  drop 32 (take 64 (repeat x00 buffer_len)) <> repeat x01 32.
Proof. split; [vm_compute; reflexivity | vm_compute; discriminate]. Qed.

(** ** C5: with sorting on the combination is commutative *)

(** C5. With the pairing-sort flag on, combining [d1] with [d2] and
    combining [d2] with [d1] run the same computation: same digest (or same
    panic) and same final state, for all byte strings and any pool
    content. *)
Theorem hashConcat_comm_sorted (h : Hasher) (d1 d2 : list byte) (st : St) :
  IsSort h = true -> hashConcat h d1 d2 st = hashConcat h d2 d1 st.
Proof.
  intros Hs. unfold hashConcat, concat, bind, lift, CloseBuffer, tick, ret.
  rewrite Hs. destruct (Pool h) as [p|].
  - destruct (GetConcatBuffers_heap st) as (b & st1 & Eg & _). rewrite Eg.
    now rewrite concat_fill_comm.
  - destruct (HashFunc (HHash h)); try reflexivity. now rewrite concat_fill_comm.
Qed.

Lemma hashConcat_comm_sorted_witness :
  IsSort (sha256_hasher true true) = true /\
  hashConcat (sha256_hasher true true) (repeat x01 32) (repeat x00 32) initial_state =
  hashConcat (sha256_hasher true true) (repeat x00 32) (repeat x01 32) initial_state.
Proof. split; [reflexivity | apply hashConcat_comm_sorted; reflexivity]. Defined.

(** ** C10: with sorting off a parent digest ignores the right child *)

(** C10. With the pairing-sort flag off and 32-byte digests, the
    combination of [d1] with [d2] does not depend on [d2]: the whole
    computation (digest and state) is the same for any other [d2']. *)
Theorem hashConcat_ignores_right (h : Hasher) (d1 d2 d2' : list byte) (st : St) :
  IsSort h = false -> length d1 = 32 -> length d2 = 32 -> length d2' = 32 ->
  hashConcat h d1 d2 st = hashConcat h d1 d2' st.
Proof.
  intros Hs H1 H2 H2'.
  unfold hashConcat, concat, bind, lift, CloseBuffer, tick, ret.
  rewrite Hs. destruct (Pool h) as [p|].
  - destruct (GetConcatBuffers_heap st) as (b & st1 & Eg & _). rewrite Eg.
    rewrite !(concat_fill_nosort _ d1) by lia; reflexivity.
  - destruct (HashFunc (HHash h)); try reflexivity.
    rewrite !(concat_fill_nosort _ d1) by lia. reflexivity.
Qed.

Lemma hashConcat_ignores_right_witness :
  IsSort (sha256_hasher false true) = false /\
  length (repeat x07 32) = 32 /\ length (repeat x01 32) = 32 /\ length (repeat x02 32) = 32 /\
  hashConcat (sha256_hasher false true) (repeat x07 32) (repeat x01 32) initial_state =
  hashConcat (sha256_hasher false true) (repeat x07 32) (repeat x02 32) initial_state.
Proof.
  split; [reflexivity|]. split; [reflexivity|]. split; [reflexivity|].
  split; [reflexivity|]. apply hashConcat_ignores_right; reflexivity.
Defined.

(** ** C7: an unsupported algorithm identifier panics *)

(** C7 (counterexample). For the identifier ["md5"], building the engine
    ([HashFunc], and [Hash()] that [NewHashPool] is given) panics; no error
    value is returned. *)
Lemma HashFunc_md5_panics :
  HashFunc "md5"%string = Panic "Hash<md5> is not recognized"%string /\
  Hash_Hash "md5"%string = Panic "Hash<md5> is not recognized"%string /\
  ~ (exists e, HashFunc "md5"%string = Fail e).
Proof.
  split; [reflexivity|]. split; [reflexivity|]. intros [e He]. discriminate He.
Qed.

(** C7 (amended). For every identifier other than ["sha256"], [IsValid]
    reports it as invalid, and both [HashFunc] and [Hash()] panic with
    ["Hash<id> is not recognized"]. *)
Theorem unsupported_hash_panics (s : Hash) :
  s <> SHA256 ->
  IsValid s = false /\
  HashFunc s = Panic (hash_not_allowed s) /\
  Hash_Hash s = Panic (hash_not_allowed s).
Proof.
  intros Hs. unfold IsValid, HashFunc, Hash_Hash.
  destruct (string_dec s SHA256) as [E|_]; [contradiction|].
  destruct (string_dec s UNKNOWNHASH); auto.
Qed.

Lemma unsupported_hash_panics_witness :
  "md5"%string <> SHA256 /\
  IsValid "md5"%string = false /\
  HashFunc "md5"%string = Panic (hash_not_allowed "md5"%string) /\
  Hash_Hash "md5"%string = Panic (hash_not_allowed "md5"%string).
Proof.
  assert (H : "md5"%string <> SHA256) by discriminate.
  split; [exact H | apply unsupported_hash_panics; exact H].
Defined.

(** ** C6: validation errors come first and change nothing *)

(** C6. A builder without configuration, without hasher or with a zero
    goroutine limit makes [Build] return no tree and a configuration error;
    with a valid configuration, empty data makes it return no tree and the
    empty-input error. In each case the state is returned untouched: no node
    is allocated, no buffer leased and no hash engine written. *)
Theorem Build_validation_fails_fast (b : MerkleTreeBuilder) (data : list Data) (st : St) :
  (config b = None ->
     Build b data st = (Ok (None, Some ErrMerkleTreeConfigIsNil), st) /\
     kind_of ErrMerkleTreeConfigIsNil = ConfigInvalid) /\
  (forall c, config b = Some c -> (CHasher c = None \/ MaxGoroutine c = 0%N) ->
     exists e, Build b data st = (Ok (None, Some e), st) /\ kind_of e = ConfigInvalid) /\
  (forall c, config b = Some c -> CHasher c <> None -> MaxGoroutine c <> 0%N -> data = [] ->
     Build b data st = (Ok (None, Some ErrMerkleTreeDataIsNilOrEmpty), st) /\
     kind_of ErrMerkleTreeDataIsNilOrEmpty = EmptyInput).
Proof.
  unfold Build. split; [|split].
  - intros ->. split; reflexivity.
  - intros c -> Hc. destruct (CHasher c) as [h|].
    + destruct Hc as [Hc|Hc]; [discriminate|].
      rewrite decide_True by exact Hc. eexists. split; reflexivity.
    + eexists. split; reflexivity.
  - intros c -> Hh Hm ->. destruct (CHasher c) as [h|]; [|contradiction].
    rewrite decide_False by exact Hm. split; reflexivity.
Qed.

(** ** C8: Verify on an empty tree *)

Lemma bind_inv {A B} (m : M A) (k : A -> M B) st o st' :
  bind m k st = (o, st') ->
  (exists a st1, m st = (Ok a, st1) /\ k a st1 = (o, st')) \/
  (exists e, m st = (Fail e, st') /\ o = Fail e) \/
  (exists s0, m st = (Panic s0, st') /\ o = Panic s0) \/
  (m st = (Diverge, st') /\ o = Diverge).
Proof.
  unfold bind. destruct (m st) as [[a|e|s0|] st1]; intros Hm; inversion Hm; subst; eauto 10.
Qed.

Lemma keeps_heap_ret {A} (a : A) : keeps_heap (ret a).
Proof. intros st o st' H. now inversion H. Qed.

Lemma keeps_heap_lift {A} (o : outcome A) : keeps_heap (lift o).
Proof. intros st o' st' H. now inversion H. Qed.

Lemma keeps_heap_bind {A B} (m : M A) (k : A -> M B) :
  keeps_heap m -> (forall a, keeps_heap (k a)) -> keeps_heap (bind m k).
Proof.
  intros Hm Hk st o st' H.
  apply bind_inv in H as [(a & st1 & H1 & H2)|[(? & H1 & _)|[(? & H1 & _)|[H1 _]]]];
    try exact (Hm _ _ _ H1).
  rewrite (Hk a _ _ _ H2). exact (Hm _ _ _ H1).
Qed.

Lemma keeps_heap_map_err {A} f (m : M A) : keeps_heap m -> keeps_heap (map_err f m).
Proof.
  intros Hm st o st' H. unfold map_err in H.
  destruct (m st) as [[a|e|s0|] st1] eqn:E; inversion H; subst; exact (Hm _ _ _ E).
Qed.

Lemma keeps_heap_tick : keeps_heap tick.
Proof. intros st o st' H. now inversion H. Qed.

Lemma keeps_heap_load n : keeps_heap (load n).
Proof. intros st o st' H. unfold load in H. destruct (heap st !! n); now inversion H. Qed.

Lemma keeps_heap_concat r s b1 b2 : keeps_heap (concat r s b1 b2).
Proof.
  destruct r; unfold concat.
  - apply keeps_heap_bind; [|intros cb; apply keeps_heap_bind; [apply keeps_heap_lift|]].
    + intros st o st' H. destruct (GetConcatBuffers_heap st) as (b & st1 & Eg & Hh).
      rewrite Eg in H. injection H as _ <-. exact Hh.
    + intros b. apply keeps_heap_bind; [|intros; apply keeps_heap_ret].
      intros st o st' H. now inversion H.
  - apply keeps_heap_lift.
Qed.

Create HintDb heap.
#[local] Hint Resolve keeps_heap_ret keeps_heap_lift keeps_heap_bind keeps_heap_map_err
  keeps_heap_tick keeps_heap_load keeps_heap_concat : heap.

Lemma keeps_heap_hashConcat h l r : keeps_heap (hashConcat h l r).
Proof.
  unfold hashConcat. destruct (Pool h);
    repeat (apply keeps_heap_bind; intros; auto with heap); auto with heap.
Qed.
#[local] Hint Resolve keeps_heap_hashConcat : heap.

Lemma keeps_heap_computeNodeHash h n : keeps_heap (computeNodeHash h n).
Proof.
  unfold computeNodeHash. destruct n as [p|]; [|unfold panicM; auto with heap].
  apply keeps_heap_bind; [auto with heap|]. intros nd.
  destruct (isLeaf nd).
  - destruct (NData nd); unfold panicM; auto with heap.
  - destruct (Left nd), (Right nd); unfold panicM; auto with heap.
Qed.
#[local] Hint Resolve keeps_heap_computeNodeHash : heap.

Lemma keeps_heap_verify_path fuel h cur : keeps_heap (verify_path fuel h cur).
Proof.
  revert cur; induction fuel as [|fuel IH]; intros [p|]; simpl; auto with heap.
  apply keeps_heap_bind; [auto with heap|]. intros pn.
  repeat (apply keeps_heap_bind; [auto with heap|]; intros).
  destruct (bytes_Equal _ _); auto with heap.
Qed.
#[local] Hint Resolve keeps_heap_verify_path : heap.

Lemma keeps_heap_verify_scan h x leaves : keeps_heap (verify_scan h x leaves).
Proof.
  induction leaves as [|l rest IH]; simpl; auto with heap.
  apply keeps_heap_bind; [auto with heap|]. intros ln.
  destruct (bytes_Equal _ _); auto.
  intros st o st' H. exact (keeps_heap_verify_path _ _ _ _ _ _ H).
Qed.

Lemma for_range_no_fail i n body b e :
  (forall k c, body k c <> Fail e) -> for_range i n body b <> Fail e.
Proof.
  intros Hb. revert i b. induction n as [|n IH]; intros i b; simpl; [discriminate|].
  specialize (Hb i b). destruct (body i b); simpl; auto; discriminate.
Qed.

Lemma copy_body_no_fail src e k j c :
  (let? v := get_index src k in set_index c j v) <> Fail e.
Proof.
  unfold get_index, set_index. destruct (src !! k); simpl; [case_decide|]; discriminate.
Qed.

Lemma concat_fill_no_fail b s l r e : concat_fill b s l r <> Fail e.
Proof.
  unfold concat_fill. destruct (sort_pair s l r) as [x y].
  pose proof (for_range_no_fail 0 (length x)
    (fun i c => let? v := get_index x i in set_index c i v) b e) as H0.
  destruct (for_range 0 (length x) _ b) as [c| | |] eqn:E; simpl; try discriminate.
  - apply for_range_no_fail. intros k c'. apply copy_body_no_fail.
  - apply H0. intros k c'. apply copy_body_no_fail.
Qed.

Lemma concat_no_fail ru so l r st e st' : concat ru so l r st <> (Fail e, st').
Proof.
  unfold concat, bind, lift, CloseBuffer, ret.
  destruct ru.
  - destruct (GetConcatBuffers_heap st) as (b & st1 & Eg & _). rewrite Eg.
    destruct (concat_fill _ _ _ _) eqn:E; try discriminate;
      intros [= <- _]; eapply concat_fill_no_fail; exact E.
  - destruct (concat_fill _ _ _ _) eqn:E; try discriminate.
    intros [= <- _]; eapply concat_fill_no_fail; exact E.
Qed.

(** [hashConcat] never returns an error: engines never fail a write. *)
Lemma hashConcat_no_fail h l r st e st' : hashConcat h l r st <> (Fail e, st').
Proof.
  unfold hashConcat, bind, lift, tick, ret.
  pose proof (concat_no_fail (if Pool h then true else false) (IsSort h) l r st e) as Hc.
  destruct (Pool h).
  - destruct (concat true _ l r st) as [[]] eqn:E; try discriminate.
    intros [= <- <-]. exact (Hc _ eq_refl).
  - unfold HashFunc. destruct (string_dec _ _); [|discriminate].
    destruct (concat false _ l r st) as [[]] eqn:E; try discriminate.
    intros [= <- <-]. exact (Hc _ eq_refl).
Qed.

Lemma computeNodeHash_fail h n st e st' :
  computeNodeHash h n st = (Fail e, st') ->
  exists p nd d', heap st !! p = Some nd /\ NData nd = Some d' /\ Data_Hash d' h = Fail e.
Proof.
  intros Hc. destruct n as [p|]; [|discriminate Hc].
  unfold computeNodeHash, bind at 1, load at 1 in Hc.
  destruct (heap st !! p) as [nd|] eqn:Ep; [|discriminate].
  destruct (isLeaf nd).
  - destruct (NData nd) as [d'|] eqn:Ed; [|discriminate]. cbn in Hc.
    destruct (Data_Hash d' h) eqn:Eh; inversion Hc; subst; eauto 10.
  - destruct (Left nd) as [l|], (Right nd) as [r|]; try discriminate.
    unfold bind at 1, load at 1 in Hc. destruct (heap st !! l); [|discriminate].
    unfold bind, load in Hc. destruct (heap st !! r); [|discriminate].
    exfalso; eapply hashConcat_no_fail; exact Hc.
Qed.

Lemma map_err_computeNodeHash_fail side h n st e st' :
  map_err (Errorf side) (computeNodeHash h n) st = (Fail e, st') ->
  node_data_fails h (heap st) e.
Proof.
  unfold map_err. destruct (computeNodeHash h n st) as [[a|e0|s0|] st1] eqn:E;
    intros Hm; inversion Hm; subst.
  destruct (computeNodeHash_fail _ _ _ _ _ E) as (p & nd & d' & ? & ? & ?).
  exists side, e0, p, nd, d'. auto.
Qed.

Lemma verify_path_fail fuel h cur st e st' :
  verify_path fuel h cur st = (Fail e, st') -> node_data_fails h (heap st) e.
Proof.
  revert cur st; induction fuel as [|fuel IH]; intros [p|] st Hv; try discriminate Hv.
  cbn [verify_path] in Hv. unfold bind at 1, load at 1 in Hv.
  destruct (heap st !! p) as [pn|]; [|discriminate].
  apply bind_inv in Hv as [(lh & st1 & Hl & Hv)|[(e1 & Hl & [= ->])|[(? & ? & [=])|(? & [=])]]];
    [|eapply map_err_computeNodeHash_fail; exact Hl].
  pose proof (keeps_heap_map_err _ _ (keeps_heap_computeNodeHash _ _) _ _ _ Hl) as E1.
  apply bind_inv in Hv as [(rh & st2 & Hr & Hv)|[(e1 & Hr & [= ->])|[(? & ? & [=])|(? & [=])]]];
    [|rewrite <- E1; eapply map_err_computeNodeHash_fail; exact Hr].
  pose proof (keeps_heap_map_err _ _ (keeps_heap_computeNodeHash _ _) _ _ _ Hr) as E2.
  apply bind_inv in Hv as [(x & st3 & Hx & Hv)|[(e1 & Hx & [= ->])|[(? & ? & [=])|(? & [=])]]];
    [|exfalso; eapply hashConcat_no_fail; exact Hx].
  pose proof (keeps_heap_hashConcat _ _ _ _ _ _ Hx) as E3.
  destruct (bytes_Equal _ _); [|discriminate].
  rewrite <- E1, <- E2, <- E3. eapply IH; exact Hv.
Qed.

Lemma verify_scan_fail h x leaves st e st' :
  verify_scan h x leaves st = (Fail e, st') -> node_data_fails h (heap st) e.
Proof.
  revert st; induction leaves as [|l rest IH]; intros st Hv; [discriminate|].
  cbn [verify_scan] in Hv. unfold bind at 1, load at 1 in Hv.
  destruct (heap st !! l) as [ln|]; [|discriminate].
  destruct (bytes_Equal _ _); [eapply verify_path_fail; exact Hv|eauto].
Qed.

Lemma Verify_fail mt d st e st' :
  Verify mt d st = (Fail e, st') ->
  exists h, CHasher (Config mt) = Some h /\ digest_error h (heap st) d e.
Proof.
  unfold Verify. destruct (Leaves mt) as [|l0 ls] eqn:EL; [discriminate|].
  unfold mt_hasher. destruct (CHasher (Config mt)) as [h|]; [|discriminate].
  intros Hv. exists h; split; [reflexivity|].
  cbv [bind ret tick map_err lift] in Hv.
  destruct (Data_Hash d h) as [x|e0| |] eqn:Ed; try discriminate.
  - right. rewrite <- EL in Hv. apply verify_scan_fail in Hv. exact Hv.
  - left. inversion Hv; subst. eauto.
Qed.

Lemma verify_scan_nomatch h x leaves st :
  Forall (fun l => is_Some (heap st !! l)) leaves ->
  first_match (heap st) x leaves = None ->
  verify_scan h x leaves st = (Ok false, st).
Proof.
  induction 1 as [|l rest [ln Hl] _ IH]; [reflexivity|].
  cbn [first_match verify_scan]. rewrite Hl.
  unfold bind at 1, load at 1. rewrite Hl.
  destruct (bytes_Equal _ _); [discriminate|exact IH].
Qed.

(** C8: [Verify] on a tree without leaves returns [false] and no error; an
    item whose digest matches no leaf gets [false] and no error; and an error
    comes only from a failing digest computation: the item's, or the data's
    of a node of the arena. *)
Theorem Verify_false_unless_digest_fails mt d st :
  (Leaves mt = [] -> Verify mt d st = (Ok false, st)) /\
  (forall h x, CHasher (Config mt) = Some h -> Data_Hash d h = Ok x ->
     Forall (fun l => is_Some (heap st !! l)) (Leaves mt) ->
     first_match (heap st) x (Leaves mt) = None ->
     fst (Verify mt d st) = Ok false) /\
  (forall e st', Verify mt d st = (Fail e, st') ->
     exists h, CHasher (Config mt) = Some h /\ digest_error h (heap st) d e).
Proof.
  split; [apply Verify_no_leaves|split; [|apply Verify_fail]].
  intros h x Hh Hx Hall Hn. unfold Verify.
  destruct (Leaves mt) as [|l0 ls] eqn:EL; [reflexivity|].
  unfold mt_hasher. rewrite Hh. cbv [bind ret tick map_err lift]. rewrite Hx.
  rewrite (verify_scan_nomatch h x (l0 :: ls)); [reflexivity|exact Hall|exact Hn].
Qed.


(** ** Building and verifying: invariants of the arena *)


Lemma comb_ok h l r : hasher_ok h -> exists x, comb h l r = Ok x /\ length x = 32.
Proof.
  unfold comb. intros [Hp|Hs].
  - destruct (Pool h) as [p|]; [|congruence]. eexists; split; [reflexivity|apply crypto_New_length].
  - destruct (Pool h) as [p|].
    + eexists; split; [reflexivity|apply crypto_New_length].
    + unfold HashFunc. rewrite Hs. destruct (string_dec SHA256 SHA256); [|congruence].
      eexists; split; [reflexivity|apply sum_length].
Qed.

Lemma comb_digest_ok h l r : hasher_ok h -> comb h l r = Ok (comb_digest h l r).
Proof.
  intros Hh. destruct (comb_ok h l r Hh) as (x & Hx & _). unfold comb_digest. now rewrite Hx.
Qed.

Lemma comb_digest_length h l r : hasher_ok h -> length (comb_digest h l r) = 32.
Proof.
  intros Hh. destruct (comb_ok h l r Hh) as (x & Hx & Hl). unfold comb_digest. now rewrite Hx.
Qed.

Lemma node_ok_transfer h H H' lo n nd :
  (forall i x, i < n -> H !! i = Some x -> exists y, H' !! i = Some y /\ NHash y = NHash x) ->
  (forall p x, n < p -> H !! p = Some x ->
     exists y, H' !! p = Some y /\ Left y = Left x /\ Right y = Right x) ->
  node_ok h H lo n nd -> node_ok h H' lo n nd.
Proof.
  intros Hc Hp (Hlen & Hsh & Hpar). split; [exact Hlen|split].
  - destruct Hsh as [Hleaf|(l & r & ln & rn & El & Er & Rl & Rr & Ll & Lr & Hcb)];
      [left; exact Hleaf|right].
    destruct (Hc l ln ltac:(lia) Ll) as (ln' & Ll' & Hl').
    destruct (Hc r rn ltac:(lia) Lr) as (rn' & Lr' & Hr').
    exists l, r, ln', rn'. rewrite Hl', Hr'. auto 10.
  - intros p Ep. destruct (Hpar p Ep) as (Hnp & pn & Lp & Hch).
    destruct (Hp p pn Hnp Lp) as (pn' & Lp' & HL & HR).
    split; [exact Hnp|]. exists pn'. rewrite HL, HR. auto.
Qed.

Lemma node_ok_reparent h H lo n nd q :
  node_ok h H lo n nd ->
  (forall p, q = Some p ->
     n < p /\ exists pn, H !! p = Some pn /\ (Left pn = Some n \/ Right pn = Some n)) ->
  node_ok h H lo n (set_Parent q nd).
Proof. intros (Hlen & Hsh & _) Hq. split; [exact Hlen|split; [exact Hsh|exact Hq]]. Qed.

Lemma view_eq x y : view y = view x -> Left y = Left x /\ Right y = Right x /\ NHash y = NHash x.
Proof. unfold view. intros [= -> -> ->]. auto. Qed.

Lemma grows_lookup H H' i x :
  grows H H' -> H !! i = Some x -> exists y, H' !! i = Some y /\ view y = view x.
Proof.
  intros [_ Hg] Hx. pose proof (Hg i (lookup_lt_Some _ _ _ Hx)) as E. rewrite Hx in E.
  destruct (H' !! i) as [y|]; [|discriminate]. exists y; split; [reflexivity|]. simpl in E. congruence.
Qed.

Lemma grows_refl H : grows H H.
Proof. split; auto. Qed.

Lemma grows_trans H1 H2 H3 : grows H1 H2 -> grows H2 H3 -> grows H1 H3.
Proof.
  intros [L12 G12] [L23 G23]. split; [lia|]. intros i Hi.
  rewrite G23 by lia. apply G12, Hi.
Qed.

Lemma grows_app H l : grows H (H ++ l).
Proof.
  split; [rewrite length_app; lia|]. intros i Hi. now rewrite lookup_app_l.
Qed.

Lemma grows_store H a an q :
  H !! a = Some an -> grows H (<[a := set_Parent q an]> H).
Proof.
  intros Ha. split; [now rewrite length_insert|]. intros i Hi.
  destruct (decide (i = a)) as [->|Hne].
  - rewrite list_lookup_insert_eq by (eapply lookup_lt_Some; eauto). now rewrite Ha.
  - now rewrite list_lookup_insert_ne by congruence.
Qed.

Lemma node_ok_grows h H H' lo n nd :
  grows H H' -> node_ok h H lo n nd -> node_ok h H' lo n nd.
Proof.
  intros Hg. apply node_ok_transfer.
  - intros i x _ Hx. destruct (grows_lookup _ _ _ _ Hg Hx) as (y & Hy & Hv).
    apply view_eq in Hv. exists y; intuition.
  - intros p x _ Hx. destruct (grows_lookup _ _ _ _ Hg Hx) as (y & Hy & Hv).
    apply view_eq in Hv. exists y; intuition.
Qed.

Lemma region_ok_app h lo H nd :
  region_ok h lo H -> node_ok h (H ++ [nd]) lo (length H) nd -> region_ok h lo (H ++ [nd]).
Proof.
  intros HR Hnd n x Hlo Hx.
  destruct (decide (n < length H)) as [Hn|Hn].
  - rewrite lookup_app_l in Hx by exact Hn. eapply node_ok_grows; [apply grows_app|].
    exact (HR n x Hlo Hx).
  - rewrite lookup_app_r in Hx by lia.
    destruct (n - length H) as [|k] eqn:E; [|destruct k; discriminate].
    injection Hx as <-. replace n with (length H) by lia. exact Hnd.
Qed.

Lemma region_ok_store h lo H a an p pn :
  region_ok h lo H -> lo <= a -> H !! a = Some an -> a < p -> H !! p = Some pn ->
  (Left pn = Some a \/ Right pn = Some a) ->
  region_ok h lo (<[a := set_Parent (Some p) an]> H).
Proof.
  intros HR Hlo Ha Hap Hp Hch n x Hn Hx.
  pose proof (grows_store H a an (Some p) Ha) as Hg.
  destruct (decide (n = a)) as [->|Hne].
  - rewrite list_lookup_insert_eq in Hx by (eapply lookup_lt_Some; eauto).
    injection Hx as <-. apply node_ok_reparent.
    + eapply node_ok_grows; [exact Hg|]. exact (HR a an Hlo Ha).
    + intros q [= <-]. split; [exact Hap|]. exists pn.
      rewrite list_lookup_insert_ne by lia. auto.
  - rewrite list_lookup_insert_ne in Hx by congruence.
    eapply node_ok_grows; [exact Hg|]. exact (HR n x Hn Hx).
Qed.

Lemma hash_at_grows H H' i : grows H H' -> i < length H -> hash_at H' i = hash_at H i.
Proof.
  intros [_ Hg] Hi. specialize (Hg i Hi). unfold hash_at.
  destruct (H' !! i) as [y|], (H !! i) as [x|]; simpl in Hg; try discriminate; auto.
  injection Hg; auto.
Qed.

Lemma map_hash_at_grows H H' l :
  grows H H' -> Forall (fun i => i < length H) l -> map (hash_at H') l = map (hash_at H) l.
Proof.
  intros Hg. induction 1; simpl; [reflexivity|]. f_equal; [|assumption].
  now apply hash_at_grows.
Qed.

Lemma in_region_grows lo H H' i : grows H H' -> in_region lo H i -> in_region lo H' i.
Proof. intros [Hl _] [? ?]. split; lia. Qed.

Lemma Forall_in_region_grows lo H H' l :
  grows H H' -> Forall (in_region lo H) l -> Forall (in_region lo H') l.
Proof. intros Hg Hl. eapply Forall_impl; [exact Hl|]. intros i. now apply in_region_grows. Qed.

Lemma in_region_lookup lo H i : in_region lo H i -> exists x, H !! i = Some x.
Proof. intros [_ Hi]. now apply lookup_lt_is_Some_2. Qed.

Lemma hash_at_lookup H i x : H !! i = Some x -> hash_at H i = NHash x.
Proof. unfold hash_at. now intros ->. Qed.

Lemma NewParentNode_spec h lo a b st :
  hasher_ok h -> build_ok h lo st -> in_region lo (heap st) a -> in_region lo (heap st) b ->
  exists st', NewParentNode h a b st = (Ok (length (heap st)), st') /\ build_ok h lo st' /\
    heap st' = heap st ++ [{| Parent := None; Left := Some a; Right := Some b;
                              isOrphan := false;
                              NHash := comb_digest h (hash_at (heap st) a) (hash_at (heap st) b);
                              NData := None |}].
Proof.
  intros Hh (HR & Hpool & Hlo) Ha Hb.
  destruct (in_region_lookup _ _ _ Ha) as [an Ea]. destruct (in_region_lookup _ _ _ Hb) as [bn Eb].
  pose proof (HR a an (proj1 Ha) Ea) as [La _]. pose proof (HR b bn (proj1 Hb) Eb) as [Lb _].
  destruct (hashConcat_spec h (NHash an) (NHash bn) st Hpool La Lb) as (st1 & Hc & Hheap & Hpool1).
  unfold NewParentNode, bind at 1, load at 1. rewrite Ea.
  unfold bind at 1, load at 1. rewrite Eb.
  unfold bind at 1. rewrite Hc, (comb_digest_ok h _ _ Hh).
  eexists. split; [unfold alloc; rewrite Hheap; reflexivity|].
  rewrite (hash_at_lookup _ _ _ Ea), (hash_at_lookup _ _ _ Eb). cbn -[comb_digest].
  split; [|reflexivity]. unfold build_ok; cbn [heap buffers].
  split; [|split; [exact Hpool1|rewrite length_app; lia]].
  apply region_ok_app; [exact HR|]. split; [apply comb_digest_length, Hh|split].
  - right. exists a, b, an, bn. cbn -[comb_digest].
    rewrite !lookup_app_l by (apply (proj2 Ha) || apply (proj2 Hb)).
    destruct Ha, Hb. repeat split; auto; try lia. apply comb_digest_ok, Hh.
  - discriminate.
Qed.

Lemma store_Parent_spec h lo a p pn st :
  build_ok h lo st -> lo <= a -> a < p -> heap st !! p = Some pn ->
  (Left pn = Some a \/ Right pn = Some a) ->
  exists st', store_Parent a p st = (Ok tt, st') /\ build_ok h lo st' /\
    grows (heap st) (heap st') /\ length (heap st') = length (heap st) /\
    exists an, heap st' !! a = Some an /\ Parent an = Some p.
Proof.
  intros (HR & Hpool & Hlo) Hla Hap Hp Hch.
  destruct (lookup_lt_is_Some_2 (heap st) a) as [an Ea].
  { pose proof (lookup_lt_Some _ _ _ Hp). lia. }
  unfold store_Parent. rewrite Ea. eexists. split; [reflexivity|]. cbn.
  split; [split; [eapply region_ok_store; eauto|split; [exact Hpool|simpl; rewrite length_insert; exact Hlo]]|].
  split; [apply grows_store, Ea|]. split; [apply length_insert|].
  exists (set_Parent (Some p) an). split; [|reflexivity].
  apply list_lookup_insert_eq. eapply lookup_lt_Some; eauto.
Qed.

Lemma pair_level_spec h lo ns st :
  hasher_ok h -> build_ok h lo st -> Forall (in_region lo (heap st)) ns ->
  exists ps st', pair_level h ns st = (Ok ps, st') /\ build_ok h lo st' /\
    grows (heap st) (heap st') /\ Forall (in_region lo (heap st')) ps /\
    map (hash_at (heap st')) ps = pure_level h (map (hash_at (heap st)) ns) /\
    (forall a b, ns = [a; b] ->
       exists bn, heap st' !! b = Some bn /\ Parent bn = head ps).
Proof.
  intros Hh. remember (length ns) as k eqn:Hk. assert (Hle : length ns <= k) by lia.
  clear Hk. revert ns st Hle. induction k as [k IH] using lt_wf_ind.
  intros [|a [|b rest]] st Hle Hok Hin.
  - exists [], st. split; [reflexivity|]. split; [exact Hok|]. split; [apply grows_refl|]. split; [constructor|]. split; [reflexivity|]. intros ? ? [=].
  - apply Forall_cons in Hin as [Ha _].
    destruct (NewParentNode_spec h lo a a st Hh Hok Ha Ha) as (st1 & Hp & Hok1 & Hh1).
    set (p := length (heap st)) in *.
    assert (Hpl : heap st1 !! p = Some {| Parent := None; Left := Some a; Right := Some a;
                    isOrphan := false;
                    NHash := comb_digest h (hash_at (heap st) a) (hash_at (heap st) a);
                    NData := None |}).
    { rewrite Hh1. apply list_lookup_middle. reflexivity. }
    destruct (store_Parent_spec h lo a p _ st1 Hok1 (proj1 Ha) (proj2 Ha) Hpl (or_introl eq_refl))
      as (st2 & Hs2 & Hok2 & Hg2 & Hl2 & _).
    destruct (grows_lookup _ _ _ _ Hg2 Hpl) as (pn2 & Hpl2 & Hv2). apply view_eq in Hv2 as (HL2 & HR2 & _).
    destruct (store_Parent_spec h lo a p _ st2 Hok2 (proj1 Ha) (proj2 Ha) Hpl2 (or_introl HL2))
      as (st3 & Hs3 & Hok3 & Hg3 & Hl3 & _).
    assert (Hg13 : grows (heap st1) (heap st3)) by (eapply grows_trans; eauto).
    assert (Hg03 : grows (heap st) (heap st3)) by (apply (grows_trans _ (heap st1)); [rewrite Hh1; apply grows_app|exact Hg13]).
    exists [p], st3. split.
    { cbn [pair_level]. unfold map_err, bind at 1. rewrite Hp.
      unfold bind at 1. rewrite Hs2. unfold bind at 1. rewrite Hs3. reflexivity. }
    split; [exact Hok3|]. split; [exact Hg03|]. split.
    { constructor; [|constructor]. split; [apply Hok|]. destruct Hok3 as (_ & _ & _).
      pose proof (lookup_lt_Some _ _ _ Hpl) as Hp1. destruct Hg13 as [Hl13 _]. lia. }
    split; [|intros ? ? [=]]. cbn [map pure_level].
    rewrite (hash_at_grows _ _ p Hg13) by (eapply lookup_lt_Some; eauto).
    now rewrite (hash_at_lookup _ _ _ Hpl).
  - apply Forall_cons in Hin as [Ha Hin]. apply Forall_cons in Hin as [Hb Hrest].
    destruct (NewParentNode_spec h lo a b st Hh Hok Ha Hb) as (st1 & Hp & Hok1 & Hh1).
    set (p := length (heap st)) in *.
    assert (Hpl : heap st1 !! p = Some {| Parent := None; Left := Some a; Right := Some b;
                    isOrphan := false;
                    NHash := comb_digest h (hash_at (heap st) a) (hash_at (heap st) b);
                    NData := None |}).
    { rewrite Hh1. apply list_lookup_middle. reflexivity. }
    destruct (store_Parent_spec h lo a p _ st1 Hok1 (proj1 Ha) (proj2 Ha) Hpl (or_introl eq_refl))
      as (st2 & Hs2 & Hok2 & Hg2 & Hl2 & _).
    destruct (grows_lookup _ _ _ _ Hg2 Hpl) as (pn2 & Hpl2 & Hv2). apply view_eq in Hv2 as (HL2 & HR2 & _).
    destruct (store_Parent_spec h lo b p _ st2 Hok2 (proj1 Hb) (proj2 Hb) Hpl2 (or_intror HR2))
      as (st3 & Hs3 & Hok3 & Hg3 & Hl3 & bn & Hbn & Hpb).
    assert (Hg13 : grows (heap st1) (heap st3)) by (eapply grows_trans; eauto).
    assert (Hg03 : grows (heap st) (heap st3)) by (apply (grows_trans _ (heap st1)); [rewrite Hh1; apply grows_app|exact Hg13]).
    assert (Hrest3 : Forall (in_region lo (heap st3)) rest) by (eapply Forall_in_region_grows; eauto).
    destruct (IH (length rest) ltac:(simpl in Hle; lia) rest st3 ltac:(lia) Hok3 Hrest3)
      as (ps & st4 & Hps & Hok4 & Hg34 & Hin4 & Hmap4 & _).
    assert (Hp3 : p < length (heap st3)).
    { pose proof (lookup_lt_Some _ _ _ Hpl). destruct Hg13 as [Hl13 _]. lia. }
    exists (p :: ps), st4. split.
    { cbn [pair_level]. unfold map_err, bind at 1. rewrite Hp.
      unfold bind at 1. rewrite Hs2. unfold bind at 1. rewrite Hs3.
      unfold bind at 1. rewrite Hps. reflexivity. }
    split; [exact Hok4|]. split; [eapply grows_trans; eauto|]. split.
    { constructor; [|exact Hin4]. split; [pose proof (proj2 (proj2 Hok)); lia|].
      destruct Hg34 as [Hl34 _]. lia. }
    split.
    + cbn [map pure_level]. f_equal.
      * rewrite (hash_at_grows _ _ p (grows_trans _ _ _ Hg13 Hg34))
          by (eapply lookup_lt_Some; eauto).
        now rewrite (hash_at_lookup _ _ _ Hpl).
      * rewrite Hmap4. f_equal. eapply map_hash_at_grows; [exact Hg03|].
        eapply Forall_impl; [exact Hrest|]. intros i [_ Hi]; exact Hi.
    + intros a' b' [= -> -> ->]. cbn [pair_level] in Hps.
      injection Hps as <- <-. exists bn. split; [exact Hbn|exact Hpb].
Qed.

Lemma pure_level_length h hs : length (pure_level h hs) = (length hs + 1) / 2.
Proof.
  remember (length hs) as k eqn:Hk. revert hs Hk.
  induction k as [k IH] using lt_wf_ind. intros [|a [|b rest]] Hk;
    cbn [length pure_level] in *; subst; try reflexivity.
  rewrite (IH (length rest) ltac:(lia) rest eq_refl).
  replace (S (S (length rest)) + 1) with (1 * 2 + (length rest + 1)) by lia.
  rewrite Nat.div_add_l by lia. lia.
Qed.

Lemma generateParentNodes_spec h lo mt fuel ns st :
  hasher_ok h -> CHasher (Config mt) = Some h -> build_ok h lo st ->
  Forall (in_region lo (heap st)) ns -> 2 <= length ns <= fuel ->
  exists r st', generateParentNodes fuel mt ns st = (Ok (Some r), st') /\
    build_ok h lo st' /\ grows (heap st) (heap st') /\ in_region lo (heap st') r /\
    pure_root fuel h (map (hash_at (heap st)) ns) = Some (hash_at (heap st') r).
Proof.
  intros Hh Hc. revert ns st. induction fuel as [|f IH]; intros ns st Hok Hin Hlen; [lia|].
  destruct (pair_level_spec h lo ns st Hh Hok Hin)
    as (ps & st1 & Hps & Hok1 & Hg1 & Hin1 & Hmap1 & Htwo).
  assert (Hlps : length ps = (length ns + 1) / 2).
  { rewrite <- (length_map (hash_at (heap st1)) ps), Hmap1, pure_level_length, length_map.
    reflexivity. }
  destruct ns as [|a ns']; [simpl in Hlen; lia|].
  cbn [generateParentNodes pure_root]. unfold mt_hasher. rewrite Hc.
  unfold bind at 1, ret at 1. unfold bind at 1. rewrite Hps.
  destruct (decide (length (a :: ns') = 2)) as [E2|E2].
  - destruct ns' as [|b [|? ?]]; simpl in E2; try lia.
    destruct (Htwo a b eq_refl) as (bn & Hbn & Hpb).
    destruct ps as [|p ps']; [simpl in Hlps; lia|]. simpl in Hpb.
    rewrite decide_True by reflexivity. cbn [lookup list_lookup].
    unfold bind, load. rewrite Hbn, Hpb. unfold ret.
    exists p, st1. split; [reflexivity|]. split; [exact Hok1|]. split; [exact Hg1|].
    split; [now apply Forall_cons in Hin1 as [? _]|].
    change (head (pure_level h (map (hash_at (heap st)) [a; b])) = Some (hash_at (heap st1) p)).
    rewrite <- Hmap1. reflexivity.
  - assert (Hlen1 : 2 <= length ps <= f).
    { rewrite Hlps. cbn [length] in Hlen, E2 |- *. set (m := length ns') in *.
      replace (S m + 1) with (1 * 2 + m) by lia. rewrite Nat.div_add_l by lia.
      pose proof (Nat.div_mod m 2 ltac:(lia)). pose proof (Nat.mod_upper_bound m 2 ltac:(lia)).
      lia. }
    destruct (IH ps st1 Hok1 Hin1 Hlen1)
      as (r & st2 & Hg & Hok2 & Hg2 & Hr & Hroot).
    exists r, st2. split; [exact Hg|]. split; [exact Hok2|].
    split; [eapply grows_trans; eauto|]. split; [exact Hr|].
    rewrite decide_False by (rewrite length_map; exact E2).
    rewrite <- Hmap1. exact Hroot.
Qed.

Lemma region_ok_leaves h lo H data pad :
  region_ok h lo H -> Forall (digest32 h) data ->
  region_ok h lo (H ++ map (fun d => leaf_node d (digest h d) pad) data).
Proof.
  intros HR Hd. revert H HR. induction Hd as [|d data [x [Hx Hlx]] _ IH]; intros H HR.
  - now rewrite app_nil_r.
  - cbn [map]. replace (H ++ _ :: _) with ((H ++ [leaf_node d (digest h d) pad]) ++
      map (fun d => leaf_node d (digest h d) pad) data) by now rewrite <- app_assoc.
    apply IH, region_ok_app; [exact HR|].
    unfold digest; rewrite Hx. split; [exact Hlx|split].
    + left. repeat split. exists d. split; [reflexivity|exact Hx].
    + discriminate.
Qed.

Lemma newLeaf_run h d x pad st :
  Data_Hash d h = Ok x ->
  newLeaf h d pad st = (Ok (length (heap st)),
    {| heap := heap st ++ [leaf_node d x pad]; buffers := buffers st;
       hash_writes := S (hash_writes st); pool_picks := pool_picks st |}).
Proof. intros Hx. unfold newLeaf, bind, tick. cbn. now rewrite Hx. Qed.

Lemma make_leaves_run h i data st :
  Forall (fun d => exists x, Data_Hash d h = Ok x) data ->
  exists st', make_leaves h i data st = (Ok (seq (length (heap st)) (length data)), st') /\
    heap st' = heap st ++ map (fun d => leaf_node d (digest h d) false) data /\
    buffers st' = buffers st.
Proof.
  intros Hd. revert i st. induction Hd as [|d data [x Hx] _ IH]; intros i st.
  - exists st. rewrite app_nil_r. auto.
  - cbn [make_leaves]. unfold map_err, bind at 1, NewLeaf. rewrite (newLeaf_run h d x false st Hx).
    set (st1 := {| heap := heap st ++ [leaf_node d x false]; buffers := buffers st;
                   hash_writes := S (hash_writes st); pool_picks := pool_picks st |}).
    destruct (IH (S i) st1) as (st' & Hm & Hh & Hb).
    unfold bind at 1. rewrite Hm. exists st'. split.
    + unfold ret. cbn [seq length]. replace (length (heap st1)) with (S (length (heap st))); [reflexivity|]. subst st1; cbn. rewrite length_app; simpl; lia.
    + rewrite Hh. subst st1; cbn. assert (E : digest h d = x) by (unfold digest; now rewrite Hx). rewrite E, <- app_assoc. split; [reflexivity|]. rewrite Hb. reflexivity.
Qed.

Lemma padding_Forall (P : Data -> Prop) data : Forall P data -> Forall P (padding data).
Proof.
  intros Hd. unfold padding. destruct (Nat.odd _); [|constructor].
  destruct (last data) as [d|] eqn:E; [|constructor].
  constructor; [|constructor]. rewrite Forall_forall in Hd. apply Hd.
  eapply last_Some_elem_of; exact E.
Qed.

Lemma generateLeafNodes_run h mt data st :
  CHasher (Config mt) = Some h -> data <> [] ->
  Forall (fun d => exists x, Data_Hash d h = Ok x) data ->
  exists st1,
    heap st1 = heap st ++ map (fun d => leaf_node d (digest h d) false) data ++
               map (fun d => leaf_node d (digest h d) true) (padding data) /\
    buffers st1 = buffers st /\
    generateLeafNodes mt data st =
      (let L0 := seq (length (heap st)) (length data + length (padding data)) in
       if IsSort h then sort_nodes L0 st1 else (Ok L0, st1)).
Proof.
  intros Hc Hne Hd. destruct data as [|d0 data']; [congruence|].
  unfold generateLeafNodes, mt_hasher. rewrite Hc. cbv beta iota.
  remember (d0 :: data') as data eqn:Edata.
  destruct (make_leaves_run h 0 data st Hd) as (st1 & Hm & Hh1 & Hb1).
  unfold bind at 1, ret at 1. unfold bind at 1. rewrite Hm.
  unfold padding. destruct (Nat.odd (length data)).
  - destruct (last data) as [dl|] eqn:El; [|subst data; rewrite last_cons in El;
      destruct (last data'); discriminate].
    assert (Hdl : exists x, Data_Hash dl h = Ok x).
    { rewrite Forall_forall in Hd. apply Hd. eapply last_Some_elem_of; exact El. }
    destruct Hdl as [xl Hxl].
    unfold NewOrphanLeaf. cbv [bind ret]. rewrite (newLeaf_run h dl xl true st1 Hxl).
    cbv beta iota.
    exists {| heap := heap st1 ++ [leaf_node dl xl true]; buffers := buffers st1;
              hash_writes := S (hash_writes st1); pool_picks := pool_picks st1 |}. split; [|split].
    + cbn. rewrite Hh1, <- app_assoc. assert (E : digest h dl = xl) by (unfold digest; now rewrite Hxl). now rewrite E.
    + cbn. exact Hb1.
    + replace (length (heap st1)) with (length (heap st) + length data) by (rewrite Hh1, length_app, length_map; reflexivity). rewrite seq_app. destruct (IsSort h); reflexivity.
  - exists st1. rewrite app_nil_r. split; [rewrite Hh1; reflexivity|]. split; [exact Hb1|].
    cbn. rewrite Nat.add_0_r. destruct (IsSort h); reflexivity.
Qed.

Lemma insert_sorted_perm x l : insert_sorted x l ≡ₚ x :: l.
Proof.
  induction l as [|y l IH]; simpl; [reflexivity|].
  destruct (node_Less x y); [reflexivity|]. rewrite IH. constructor.
Qed.

Lemma insertionSort_perm l : insertionSort l ≡ₚ l.
Proof.
  unfold insertionSort. cut (forall acc, fold_left (fun acc x => insert_sorted x acc) l acc ≡ₚ l ++ acc).
  { intros H. rewrite H, app_nil_r. reflexivity. }
  induction l as [|x l IH]; intros acc; simpl; [reflexivity|].
  rewrite IH, insert_sorted_perm. symmetry. apply Permutation_middle.
Qed.

Lemma insert_sorted_snd x y l m :
  snd x = snd y -> map snd l = map snd m -> map snd (insert_sorted x l) = map snd (insert_sorted y m).
Proof.
  intros Hxy. revert m. induction l as [|a l IH]; intros [|b m] Hlm; simpl in *; try discriminate.
  - now rewrite Hxy.
  - injection Hlm as Hab Hlm. unfold node_Less. rewrite Hxy, Hab.
    destruct (bytes_Compare _ _); simpl; f_equal; auto; congruence.
Qed.

Lemma insertionSort_snd l m : map snd l = map snd m -> map snd (insertionSort l) = map snd (insertionSort m).
Proof.
  unfold insertionSort. generalize (@nil (nat * list byte)) at 1 2 as acc.
  intros acc. cut (forall acc', map snd acc = map snd acc' ->
    map snd l = map snd m ->
    map snd (fold_left (fun acc x => insert_sorted x acc) l acc) =
    map snd (fold_left (fun acc x => insert_sorted x acc) m acc')).
  { intros H Hlm. apply H; [reflexivity|exact Hlm]. }
  revert acc m. induction l as [|x l IH]; intros acc [|y m] acc' Hacc Hlm; simpl in *; try discriminate.
  - exact Hacc.
  - injection Hlm as Hxy Hlm. apply IH; [|exact Hlm]. now apply insert_sorted_snd.
Qed.

Lemma load_hashes_run ns st :
  Forall (fun i => i < length (heap st)) ns ->
  load_hashes ns st = (Ok (map (fun i => (i, hash_at (heap st) i)) ns), st).
Proof.
  induction 1 as [|i ns Hi _ IH]; [reflexivity|].
  destruct (lookup_lt_is_Some_2 _ _ Hi) as [nd Hnd].
  cbn [load_hashes]. unfold bind at 1, load at 1. rewrite Hnd.
  unfold bind at 1. rewrite IH. unfold ret. cbn [map]. now rewrite (hash_at_lookup _ _ _ Hnd).
Qed.

Lemma sort_nodes_run ns st :
  Forall (fun i => i < length (heap st)) ns ->
  sort_nodes ns st = (Ok (map fst (insertionSort (map (fun i => (i, hash_at (heap st) i)) ns))), st).
Proof. intros Hns. unfold sort_nodes, bind at 1. now rewrite load_hashes_run. Qed.

Lemma sorted_hashes H ns :
  map (hash_at H) (map fst (insertionSort (map (fun i => (i, hash_at H i)) ns))) =
  map snd (insertionSort (map (fun x => (0, x)) (map (hash_at H) ns))).
Proof.
  set (L := map (fun i => (i, hash_at H i)) ns).
  assert (HL : Forall (fun e => hash_at H (fst e) = snd e) (insertionSort L)).
  { rewrite (insertionSort_perm L). subst L. rewrite Forall_map. apply Forall_true. reflexivity. }
  rewrite map_map. transitivity (map snd (insertionSort L)).
  - induction HL as [|e l He _ IH]; simpl; [reflexivity|]. now rewrite He, IH.
  - apply insertionSort_snd. subst L. rewrite !map_map. reflexivity.
Qed.

Lemma hash_at_seq H X : map (hash_at (H ++ X)) (seq (length H) (length X)) = map NHash X.
Proof.
  revert H. induction X as [|x X IH]; intros H; [reflexivity|].
  cbn [length seq map]. f_equal.
  - unfold hash_at. now rewrite list_lookup_middle.
  - replace (H ++ x :: X) with ((H ++ [x]) ++ X) by now rewrite <- app_assoc.
    replace (S (length H)) with (length (H ++ [x])) by (rewrite length_app; simpl; lia).
    apply IH.
Qed.

Lemma seq_nodes lo H X (P : Node -> Prop) :
  lo <= length H -> Forall P X ->
  Forall (fun i => lo <= i < length (H ++ X) /\ exists nd, (H ++ X) !! i = Some nd /\ P nd)
    (seq (length H) (length X)).
Proof.
  intros Hlo HX. revert H Hlo. induction HX as [|x X Hx _ IH]; intros H Hlo; [constructor|].
  cbn [length seq]. constructor.
  - rewrite length_app. cbn [length]. split; [lia|]. exists x. now rewrite list_lookup_middle.
  - replace (H ++ x :: X) with ((H ++ [x]) ++ X) by now rewrite <- app_assoc.
    replace (S (length H)) with (length (H ++ [x])) by (rewrite length_app; simpl; lia).
    apply IH. rewrite length_app; lia.
Qed.

Lemma generateLeafNodes_spec h lo mt data st :
  CHasher (Config mt) = Some h -> build_ok h lo st -> data <> [] -> Forall (digest32 h) data ->
  exists leaves st', generateLeafNodes mt data st = (Ok leaves, st') /\ build_ok h lo st' /\
    grows (heap st) (heap st') /\ Forall (leaf_at lo (heap st')) leaves /\
    Forall (in_region lo (heap st')) leaves /\
    map (hash_at (heap st')) leaves = pure_leaves h data.
Proof.
  intros Hc (HR & Hpool & Hlo) Hne Hd.
  assert (Hd' : Forall (fun d => exists x, Data_Hash d h = Ok x) data).
  { eapply Forall_impl; [exact Hd|]. intros d (x & Hx & _). eauto. }
  destruct (generateLeafNodes_run h mt data st Hc Hne Hd') as (st1 & Hh1 & Hb1 & Hg).
  set (X := map (fun d => leaf_node d (digest h d) false) data ++
            map (fun d => leaf_node d (digest h d) true) (padding data)) in *.
  assert (HX : length X = length data + length (padding data)).
  { subst X. now rewrite length_app, !length_map. }
  assert (Hok1 : build_ok h lo st1).
  { split; [|split].
    - rewrite Hh1. subst X. rewrite app_assoc. apply region_ok_leaves; [|apply padding_Forall, Hd].
      apply region_ok_leaves; [exact HR|exact Hd].
    - unfold pool_ok. rewrite Hb1. exact Hpool.
    - rewrite Hh1, length_app. lia. }
  assert (Hgr : grows (heap st) (heap st1)) by (rewrite Hh1; apply grows_app).
  assert (Hseq := seq_nodes lo (heap st) X (fun nd => Left nd = None /\ Right nd = None) Hlo).
  assert (HXl : Forall (fun nd => Left nd = None /\ Right nd = None) X).
  { subst X. apply Forall_app. split; rewrite Forall_map; apply Forall_true; auto. }
  specialize (Hseq HXl). rewrite <- Hh1, HX in Hseq.
  assert (Hleaf : Forall (leaf_at lo (heap st1)) (seq (length (heap st)) (length data + length (padding data)))).
  { eapply Forall_impl; [exact Hseq|]. intros i [[Hi _] (nd & E & L & R)]. split; [exact Hi|eauto]. }
  assert (Hreg : Forall (in_region lo (heap st1)) (seq (length (heap st)) (length data + length (padding data)))).
  { eapply Forall_impl; [exact Hseq|]. intros i [Hi _]. exact Hi. }
  assert (Hmap : map (hash_at (heap st1)) (seq (length (heap st)) (length data + length (padding data))) =
                 map (digest h) (data ++ padding data)).
  { rewrite Hh1, <- HX, hash_at_seq. subst X. rewrite map_app, !map_map, map_app. reflexivity. }
  rewrite Hg. unfold pure_leaves. destruct (IsSort h).
  - rewrite sort_nodes_run.
    2:{ eapply Forall_impl; [exact Hreg|]. intros i [_ Hi]. exact Hi. }
    eexists _, st1. split; [reflexivity|]. split; [exact Hok1|]. split; [exact Hgr|].
    assert (Hperm : map fst (insertionSort (map (fun i => (i, hash_at (heap st1) i))
                      (seq (length (heap st)) (length data + length (padding data)))))
                    ≡ₚ seq (length (heap st)) (length data + length (padding data))).
    { rewrite insertionSort_perm, map_map. simpl. rewrite map_id. reflexivity. }
    split; [rewrite Hperm; exact Hleaf|]. split; [rewrite Hperm; exact Hreg|].
    rewrite sorted_hashes, Hmap. reflexivity.
  - eexists _, st1. split; [reflexivity|]. split; [exact Hok1|]. split; [exact Hgr|].
    split; [exact Hleaf|]. split; [exact Hreg|exact Hmap].
Qed.

Lemma padding_length data : data <> [] -> 2 <= length (data ++ padding data).
Proof.
  intros Hne. rewrite length_app. unfold padding.
  destruct data as [|d0 data']; [congruence|].
  destruct (Nat.odd (length (d0 :: data'))) eqn:E.
  - rewrite last_cons. destruct (last data'); simpl; lia.
  - destruct data'; simpl in *; [discriminate|lia].
Qed.

Lemma pure_leaves_length h data : length (pure_leaves h data) = length (data ++ padding data).
Proof.
  unfold pure_leaves. destruct (IsSort h); rewrite ?length_map; [|reflexivity].
  rewrite (Permutation_length (insertionSort_perm _)), !length_map. reflexivity.
Qed.

Lemma build_ok_start h st : pool_ok st -> build_ok h (length (heap st)) st.
Proof.
  intros Hp. split; [|split; [exact Hp|lia]].
  intros n nd Hn Hnd. apply lookup_lt_Some in Hnd. lia.
Qed.

Lemma Build_spec b c h data st :
  config b = Some c -> CHasher c = Some h -> MaxGoroutine c <> 0%N ->
  hasher_ok h -> data <> [] -> Forall (digest32 h) data -> pool_ok st ->
  exists mt st', Build b data st = (Ok (Some mt, None), st') /\
    CHasher (Config mt) = Some h /\ build_ok h (length (heap st)) st' /\
    grows (heap st) (heap st') /\
    Forall (leaf_at (length (heap st)) (heap st')) (Leaves mt) /\
    map (hash_at (heap st')) (Leaves mt) = pure_leaves h data /\
    exists r, Root mt = Some r /\ in_region (length (heap st)) (heap st') r /\
      pure_build_root h data = Some (hash_at (heap st') r).
Proof.
  intros Hb Hch Hn Hh Hne Hd Hp.
  set (mt := {| Root := None; Leaves := []; Config := c |}).
  set (lo := length (heap st)).
  destruct (generateLeafNodes_spec h lo mt data st Hch (build_ok_start h st Hp) Hne Hd)
    as (leaves & st1 & Hgl & Hok1 & Hg1 & Hleaf1 & Hreg1 & Hmap1).
  assert (Hlen : length leaves = length (pure_leaves h data)).
  { rewrite <- Hmap1, length_map. reflexivity. }
  pose proof (padding_length data Hne) as H2. rewrite <- (pure_leaves_length h) in H2.
  destruct (generateParentNodes_spec h lo mt (length leaves) leaves st1 Hh Hch Hok1 Hreg1
              ltac:(lia)) as (r & st2 & Hgp & Hok2 & Hg2 & Hr & Hroot).
  exists {| Root := Some r; Leaves := leaves; Config := c |}, st2. split.
  { unfold Build. rewrite Hb, Hch, decide_False by exact Hn.
    destruct data as [|d0 data']; [congruence|]. fold mt.
    rewrite Hgl, Hgp. reflexivity. }
  split; [exact Hch|]. split; [exact Hok2|]. split; [exact (grows_trans _ _ _ Hg1 Hg2)|].
  split; [|split].
  - cbn [Leaves]. eapply Forall_impl; [exact Hleaf1|].
    intros i [Hi (nd & E & L & R)]. split; [exact Hi|].
    destruct (grows_lookup _ _ _ _ Hg2 E) as (nd' & E' & Hv). apply view_eq in Hv as (L' & R' & _).
    exists nd'. rewrite L', R'. auto.
  - cbn [Leaves]. rewrite <- Hmap1. apply map_hash_at_grows; [exact Hg2|].
    eapply Forall_impl; [exact Hreg1|]. intros i [_ Hi]. exact Hi.
  - exists r. split; [reflexivity|]. split; [exact Hr|].
    unfold pure_build_root. rewrite <- Hlen, <- Hmap1. exact Hroot.
Qed.

Section Verification.
Variable h : Hasher.
Variable lo T : nat.
Hypothesis Hh : hasher_ok h.

Lemma computeNodeHash_ok st c cn :
  (forall n nd, lo <= n < T -> heap st !! n = Some nd -> node_ok h (heap st) lo n nd) ->
  pool_ok st -> lo <= c < T -> heap st !! c = Some cn ->
  exists st', computeNodeHash h (Some c) st = (Ok (NHash cn), st') /\
    heap st' = heap st /\ pool_ok st'.
Proof.
  intros HR Hp Hc Ec. pose proof (HR c cn Hc Ec) as (_ & Hsh & _).
  unfold computeNodeHash, bind at 1, load at 1. rewrite Ec.
  destruct Hsh as [(L & R & d & Ed & Hd)|(l & r & ln & rn & L & R & Hl & Hr & El & Er & Hcb)].
  - unfold isLeaf. rewrite L, R, Ed. cbv [bind tick lift]. rewrite Hd.
    eexists. split; [reflexivity|]. split; [reflexivity|exact Hp].
  - unfold isLeaf. rewrite L, R. unfold bind at 1, load at 1. rewrite El.
    unfold bind at 1, load at 1. rewrite Er.
    pose proof (HR l ln ltac:(lia) El) as [Hll _]. pose proof (HR r rn ltac:(lia) Er) as [Hrl _].
    destruct (hashConcat_spec h _ _ st Hp Hll Hrl) as (st' & Hc' & Hh' & Hp').
    rewrite Hcb in Hc'. eauto.
Qed.

Lemma verify_path_body st p pn fuel :
  (forall n nd, lo <= n < T -> heap st !! n = Some nd -> node_ok h (heap st) lo n nd) ->
  pool_ok st -> heap st !! p = Some pn ->
  forall l r ln rn, Left pn = Some l -> Right pn = Some r -> lo <= l < T -> lo <= r < T ->
  heap st !! l = Some ln -> heap st !! r = Some rn ->
  exists st', heap st' = heap st /\ pool_ok st' /\
    verify_path (S fuel) h (Some p) st =
      (if bytes_Equal (comb_digest h (NHash ln) (NHash rn)) (NHash pn)
       then verify_path fuel h (Parent pn) st' else (Ok false, st')).
Proof.
  intros HR Hp Ep l r ln rn L R Hl Hr El Er.
  destruct (computeNodeHash_ok st l ln HR Hp Hl El) as (st1 & C1 & H1 & P1).
  pose proof (HR l ln ltac:(lia) El) as [Hll _]. pose proof (HR r rn ltac:(lia) Er) as [Hrl _].
  rewrite <- H1 in HR, Er.
  destruct (computeNodeHash_ok st1 r rn HR P1 Hr Er) as (st2 & C2 & H2 & P2).
  destruct (hashConcat_spec h _ _ st2 P2 Hll Hrl) as (st3 & C3 & H3 & P3).
  exists st3. split; [congruence|]. split; [exact P3|].
  cbn [verify_path]. unfold bind at 1, load at 1. rewrite Ep.
  unfold bind at 1, map_err at 1. rewrite L, C1.
  unfold bind at 1, map_err at 1. rewrite R, C2.
  unfold bind at 1. rewrite C3, (comb_digest_ok h _ _ Hh). destruct (bytes_Equal _ _); reflexivity.
Qed.
End Verification.

Lemma node_ok_inner h H lo p pn :
  node_ok h H lo p pn -> (Left pn <> None \/ Right pn <> None) ->
  exists l r ln rn, Left pn = Some l /\ Right pn = Some r /\ lo <= l < p /\ lo <= r < p /\
    H !! l = Some ln /\ H !! r = Some rn /\ comb h (NHash ln) (NHash rn) = Ok (NHash pn).
Proof.
  intros (_ & [(L & R & _)|Hin] & _) Hne; [rewrite L, R in Hne; tauto|exact Hin].
Qed.

Lemma comb_digest_of h l r x : comb h l r = Ok x -> comb_digest h l r = x.
Proof. unfold comb_digest. now intros ->. Qed.

Lemma verify_path_ok h lo H :
  hasher_ok h -> region_ok h lo H ->
  forall fuel q st, heap st = H -> pool_ok st ->
  (forall p, q = Some p -> lo <= p /\ length H <= p + fuel /\
     exists pn, H !! p = Some pn /\ (Left pn <> None \/ Right pn <> None)) ->
  exists st', verify_path fuel h q st = (Ok true, st').
Proof.
  intros Hh HR fuel. induction fuel as [|fuel IH]; intros [p|] st Hst Hp Hq;
    try (exists st; reflexivity).
  - destruct (Hq p eq_refl) as (_ & Hf & pn & Ep & _). apply lookup_lt_Some in Ep. lia.
  - destruct (Hq p eq_refl) as (Hlo & Hf & pn & Ep & Hin).
    pose proof (HR p pn Hlo Ep) as Hnd.
    destruct (node_ok_inner h H lo p pn Hnd Hin) as (l & r & ln & rn & L & R & Hl & Hr & El & Er & Hc).
    pose proof (lookup_lt_Some _ _ _ Ep) as Hpl.
    subst H.
    destruct (verify_path_body h lo (length (heap st)) Hh st p pn fuel
                ltac:(intros n nd [Hn _] E; exact (HR n nd Hn E)) Hp Ep l r ln rn L R
                ltac:(lia) ltac:(lia) El Er) as (st' & Hst' & Hp' & Hv).
    rewrite Hv, (comb_digest_of _ _ _ _ Hc), bytes_Equal_refl.
    apply IH; [exact Hst'|exact Hp'|].
    intros q Eq. destruct Hnd as (_ & _ & Hpar). destruct (Hpar q Eq) as (Hpq & qn & Eqn & Hch).
    split; [lia|]. split; [lia|]. exists qn. split; [exact Eqn|].
    destruct Hch as [Hch|Hch]; rewrite Hch; [left|right]; discriminate.
Qed.

Lemma verify_scan_first h H x leaves f fn st :
  heap st = H -> first_match H x leaves = Some f -> H !! f = Some fn ->
  verify_scan h x leaves st = verify_path (length H) h (Parent fn) st.
Proof.
  intros Hst. induction leaves as [|l rest IH]; intros Hf Efn; [discriminate|].
  cbn [first_match] in Hf. cbn [verify_scan]. unfold bind at 1, load at 1. rewrite Hst.
  destruct (H !! l) as [ln|] eqn:El; [|discriminate].
  destruct (bytes_Equal (NHash ln) x).
  - injection Hf as <-. rewrite El in Efn. injection Efn as <-. now rewrite Hst.
  - now apply IH.
Qed.

Lemma first_match_exists H x leaves :
  Forall (fun l => is_Some (H !! l)) leaves -> x ∈ map (hash_at H) leaves ->
  exists f, first_match H x leaves = Some f /\ f ∈ leaves.
Proof.
  induction 1 as [|l rest [ln El] _ IH]; intros Hx; [inversion Hx|].
  cbn [first_match]. rewrite El. cbn [map] in Hx.
  destruct (bytes_Equal (NHash ln) x) eqn:Eq.
  - exists l. split; [reflexivity|left].
  - apply elem_of_cons in Hx as [Hx|Hx].
    + rewrite (hash_at_lookup _ _ _ El) in Hx. subst x. now rewrite bytes_Equal_refl in Eq.
    + destruct (IH Hx) as (f & Hf & Hin). exists f. split; [exact Hf|now right].
Qed.

Lemma digest_in_pure_leaves h data d : d ∈ data -> digest h d ∈ pure_leaves h data.
Proof.
  intros Hd. assert (Hin : digest h d ∈ map (digest h) (data ++ padding data)).
  { apply (list_elem_of_fmap_2 (digest h)). apply elem_of_app. now left. }
  unfold pure_leaves. destruct (IsSort h); [|exact Hin].
  rewrite (insertionSort_perm _), map_map. simpl. rewrite map_id. exact Hin.
Qed.

(** C1 (amended). For a builder whose configuration names a hasher [h]
    that can run (a pool of engines, or the identifier ["sha256"]), with a
    non-zero concurrency limit, and for a non-empty item list whose every
    item hashes to a 32-byte digest under [h], [Build] returns a tree and no
    error, and [Verify] on that tree with any of the original items returns
    [true] without error, as long as the node arena is the one [Build] left.
    The configuration is [race_free]: no buffer pool, or one goroutine at a
    time. With a pool and more goroutines, [Build_race_Verify_false] shows
    a schedule whose tree fails [Verify]. *)
Theorem Build_Verify_roundtrip b c h data st :
  config b = Some c -> CHasher c = Some h -> MaxGoroutine c <> 0%N -> hasher_ok h -> race_free c h ->
  data <> [] -> Forall (digest32 h) data -> pool_ok st ->
  exists mt st', Build b data st = (Ok (Some mt, None), st') /\
    forall d st'', In d data -> heap st'' = heap st' -> pool_ok st'' ->
      fst (Verify mt d st'') = Ok true.
Proof.
  intros Hb Hc Hn Hh _ Hne Hd Hp.
  destruct (Build_spec b c h data st Hb Hc Hn Hh Hne Hd Hp)
    as (mt & st' & HB & Hch & (HR & _ & _) & _ & Hleaf & Hmap & _).
  exists mt, st'. split; [exact HB|]. intros d st'' Hin Hst Hp''.
  assert (Hdx : digest32 h d) by (rewrite Forall_forall in Hd; apply Hd, list_elem_of_In, Hin).
  destruct Hdx as (x & Hx & _).
  assert (Hxin : x ∈ map (hash_at (heap st')) (Leaves mt)).
  { rewrite Hmap. replace x with (digest h d) by (unfold digest; now rewrite Hx).
    apply digest_in_pure_leaves, list_elem_of_In, Hin. }
  destruct (first_match_exists (heap st') x (Leaves mt)) as (f & Hf & Hfin); [|exact Hxin|].
  { eapply Forall_impl; [exact Hleaf|]. intros i (_ & nd & E & _). now exists nd. }
  rewrite Forall_forall in Hleaf. destruct (Hleaf f Hfin) as (Hflo & fn & Efn & _).
  set (st3 := {| heap := heap st''; buffers := buffers st''; hash_writes := S (hash_writes st'');
                 pool_picks := pool_picks st'' |}).
  assert (Hs : verify_scan h x (Leaves mt) st3 = verify_path (length (heap st')) h (Parent fn) st3).
  { apply (verify_scan_first h (heap st') x (Leaves mt) f fn); [subst st3; exact Hst|exact Hf|exact Efn]. }
  destruct (verify_path_ok h _ (heap st') Hh HR (length (heap st')) (Parent fn) st3 Hst Hp'')
    as (st4 & Hv).
  { intros p Ep. pose proof (HR f fn Hflo Efn) as (_ & _ & Hpar).
    destruct (Hpar p Ep) as (Hfp & pn & Epn & Hch').
    split; [lia|]. split; [lia|]. exists pn. split; [exact Epn|].
    destruct Hch' as [E|E]; rewrite E; [left|right]; discriminate. }
  unfold Verify. destruct (Leaves mt) as [|l0 ls] eqn:EL; [inversion Hfin|].
  unfold mt_hasher. rewrite Hch. cbv [bind ret tick map_err lift]. rewrite Hx.
  fold st3. rewrite Hs, Hv. reflexivity.
Qed.

Lemma Build_root_pure b c h data st :
  config b = Some c -> CHasher c = Some h -> MaxGoroutine c <> 0%N ->
  hasher_ok h -> data <> [] -> Forall (digest32 h) data -> pool_ok st ->
  root_digest (Build b data st) = Ok (pure_build_root h data, None).
Proof.
  intros Hb Hc Hn Hh Hne Hd Hp.
  destruct (Build_spec b c h data st Hb Hc Hn Hh Hne Hd Hp)
    as (mt & st' & HB & _ & _ & _ & _ & _ & r & Hr & Hreg & Hroot).
  rewrite HB, Hroot. cbn [root_digest]. rewrite Hr.
  destruct (in_region_lookup _ _ _ Hreg) as [rn Ern]. rewrite Ern, (hash_at_lookup _ _ _ Ern).
  reflexivity.
Qed.

(** In a [race_free] configuration, two runs of [Build] with the same
    builder and the same items, starting from any two states whose buffer
    pools are well formed, give the same root digest (or the same outcome
    when the build does not produce a tree), for a hasher that can run and
    items hashing to 32-byte digests. *)
Theorem Build_deterministic_root b data st1 st2 :
  (forall c h, config b = Some c -> CHasher c = Some h -> hasher_ok h /\ race_free c h /\ Forall (digest32 h) data) ->
  pool_ok st1 -> pool_ok st2 ->
  root_digest (Build b data st1) = root_digest (Build b data st2).
Proof.
  intros Hcfg Hp1 Hp2.
  destruct (config b) as [c|] eqn:Hb; [|unfold Build; rewrite Hb; reflexivity].
  destruct (CHasher c) as [h|] eqn:Hc; [|unfold Build; rewrite Hb, Hc; reflexivity].
  destruct (Hcfg c h eq_refl Hc) as (Hh & _ & Hd).
  destruct (decide (MaxGoroutine c = 0%N)) as [Hn|Hn].
  { unfold Build. rewrite Hb, Hc, decide_True by exact Hn. reflexivity. }
  destruct data as [|d0 data'].
  { unfold Build. rewrite Hb, Hc, decide_False by exact Hn. reflexivity. }
  rewrite (Build_root_pure b c h (d0 :: data') st1 Hb Hc Hn Hh ltac:(discriminate) Hd Hp1).
  rewrite (Build_root_pure b c h (d0 :: data') st2 Hb Hc Hn Hh ltac:(discriminate) Hd Hp2).
  reflexivity.
Qed.

Lemma under_lt h lo H n t :
  region_ok h lo H -> under H n t -> lo <= n -> n < t /\ exists tn, H !! t = Some tn.
Proof.
  intros HR. induction 1 as [n nd p En Ep|n nd p t En Ep _ IH]; intros Hlo.
  - destruct (HR n nd Hlo En) as (_ & _ & Hpar). destruct (Hpar p Ep) as (? & pn & ? & _). eauto.
  - destruct (HR n nd Hlo En) as (_ & _ & Hpar). destruct (Hpar p Ep) as (? & _).
    destruct (IH ltac:(lia)) as (? & ?). split; [lia|auto].
Qed.

Lemma tamper_lookup_ne (H : list Node) (T : nat) tn x (i : nat) :
  H !! T = Some tn -> i <> T -> (<[T := set_NHash x tn]> H) !! i = H !! i.
Proof. intros _ Hi. apply list_lookup_insert_ne. congruence. Qed.

Lemma tamper_lookup_eq (H : list Node) (T : nat) tn x :
  H !! T = Some tn -> (<[T := set_NHash x tn]> H) !! T = Some (set_NHash x tn).
Proof. intros E. apply list_lookup_insert_eq. eapply lookup_lt_Some; eauto. Qed.

Lemma tamper_below h lo H T tn x :
  region_ok h lo H -> H !! T = Some tn ->
  forall n nd, lo <= n < T -> (<[T := set_NHash x tn]> H) !! n = Some nd ->
    node_ok h (<[T := set_NHash x tn]> H) lo n nd.
Proof.
  intros HR ET n nd Hn End. rewrite tamper_lookup_ne in End by (exact ET || lia).
  apply (node_ok_transfer h H); [| |exact (HR n nd (proj1 Hn) End)].
  - intros i y Hi Ei. exists y. rewrite tamper_lookup_ne by (exact ET || lia). auto.
  - intros p y Hp Ep. destruct (decide (p = T)) as [->|Hne].
    + rewrite ET in Ep. injection Ep as <-. exists (set_NHash x tn).
      rewrite tamper_lookup_eq by exact ET. auto.
    + exists y. rewrite tamper_lookup_ne by (exact ET || exact Hne). auto.
Qed.

Lemma verify_path_tampered h lo H T tn x :
  hasher_ok h -> region_ok h lo H -> H !! T = Some tn -> NHash tn <> x ->
  forall n, under H n T -> forall nd, H !! n = Some nd -> lo <= n ->
  forall fuel st, heap st = <[T := set_NHash x tn]> H -> pool_ok st -> length H <= n + fuel ->
  exists st', verify_path fuel h (Parent nd) st = (Ok false, st').
Proof.
  intros Hh HR ET Hx n Hu. induction Hu as [n nd0 p En Ep|n nd0 p t En Ep Hu IH];
    intros nd End Hlo fuel st Hst Hp Hf; rewrite End in En; injection En as <-.
  - (* the parent is [T] itself *)
    destruct (HR n nd Hlo End) as (_ & _ & Hpar). destruct (Hpar p Ep) as (Hnp & pn & Epn & Hch).
    rename p into T. rewrite ET in Epn. injection Epn as <-.
    destruct fuel as [|fuel]; [apply lookup_lt_Some in ET; lia|].
    destruct (node_ok_inner h H lo T tn (HR T tn ltac:(lia) ET)
                ltac:(destruct Hch as [E|E]; rewrite E; [left|right]; discriminate))
      as (l & r & ln & rn & L & R & Hl & Hr & El & Er & Hc).
    rewrite Ep.
    destruct (verify_path_body h lo T Hh st T (set_NHash x tn) fuel
                ltac:(rewrite Hst; apply (tamper_below h lo H T tn x HR ET)) Hp
                ltac:(rewrite Hst; apply tamper_lookup_eq, ET) l r ln rn L R Hl Hr
                ltac:(rewrite Hst, tamper_lookup_ne by (exact ET || lia); exact El)
                ltac:(rewrite Hst, tamper_lookup_ne by (exact ET || lia); exact Er))
      as (st' & _ & _ & Hv).
    rewrite Hv, (comb_digest_of _ _ _ _ Hc). cbn [NHash set_NHash].
    destruct (bytes_Equal (NHash tn) x) eqn:Eq; [apply bytes_Equal_eq in Eq; contradiction|].
    eauto.
  - (* a parent strictly below [T] checks out, and the walk goes on *)
    destruct (HR n nd Hlo End) as (_ & _ & Hpar). destruct (Hpar p Ep) as (Hnp & pn & Epn & Hch).
    destruct (under_lt h lo H p t HR Hu ltac:(lia)) as [HpT _].
    destruct fuel as [|fuel]; [apply lookup_lt_Some in Epn; lia|].
    destruct (node_ok_inner h H lo p pn (HR p pn ltac:(lia) Epn)
                ltac:(destruct Hch as [E|E]; rewrite E; [left|right]; discriminate))
      as (l & r & ln & rn & L & R & Hl & Hr & El & Er & Hc).
    rewrite Ep.
    destruct (verify_path_body h lo t Hh st p pn fuel
                ltac:(rewrite Hst; apply (tamper_below h lo H t tn x HR ET)) Hp
                ltac:(rewrite Hst, tamper_lookup_ne by (exact ET || lia); exact Epn)
                l r ln rn L R ltac:(lia) ltac:(lia)
                ltac:(rewrite Hst, tamper_lookup_ne by (exact ET || lia); exact El)
                ltac:(rewrite Hst, tamper_lookup_ne by (exact ET || lia); exact Er))
      as (st' & Hst' & Hp' & Hv).
    rewrite Hv, (comb_digest_of _ _ _ _ Hc), bytes_Equal_refl.
    apply (IH ET pn Epn ltac:(lia) fuel st'); [congruence|exact Hp'|lia].
Qed.

Lemma under_inner h lo H n t :
  region_ok h lo H -> under H n t -> lo <= n ->
  exists tn, H !! t = Some tn /\ (Left tn <> None \/ Right tn <> None).
Proof.
  intros HR. induction 1 as [n nd p En Ep|n nd p t En Ep _ IH]; intros Hlo.
  - destruct (HR n nd Hlo En) as (_ & _ & Hpar). destruct (Hpar p Ep) as (_ & pn & Epn & Hch).
    exists pn. split; [exact Epn|]. destruct Hch as [E|E]; rewrite E; [left|right]; discriminate.
  - destruct (HR n nd Hlo En) as (_ & _ & Hpar). destruct (Hpar p Ep) as (? & _).
    apply IH. lia.
Qed.

Lemma first_match_tamper H T tn x y leaves :
  Forall (fun l => exists nd, H !! l = Some nd /\ Left nd = None /\ Right nd = None) leaves ->
  H !! T = Some tn -> (Left tn <> None \/ Right tn <> None) ->
  first_match (<[T := set_NHash x tn]> H) y leaves = first_match H y leaves.
Proof.
  intros Hl ET Hin. induction Hl as [|l rest (nd & El & L & R) _ IH]; [reflexivity|].
  cbn [first_match]. rewrite tamper_lookup_ne by (exact ET || (intros ->; rewrite ET in El;
    injection El as <-; rewrite L, R in Hin; tauto)).
  rewrite El, IH. reflexivity.
Qed.

(** C4 (amended). For a tree built as in C1, let [f] be the FIRST leaf
    whose digest equals the query item's digest, and let [T] be any node on
    the parent chain above [f] (the root included). Overwriting the stored
    digest of [T] with a different value makes [Verify] on that item return
    [false] without error. As in C1 the configuration is [race_free]. *)
Theorem Verify_detects_tamper b c h data st :
  config b = Some c -> CHasher c = Some h -> MaxGoroutine c <> 0%N -> hasher_ok h -> race_free c h ->
  data <> [] -> Forall (digest32 h) data -> pool_ok st ->
  exists mt st', Build b data st = (Ok (Some mt, None), st') /\
    forall d y f T x st'', Data_Hash d h = Ok y ->
      first_match (heap st') y (Leaves mt) = Some f -> under (heap st') f T ->
      hash_at (heap st') T <> x ->
      heap st'' = heap (tamper T x st') -> pool_ok st'' ->
      fst (Verify mt d st'') = Ok false.
Proof.
  intros Hb Hc Hn Hh _ Hne Hd Hp.
  destruct (Build_spec b c h data st Hb Hc Hn Hh Hne Hd Hp)
    as (mt & st' & HB & Hch & (HR & _ & _) & _ & Hleaf & _ & _).
  exists mt, st'. split; [exact HB|].
  intros d y f T x st'' Hy Hf Hu Hx Hst Hp''.
  assert (Hfin : f ∈ Leaves mt).
  { clear -Hf. induction (Leaves mt) as [|l rest IH]; [discriminate|].
    cbn [first_match] in Hf. destruct (heap st' !! l); [|discriminate].
    destruct (bytes_Equal _ _); [injection Hf as ->; left|right; auto]. }
  pose proof Hleaf as Hleaf'. rewrite Forall_forall in Hleaf'.
  destruct (Hleaf' f Hfin) as (Hflo & fn & Efn & _).
  destruct (under_inner h _ (heap st') f T HR Hu Hflo) as (tn & ET & Hin).
  destruct (under_lt h _ (heap st') f T HR Hu Hflo) as [HfT _].
  rewrite (hash_at_lookup _ _ _ ET) in Hx.
  unfold tamper in Hst. cbn [heap] in Hst. rewrite ET in Hst.
  set (H' := <[T := set_NHash x tn]> (heap st')) in *.
  assert (Hf' : first_match H' y (Leaves mt) = Some f).
  { subst H'. rewrite first_match_tamper; [exact Hf| |exact ET|exact Hin].
    eapply Forall_impl; [exact Hleaf|]. intros i (_ & nd & ?). eauto. }
  assert (Efn' : H' !! f = Some fn) by (subst H'; rewrite tamper_lookup_ne by (exact ET || lia); exact Efn).
  set (st3 := {| heap := heap st''; buffers := buffers st''; hash_writes := S (hash_writes st'');
                 pool_picks := pool_picks st'' |}).
  assert (Hs : verify_scan h y (Leaves mt) st3 = verify_path (length H') h (Parent fn) st3).
  { apply (verify_scan_first h H' y (Leaves mt) f fn); [subst st3; exact Hst|exact Hf'|exact Efn']. }
  destruct (verify_path_tampered h _ (heap st') T tn x Hh HR ET Hx f Hu fn Efn Hflo
              (length H') st3 Hst Hp'' ltac:(subst H'; rewrite length_insert; lia)) as (st4 & Hv).
  unfold Verify. destruct (Leaves mt) as [|l0 ls] eqn:EL; [inversion Hfin|].
  unfold mt_hasher. rewrite Hch. cbv [bind ret tick map_err lift]. rewrite Hy.
  fold st3. rewrite Hs, Hv. reflexivity.
Qed.

Lemma bind_Ok_inv {A B} (m : M A) (k : A -> M B) st v st' :
  bind m k st = (Ok v, st') -> exists a st1, m st = (Ok a, st1) /\ k a st1 = (Ok v, st').
Proof.
  intros Hb. apply bind_inv in Hb as [Hb|[(e & _ & [=])|[(s & _ & [=])|(_ & [=])]]]. exact Hb.
Qed.

Lemma map_err_Ok_inv {A} f (m : M A) st v st' :
  map_err f m st = (Ok v, st') -> m st = (Ok v, st').
Proof. unfold map_err. destruct (m st) as [[]]; congruence. Qed.

Lemma NewParentNode_inv h a b st p st' :
  NewParentNode h a b st = (Ok p, st') ->
  p = length (heap st) /\ exists x, heap st' = heap st ++
    [{| Parent := None; Left := Some a; Right := Some b; isOrphan := false; NHash := x;
        NData := None |}].
Proof.
  unfold NewParentNode. intros H1.
  apply bind_Ok_inv in H1 as (an & st1 & L1 & H1). unfold load in L1.
  destruct (heap st !! a); [injection L1 as _ <-|discriminate].
  apply bind_Ok_inv in H1 as (bn & st2 & L2 & H2). unfold load in L2.
  destruct (heap st !! b); [injection L2 as _ <-|discriminate].
  apply bind_Ok_inv in H2 as (x & st3 & L3 & H3).
  pose proof (keeps_heap_hashConcat _ _ _ _ _ _ L3) as E3.
  unfold alloc in H3. injection H3 as <- <-. rewrite E3. cbn. eauto.
Qed.

Lemma store_Parent_inv a p st u st' :
  store_Parent a p st = (Ok u, st') ->
  grows (heap st) (heap st') /\ length (heap st') = length (heap st).
Proof.
  unfold store_Parent. destruct (heap st !! a) as [an|] eqn:Ea; [|discriminate].
  intros [= _ <-]. cbn. split; [apply grows_store, Ea|apply length_insert].
Qed.

Lemma pair_level_inv h ns st ps st' :
  pair_level h ns st = (Ok ps, st') ->
  grows (heap st) (heap st') /\ length (heap st') = length (heap st) + length ps /\
  length ps = (length ns + 1) / 2 /\
  (Nat.odd (length ns) = true ->
   exists p pn a, last ps = Some p /\ last ns = Some a /\ heap st' !! p = Some pn /\
     Left pn = Some a /\ Right pn = Some a).
Proof.
  revert ns st ps st'. fix IH 1.
  intros [|a [|b rest]] st ps st' Hpl.
  - injection Hpl as <- <-. split; [apply grows_refl|]. split; [simpl; lia|].
    split; [reflexivity|]. discriminate.
  - cbn [pair_level] in Hpl.
    apply bind_Ok_inv in Hpl as (p & st1 & N1 & Hpl). apply map_err_Ok_inv in N1.
    destruct (NewParentNode_inv h a a st p st1 N1) as (-> & x & Hh1).
    apply bind_Ok_inv in Hpl as (u & st2 & S2 & Hpl). destruct (store_Parent_inv _ _ _ _ _ S2) as [G2 L2].
    apply bind_Ok_inv in Hpl as (u' & st3 & S3 & Hpl). destruct (store_Parent_inv _ _ _ _ _ S3) as [G3 L3].
    injection Hpl as <- <-.
    assert (G13 := grows_trans _ _ _ G2 G3).
    assert (Hl1 : length (heap st1) = S (length (heap st))) by (rewrite Hh1, length_app; simpl; lia).
    split; [apply (grows_trans _ (heap st1)); [rewrite Hh1; apply grows_app|exact G13]|].
    split; [simpl; lia|]. split; [reflexivity|]. intros _.
    assert (E1 : heap st1 !! length (heap st) = Some {| Parent := None; Left := Some a;
              Right := Some a; isOrphan := false; NHash := x; NData := None |})
      by (rewrite Hh1; apply list_lookup_middle; reflexivity).
    destruct (grows_lookup _ _ _ _ G13 E1) as (pn & E3 & Hv). apply view_eq in Hv as (L & R & _).
    exists (length (heap st)), pn, a. auto.
  - cbn [pair_level] in Hpl.
    apply bind_Ok_inv in Hpl as (p & st1 & N1 & Hpl). apply map_err_Ok_inv in N1.
    destruct (NewParentNode_inv h a b st p st1 N1) as (-> & x & Hh1).
    apply bind_Ok_inv in Hpl as (u & st2 & S2 & Hpl). destruct (store_Parent_inv _ _ _ _ _ S2) as [G2 L2].
    apply bind_Ok_inv in Hpl as (u' & st3 & S3 & Hpl). destruct (store_Parent_inv _ _ _ _ _ S3) as [G3 L3].
    apply bind_Ok_inv in Hpl as (ps' & st4 & P4 & Hpl). injection Hpl as <- <-.
    destruct (IH rest st3 ps' st4 P4)
      as (G4 & L4 & Hlen & Hodd).
    assert (Hl1 : length (heap st1) = S (length (heap st))) by (rewrite Hh1, length_app; simpl; lia).
    split; [apply (grows_trans _ (heap st1)); [rewrite Hh1; apply grows_app|]|].
    { exact (grows_trans _ _ _ (grows_trans _ _ _ G2 G3) G4). }
    split; [simpl; lia|]. split.
    { cbn [length]. rewrite Hlen. replace (S (S (length rest)) + 1) with (1 * 2 + (length rest + 1)) by lia.
      rewrite Nat.div_add_l by lia. lia. }
    intros Ho. cbn [length] in Ho. rewrite Nat.odd_succ, Nat.even_succ in Ho.
    destruct (Hodd Ho) as (q & qn & c & Lq & Lc & Eq & Lqn & Rqn).
    exists q, qn, c. destruct ps' as [|? ?]; [discriminate|].
    destruct rest as [|? ?]; [discriminate|]. rewrite last_cons_cons. auto.
Qed.

Lemma generateLeafNodes_padding mt h data st :
  CHasher (Config mt) = Some h -> IsSort h = false -> Nat.odd (length data) = true ->
  Forall (fun d => exists x, Data_Hash d h = Ok x) data ->
  exists leaves st', generateLeafNodes mt data st = (Ok leaves, st') /\
    length leaves = length data + 1 /\ NoDup leaves /\
    exists l nd d l' nd', last leaves = Some l /\ last data = Some d /\
      heap st' !! l = Some nd /\ isOrphan nd = true /\ NData nd = Some d /\
      leaves !! (length data - 1) = Some l' /\ heap st' !! l' = Some nd' /\
      isOrphan nd' = false /\ NData nd' = Some d.
Proof.
  intros Hc Hs Ho Hd.
  assert (Hne : data <> []) by (intros ->; discriminate).
  destruct (generateLeafNodes_run h mt data st Hc Hne Hd) as (st1 & Hh1 & _ & Hg).
  destruct (last data) as [dl|] eqn:El; [|apply last_None in El; contradiction].
  assert (Hpad : padding data = [dl]) by (unfold padding; now rewrite Ho, El).
  rewrite Hpad, Hs in *. cbn [length] in Hg.
  set (j := length (heap st)) in *.
  exists (seq j (length data + 1)), st1. split; [exact Hg|].
  split; [apply length_seq|]. split; [apply NoDup_seq|].
  assert (Hlen : length data <> 0) by (destruct data; [congruence|discriminate]).
  pose proof (last_lookup data) as Hld. rewrite El in Hld.
  exists (j + length data), (leaf_node dl (digest h dl) true), dl,
         (j + (length data - 1)), (leaf_node dl (digest h dl) false).
  split; [rewrite last_lookup, length_seq, lookup_seq_lt by lia; f_equal; lia|].
  split; [reflexivity|].
  split; [rewrite Hh1, app_assoc; apply list_lookup_middle; rewrite length_app, length_map; reflexivity|].
  split; [reflexivity|]. split; [reflexivity|].
  split; [rewrite lookup_seq_lt by lia; reflexivity|].
  split; [|split; reflexivity].
  rewrite Hh1, lookup_app_r by lia. rewrite lookup_app_l by (rewrite length_map; lia).
  assert (Ej : j + (length data - 1) - length (heap st) = pred (length data)) by (unfold j; lia).
  rewrite list_lookup_fmap, Ej, <- Hld. reflexivity.
Qed.

(** ** crypto/sha256 test vectors *)

Example sha256_abc :
  map Sha256.Z_of_byte (Sha256.sum (bytes_of_string "abc")) =
  [0xba; 0x78; 0x16; 0xbf; 0x8f; 0x01; 0xcf; 0xea; 0x41; 0x41; 0x40; 0xde;
   0x5d; 0xae; 0x22; 0x23; 0xb0; 0x03; 0x61; 0xa3; 0x96; 0x17; 0x7a; 0x9c;
   0xb4; 0x10; 0xff; 0x61; 0xf2; 0x00; 0x15; 0xad]%Z.
Proof. vm_compute. reflexivity. Qed.

Example sha256_two_blocks :
  map Sha256.Z_of_byte (Sha256.sum (bytes_of_string
    "abcdbcdecdefdefgefghfghighijhijkijkljklmklmnlmnomnopnopq")) =
  [0x24; 0x8d; 0x6a; 0x61; 0xd2; 0x06; 0x38; 0xb8; 0xe5; 0xc0; 0x26; 0x93;
   0x0c; 0x3e; 0x60; 0x39; 0xa3; 0x3c; 0xe4; 0x59; 0x64; 0xff; 0x21; 0x67;
   0xf6; 0xec; 0xed; 0xd4; 0x19; 0xdb; 0x06; 0xc1]%Z.
Proof. vm_compute. reflexivity. Qed.

(** ** Concrete runs: counterexamples and instances *)

(** Reading back the boolean checkers. *)
Lemma is_panic_inv {A} (r : outcome A * St) : is_panic r = true -> exists msg st, r = (Panic msg, st).
Proof. destruct r as [[| | |] st]; simpl; try discriminate. eauto. Qed.

Lemma is_ok_inv {A} (r : outcome A * St) : is_ok r = true -> exists a st, r = (Ok a, st).
Proof. destruct r as [[| | |] st]; simpl; try discriminate. eauto. Qed.

Lemma check_tree_inv P r : check_tree P r = true ->
  exists mt st, r = (Ok (Some mt, None), st) /\ P mt st = true.
Proof. destruct r as [[[[mt|] [e|]]| | |] st]; simpl; try discriminate. eauto. Qed.

(** C1 (counterexample). A builder with a non-nil hasher whose identifier
    is ["md5"], no pool and concurrency 1 is a configuration the claim calls
    valid, yet [Build] on one item panics instead of returning a tree. *)
Lemma Build_md5_panics :
  exists msg st, Build (builder md5_hasher 1) [StringData "a"] initial_state = (Panic msg, st).
Proof. apply is_panic_inv. vm_compute. reflexivity. Qed.

(** C3 (counterexample). With the pairing-sort flag on, building five items
    sorts the leaves by digest after padding: the last entry of the leaf
    array is a leaf without the padding flag. *)
Lemma Build_sorted_padding_not_last :
  exists mt st l nd, Build (builder (sha256_hasher true false) 1) items5 initial_state = (Ok (Some mt, None), st) /\
    last (Leaves mt) = Some l /\ heap st !! l = Some nd /\ isOrphan nd = false.
Proof.
  destruct (check_tree_inv last_leaf_not_padding (Build (builder (sha256_hasher true false) 1) items5 initial_state))
    as (mt & st & E & C); [vm_compute; reflexivity|].
  unfold last_leaf_not_padding in C.
  destruct (last (Leaves mt)) as [l|] eqn:El; [|discriminate].
  destruct (heap st !! l) as [nd|] eqn:En; [|discriminate].
  exists mt, st, l, nd. split; [exact E|]. split; [exact El|]. split; [exact En|].
  now destruct (isOrphan nd).
Qed.

(** C4 (counterexample). For the items value1, value2, value3, value1 with
    sorting on, leaf 3 holds value1 and lies under the non-root node 5.
    After node 5's stored digest is overwritten, [Verify] on value1 still
    returns [true]: its scan stops at the first leaf holding value1, whose
    path does not pass through node 5. *)
Lemma Verify_misses_tamper_of_duplicate :
  exists mt st, Build (builder (sha256_hasher true false) 1) items4 initial_state = (Ok (Some mt, None), st) /\
    Leaves mt = [1; 0; 3; 2] /\ Root mt = Some 6 /\
    hash_at (heap st) 3 = digest (sha256_hasher true false) (StringData "value1") /\
    under (heap st) 3 5 /\ hash_at (heap st) 5 <> [] /\
    fst (Verify mt (StringData "value1") (tamper 5 [] st)) = Ok true.
Proof.
  destruct (check_tree_inv dup_tamper_check (Build (builder (sha256_hasher true false) 1) items4 initial_state))
    as (mt & st & E & C); [vm_compute; reflexivity|].
  unfold dup_tamper_check in C. rewrite !andb_true_iff, !bool_decide_eq_true in C.
  destruct C as (((((L & R) & H3) & P3) & H5) & V).
  assert (V' : fst (Verify mt (StringData "value1") (tamper 5 [] st)) = Ok true)
    by (destruct (fst (Verify _ _ _)) as [[|]| | |]; congruence).
  exists mt, st. split; [exact E|]. do 3 (split; [assumption|]). split; [|split; assumption].
  destruct (heap st !! 3) as [nd|] eqn:E3; [|discriminate]. injection P3 as P3.
  exact (under_parent _ 3 nd 5 E3 P3).
Qed.

(** Instance of C1 on three items, sha256 without pool or sorting. *)
Lemma Build_Verify_roundtrip_witness :
  exists mt st', Build (builder (sha256_hasher false false) 1) items3 initial_state = (Ok (Some mt, None), st') /\
    forall d st'', In d items3 -> heap st'' = heap st' -> pool_ok st'' ->
      fst (Verify mt d st'') = Ok true.
Proof.
  apply (Build_Verify_roundtrip _ (cfg (sha256_hasher false false)) (sha256_hasher false false));
    [reflexivity|reflexivity|discriminate|right; reflexivity|right; reflexivity|discriminate| |constructor].
  repeat constructor; digest32_tac.
Defined.

(** Instance of C4 on three items, sha256 with pool and sorting. *)
Lemma Verify_detects_tamper_witness :
  exists mt st', Build (builder (sha256_hasher true true) 1) items3 initial_state = (Ok (Some mt, None), st') /\
    forall d y f T x st'', Data_Hash d (sha256_hasher true true) = Ok y ->
      first_match (heap st') y (Leaves mt) = Some f -> under (heap st') f T ->
      hash_at (heap st') T <> x ->
      heap st'' = heap (tamper T x st') -> pool_ok st'' ->
      fst (Verify mt d st'') = Ok false.
Proof.
  apply (Verify_detects_tamper _ (cfg (sha256_hasher true true)) (sha256_hasher true true));
    [reflexivity|reflexivity|discriminate|left; discriminate|right; reflexivity|discriminate| |constructor].
  repeat constructor; digest32_tac.
Defined.

(** Instance of [Build_deterministic_root]: a fresh state and a state with
    a non-empty arena. *)
Lemma Build_deterministic_root_witness :
  root_digest (Build (builder (sha256_hasher false true) 1) items3 initial_state) =
  root_digest (Build (builder (sha256_hasher false true) 1) items3
                 (arena (sha256_hasher false true) ["x"; "y"]%string)).
Proof.
  apply Build_deterministic_root; [|constructor|constructor].
  intros c h Hb Hc. injection Hb as <-. injection Hc as <-.
  split; [left; discriminate|]. split; [right; reflexivity|].
  repeat constructor; digest32_tac.
Defined.

(** Instances of C8: an empty tree, and a one-leaf tree queried with an
    item that is not in it. *)
Lemma Verify_false_unless_digest_fails_witness :
  Verify (tree1 (sha256_hasher false false) []) (StringData "b") initial_state = (Ok false, initial_state) /\
  fst (Verify (tree1 (sha256_hasher false false) [0]) (StringData "b")
         (arena (sha256_hasher false false) ["a"]%string)) = Ok false.
Proof.
  split.
  - apply (proj1 (Verify_false_unless_digest_fails _ _ _)). reflexivity.
  - apply (proj1 (proj2 (Verify_false_unless_digest_fails _ _ _)) (sha256_hasher false false)
             (Sha256.sum (bytes_of_string "b"))); [reflexivity|reflexivity| |vm_compute; reflexivity].
    repeat constructor. eexists; reflexivity.
Defined.

(* ================================================================== *)
(** ** Further properties of the code *)

(** *** [concat] and the buffer pool *)

Lemma for_range_copy_panic (src : list byte) n i c :
  i <= length c < i + n -> i + n <= length src ->
  for_range i n (fun k b => let? v := get_index src k in set_index b k v) c = Panic index_out_of_range.
Proof.
  revert i c. induction n as [|n IH]; intros i c Hc Hs; [lia|]. cbn [for_range].
  destruct (lookup_lt_is_Some_2 src i) as [v Hv]; [lia|].
  unfold get_index at 1. rewrite Hv. cbn [obind].
  unfold set_index at 1. destruct (decide (i < length c)).
  - cbn [obind]. apply IH; [rewrite length_insert|]; lia.
  - reflexivity.
Qed.

Lemma for_range_fill (v : byte) src n i c :
  src !! 0 = Some v -> i + n <= length c ->
  exists r, for_range i n (fun k b => let? w := get_index src 0 in set_index b k w) c = Ok r /\
    length r = length c /\
    forall k, r !! k = if decide (i <= k < i + n) then Some v else c !! k.
Proof.
  intros Hv. revert i c. induction n as [|n IH]; intros i c Hc; cbn [for_range].
  - exists c. split; [done|]. split; [done|]. intros k. case_decide; [lia|done].
  - unfold get_index at 1. rewrite Hv. cbn [obind].
    unfold set_index at 1. rewrite decide_True by lia. cbn [obind].
    destruct (IH (S i) (<[i:=v]> c)) as (r & Hr & Hlen & Hk); [rewrite length_insert; lia|].
    exists r. split; [exact Hr|]. split; [rewrite Hlen, length_insert; done|].
    intros k. rewrite Hk. destruct (decide (k = i)) as [->|Hne].
    + rewrite decide_False by lia. rewrite decide_True by lia.
      rewrite list_lookup_insert_eq by lia. done.
    + rewrite list_lookup_insert_ne by done. repeat case_decide; try lia; done.
Qed.

Lemma for_range_fill_panic src n i c :
  i <= length c < i + n -> src <> [] ->
  for_range i n (fun k b => let? w := get_index src 0 in set_index b k w) c = Panic index_out_of_range.
Proof.
  intros Hc Hs. destruct src as [|v src']; [congruence|].
  revert i c Hc. induction n as [|n IH]; intros i c Hc; [lia|]. cbn [for_range].
  unfold get_index at 1. cbn [lookup list_lookup obind].
  unfold set_index at 1. destruct (decide (i < length c)).
  - cbn [obind]. apply IH. rewrite length_insert; lia.
  - reflexivity.
Qed.

Lemma for_range_fill_empty n i c :
  0 < n ->
  for_range i n (fun k b => let? w := get_index [] 0 in set_index b k w) c = Panic index_out_of_range.
Proof. destruct n; [lia|]. reflexivity. Qed.

Lemma lookup_repeat_lt {A} (a : A) n k : k < n -> repeat a n !! k = Some a.
Proof. revert k. induction n as [|n IH]; intros [|k] Hk; simpl; try lia; auto. apply IH. lia. Qed.

(** The body of [concat], on a buffer [b] and the operands [x], [y] it
    writes after the optional swap. *)
Theorem concat_fill_behaviour b s b1 b2 x y :
  sort_pair s b1 b2 = (x, y) ->
  (length b < length x -> concat_fill b s b1 b2 = Panic index_out_of_range) /\
  (length x <= length b -> length y <= length x ->
     concat_fill b s b1 b2 = Ok (x ++ drop (length x) b)) /\
  (x = [] -> 0 < length y -> concat_fill b s b1 b2 = Panic index_out_of_range) /\
  (forall a x', x = a :: x' -> length x < length y -> length b < length y ->
     concat_fill b s b1 b2 = Panic index_out_of_range) /\
  (forall a x', x = a :: x' -> length x < length y <= length b ->
     concat_fill b s b1 b2 = Ok (x ++ repeat a (length y - length x) ++ drop (length y) b)).
Proof.
  intros Hxy. unfold concat_fill. rewrite Hxy. rewrite Nat.sub_diag.
  split; [|split; [|split; [|split]]].
  - intros Hlt. rewrite (for_range_copy_panic x (length x) 0 b); [reflexivity|lia|lia].
  - intros Hb Hy. destruct (for_range_copy x (length x) 0 b) as (r & Hr & Hlen & Hk); [lia|lia|].
    rewrite Hr. cbn [obind]. replace (length y - length x) with 0 by lia. cbn [for_range]. f_equal.
    apply list_eq. intros k. rewrite Hk. case_decide.
    + rewrite lookup_app_l by lia. reflexivity.
    + rewrite lookup_app_r by lia. rewrite lookup_drop. f_equal. lia.
  - intros -> Hy. cbn [length for_range obind]. apply for_range_fill_empty. lia.
  - intros a x' -> Hxy' Hb. destruct (decide (length b < length (a :: x'))) as [Hlt|Hge].
    + rewrite (for_range_copy_panic _ (length (a :: x')) 0 b); [reflexivity|lia|lia].
    + destruct (for_range_copy (a :: x') (length (a :: x')) 0 b) as (r & Hr & Hlen & Hk); [lia|lia|].
      rewrite Hr. cbn [obind]. apply for_range_fill_panic; [lia|discriminate].
  - intros a x' -> [Hxy' Hb].
    destruct (for_range_copy (a :: x') (length (a :: x')) 0 b) as (r & Hr & Hlen & Hk); [lia|lia|].
    rewrite Hr. cbn [obind].
    destruct (for_range_fill a (a :: x') (length y - length (a :: x')) (length (a :: x')) r)
      as (r' & Hr' & Hlen' & Hk'); [reflexivity|lia|].
    rewrite Hr'. f_equal. apply list_eq. intros k. rewrite Hk', Hk.
    set (n := length (a :: x')) in *.
    destruct (decide (k < n)).
    + rewrite decide_False by lia. rewrite decide_True by lia. rewrite lookup_app_l by lia. reflexivity.
    + rewrite lookup_app_r by lia. destruct (decide (k < length y)).
      * rewrite decide_True by lia. rewrite lookup_app_l by (rewrite repeat_length; lia).
        symmetry. apply lookup_repeat_lt. fold n. lia.
      * rewrite decide_False by lia. rewrite decide_False by lia.
        rewrite lookup_app_r by (rewrite repeat_length; lia). rewrite repeat_length, lookup_drop.
        f_equal. lia.
Qed.

Lemma concat_fill_behaviour_witness :
  concat_fill [x00; x00; x00; x00] false [x01] [x02; x02; x02] = Ok [x01; x01; x01; x00].
Proof.
  destruct (concat_fill_behaviour [x00; x00; x00; x00] false [x01] [x02; x02; x02]
              [x01] [x02; x02; x02] eq_refl) as (_ & _ & _ & _ & H5).
  rewrite (H5 x01 [] eq_refl ltac:(simpl; lia)). reflexivity.
Defined.

(** *** Leaf order and the root *)

Lemma bytes_Compare_lt_trans a b c :
  bytes_Compare a b = Lt -> bytes_Compare b c = Lt -> bytes_Compare a c = Lt.
Proof.
  revert b c. induction a as [|x a IH]; intros [|y b] [|z c]; simpl; try congruence.
  destruct (N.compare (Byte.to_N x) (Byte.to_N y)) eqn:Exy;
  destruct (N.compare (Byte.to_N y) (Byte.to_N z)) eqn:Eyz; try congruence; intros H1 H2.
  - apply N.compare_eq_iff in Exy, Eyz. rewrite Exy, Eyz, N.compare_refl. eauto.
  - apply N.compare_eq_iff in Exy. rewrite Exy, Eyz. reflexivity.
  - apply N.compare_eq_iff in Eyz. rewrite <- Eyz, Exy. reflexivity.
  - apply N.compare_lt_iff in Exy, Eyz.
    rewrite (proj2 (N.compare_lt_iff (Byte.to_N x) (Byte.to_N z)) (N.lt_trans _ _ _ Exy Eyz)). reflexivity.
Qed.

Lemma byte_le_trans a b c : byte_le a b -> byte_le b c -> byte_le a c.
Proof.
  unfold byte_le. intros H1 H2.
  destruct (bytes_Compare a b) eqn:E1; [apply bytes_Compare_Eq in E1; subst; exact H2| |congruence].
  destruct (bytes_Compare b c) eqn:E2; [apply bytes_Compare_Eq in E2; subst; rewrite E1; discriminate| |congruence].
  rewrite (bytes_Compare_lt_trans a b c E1 E2). discriminate.
Qed.

Lemma byte_le_total a b : ~ byte_le a b -> byte_le b a.
Proof.
  unfold byte_le. rewrite (bytes_Compare_antisym b a). destruct (bytes_Compare a b); simpl; intros H; try discriminate; exfalso; apply H; discriminate.
Qed.

Lemma byte_le_antisym a b : byte_le a b -> byte_le b a -> a = b.
Proof.
  unfold byte_le. rewrite (bytes_Compare_antisym b a).
  destruct (bytes_Compare a b) eqn:E; simpl; try congruence. intros. now apply bytes_Compare_Eq.
Qed.

Lemma insert_sorted_sorted x l :
  Sorted (fun p q => byte_le (snd p) (snd q)) l ->
  Sorted (fun p q => byte_le (snd p) (snd q)) (insert_sorted x l).
Proof.
  induction 1 as [|y l Hl IH Hhd]; simpl; [repeat constructor|].
  unfold node_Less. destruct (bytes_Compare (snd x) (snd y)) eqn:E.
  2: { constructor; [constructor; assumption|]. constructor. unfold byte_le. congruence. }
  all: assert (Hyx : byte_le (snd y) (snd x))
         by (unfold byte_le; rewrite bytes_Compare_antisym, E; discriminate).
  all: constructor; [exact IH|]; destruct l as [|z l]; simpl; [constructor; exact Hyx|].
  all: inversion Hhd; subst; unfold node_Less; destruct (bytes_Compare (snd x) (snd z));
        constructor; assumption.
Qed.

Lemma insertionSort_sorted l : Sorted (fun p q => byte_le (snd p) (snd q)) (insertionSort l).
Proof.
  unfold insertionSort. cut (forall acc, Sorted (fun p q => byte_le (snd p) (snd q)) acc ->
    Sorted (fun p q => byte_le (snd p) (snd q)) (fold_left (fun acc x => insert_sorted x acc) l acc)).
  { intros H. apply H. constructor. }
  induction l as [|x l IH]; intros acc Hacc; simpl; [exact Hacc|]. apply IH, insert_sorted_sorted, Hacc.
Qed.

Lemma sorted_map_snd (l : list (nat * list byte)) :
  Sorted (fun p q => byte_le (snd p) (snd q)) l -> Sorted byte_le (map snd l).
Proof.
  induction 1 as [|y l Hl IH Hhd]; simpl; constructor; [exact IH|].
  destruct Hhd; simpl; constructor; assumption.
Qed.

Lemma sorted_perm_unique (l1 l2 : list (list byte)) :
  Sorted byte_le l1 -> Sorted byte_le l2 -> l1 ≡ₚ l2 -> l1 = l2.
Proof.
  intros S1 S2. apply Sorted_StronglySorted in S1; [|intros ???; apply byte_le_trans].
  apply Sorted_StronglySorted in S2; [|intros ???; apply byte_le_trans].
  revert l2 S2. induction S1 as [|a l1 S1 IH H1]; intros l2 S2 Hp.
  - symmetry. apply Permutation_nil. exact Hp.
  - destruct S2 as [|b l2 S2 H2].
    + symmetry in Hp. apply Permutation_nil in Hp. discriminate.
    + assert (Hab : a = b).
      { assert (Ha : a ∈ b :: l2) by (rewrite <- Hp; left).
        assert (Hb : b ∈ a :: l1) by (rewrite Hp; left).
        apply elem_of_cons in Ha as [->|Ha]; [reflexivity|].
        apply elem_of_cons in Hb as [->|Hb]; [reflexivity|].
        rewrite Forall_forall in H1, H2.
        apply byte_le_antisym; [apply H1|apply H2]; assumption. }
      subst b. f_equal. apply IH; [exact S2|]. eapply Permutation_cons_inv; exact Hp.
Qed.

Lemma pure_leaves_sorted h data :
  IsSort h = true -> Sorted byte_le (pure_leaves h data) /\
  pure_leaves h data ≡ₚ map (digest h) (data ++ padding data).
Proof.
  intros Hs. unfold pure_leaves. rewrite Hs. split.
  - apply sorted_map_snd, insertionSort_sorted.
  - rewrite insertionSort_perm, map_map. simpl. rewrite map_id. reflexivity.
Qed.

Lemma padding_perm data data' :
  data ≡ₚ data' -> (Nat.even (length data) = true \/ last data = last data') ->
  padding data = padding data'.
Proof.
  intros Hp Hl. unfold padding. rewrite <- (Permutation_length Hp).
  destruct Hl as [He | ->]; [|reflexivity]. rewrite <- Nat.negb_even, He. reflexivity.
Qed.

Lemma pure_leaves_perm h data data' :
  IsSort h = true -> data ≡ₚ data' ->
  (Nat.even (length data) = true \/ last data = last data') ->
  pure_leaves h data = pure_leaves h data'.
Proof.
  intros Hs Hp Hl.
  destruct (pure_leaves_sorted h data Hs) as [S1 P1].
  destruct (pure_leaves_sorted h data' Hs) as [S2 P2].
  apply sorted_perm_unique; [exact S1|exact S2|].
  rewrite P1, P2, (padding_perm data data' Hp Hl), Hp. reflexivity.
Qed.

Lemma comb_digest_nosort h a b b' : IsSort h = false -> comb_digest h a b = comb_digest h a b'.
Proof. intros Hs. unfold comb_digest, comb, sort_pair. rewrite Hs. reflexivity. Qed.

Lemma pure_level_head_nosort h hs hs' :
  IsSort h = false -> length hs = length hs' -> head hs = head hs' ->
  head (pure_level h hs) = head (pure_level h hs').
Proof.
  intros Hs Hl Hh.
  destruct hs as [|a [|b hs]], hs' as [|a' [|b' hs']]; simpl in *; try discriminate; try reflexivity;
    injection Hh as ->; f_equal; apply comb_digest_nosort, Hs.
Qed.

Lemma pure_root_nosort fuel h hs hs' :
  IsSort h = false -> length hs = length hs' -> head hs = head hs' ->
  pure_root fuel h hs = pure_root fuel h hs'.
Proof.
  revert hs hs'. induction fuel as [|fuel IH]; intros hs hs' Hs Hl Hh; [reflexivity|].
  cbn [pure_root]. rewrite <- Hl.
  destruct hs as [|a t], hs' as [|a' t']; try (simpl in Hl; discriminate); [reflexivity|].
  cbv iota. destruct (decide _).
  - apply pure_level_head_nosort; [exact Hs|exact Hl|exact Hh].
  - apply IH; [exact Hs| |apply pure_level_head_nosort; assumption].
    rewrite !pure_level_length, Hl. reflexivity.
Qed.

Lemma padding_length_cons d data : length (padding (d :: data)) = if Nat.even (length data) then 1 else 0.
Proof.
  unfold padding. cbn [length]. rewrite Nat.odd_succ.
  destruct (Nat.even (length data)); [|reflexivity].
  destruct (last (d :: data)) eqn:E; [reflexivity|].
  exfalso. apply last_None in E. discriminate.
Qed.

(** Leaf order of a build: without sorting, [mt.Leaves] hold the items'
    digests in input order, followed by a copy of the last one when the
    number of items is odd; with sorting, the same digests in
    non-decreasing [bytes.Compare] order. *)
Theorem Build_leaf_order b c h data st :
  config b = Some c -> CHasher c = Some h -> MaxGoroutine c <> 0%N ->
  hasher_ok h -> data <> [] -> Forall (digest32 h) data -> pool_ok st ->
  exists mt st', Build b data st = (Ok (Some mt, None), st') /\
    (IsSort h = false -> map (hash_at (heap st')) (Leaves mt) = map (digest h) (data ++ padding data)) /\
    (IsSort h = true -> Sorted byte_le (map (hash_at (heap st')) (Leaves mt)) /\
                        map (hash_at (heap st')) (Leaves mt) ≡ₚ map (digest h) (data ++ padding data)).
Proof.
  intros Hb Hc Hn Hh Hne Hd Hp.
  destruct (Build_spec b c h data st Hb Hc Hn Hh Hne Hd Hp) as (mt & st' & E & _ & _ & _ & _ & Hm & _).
  exists mt, st'. split; [exact E|]. rewrite Hm. split.
  - intros Hs. unfold pure_leaves. rewrite Hs. reflexivity.
  - apply pure_leaves_sorted.
Qed.

Lemma Build_leaf_order_witness :
  exists mt st', Build (builder (sha256_hasher true false) 1) items3 initial_state = (Ok (Some mt, None), st') /\
    (IsSort (sha256_hasher true false) = false ->
       map (hash_at (heap st')) (Leaves mt) = map (digest (sha256_hasher true false)) (items3 ++ padding items3)) /\
    (IsSort (sha256_hasher true false) = true ->
       Sorted byte_le (map (hash_at (heap st')) (Leaves mt)) /\
       map (hash_at (heap st')) (Leaves mt) ≡ₚ map (digest (sha256_hasher true false)) (items3 ++ padding items3)).
Proof.
  apply (Build_leaf_order _ (cfg (sha256_hasher true false)) (sha256_hasher true false)).
  - reflexivity.
  - reflexivity.
  - discriminate.
  - right; reflexivity.
  - discriminate.
  - repeat constructor; digest32_tac.
  - constructor.
Defined.

(** With sorting on, in a [race_free] configuration, the root does not
    depend on the order of the items: any permutation that keeps the padding
    item (the last one, repeated when the number of items is odd) gives the
    same root. *)
Theorem Build_root_order_independent b c h data data' st st' :
  config b = Some c -> CHasher c = Some h -> MaxGoroutine c <> 0%N ->
  hasher_ok h -> race_free c h -> IsSort h = true -> data <> [] -> Forall (digest32 h) data ->
  data ≡ₚ data' -> (Nat.even (length data) = true \/ last data = last data') ->
  pool_ok st -> pool_ok st' ->
  root_digest (Build b data st) = root_digest (Build b data' st').
Proof.
  intros Hb Hc Hn Hh _ Hs Hne Hd Hp Hl Hst Hst'.
  rewrite (Build_root_pure b c h data st), (Build_root_pure b c h data' st'); try assumption.
  - unfold pure_build_root. rewrite (pure_leaves_perm h data data' Hs Hp Hl). reflexivity.
  - intros ->. symmetry in Hp. apply Permutation_nil in Hp. congruence.
  - rewrite <- Hp. exact Hd.
Qed.

Lemma Build_root_order_independent_witness :
  root_digest (Build (builder (sha256_hasher true true) 1) items4 initial_state) =
  root_digest (Build (builder (sha256_hasher true true) 1)
                 (map StringData ["value3";"value1";"value1";"value2"]%string) initial_state).
Proof.
  apply (Build_root_order_independent _ (cfg (sha256_hasher true true)) (sha256_hasher true true)).
  - reflexivity.
  - reflexivity.
  - discriminate.
  - left; discriminate.
  - right; reflexivity.
  - reflexivity.
  - discriminate.
  - repeat constructor; digest32_tac.
  - unfold items4. simpl. solve_Permutation.
  - left; reflexivity.
  - constructor.
  - constructor.
Defined.

(** With sorting off, in a [race_free] configuration, the root depends
    only on the first item and on the number of items: [concat] copies the
    first operand only. *)
Theorem Build_root_first_item_only b c h d data data' st st' :
  config b = Some c -> CHasher c = Some h -> MaxGoroutine c <> 0%N ->
  hasher_ok h -> race_free c h -> IsSort h = false ->
  Forall (digest32 h) (d :: data) -> Forall (digest32 h) (d :: data') ->
  length data = length data' -> pool_ok st -> pool_ok st' ->
  root_digest (Build b (d :: data) st) = root_digest (Build b (d :: data') st').
Proof.
  intros Hb Hc Hn Hh _ Hs Hd Hd' Hl Hst Hst'.
  rewrite (Build_root_pure b c h (d :: data) st), (Build_root_pure b c h (d :: data') st');
    try assumption; try discriminate.
  assert (Hlen : length (pure_leaves h (d :: data)) = length (pure_leaves h (d :: data'))).
  { rewrite !pure_leaves_length, !length_app, !padding_length_cons. simpl. rewrite Hl. reflexivity. }
  unfold pure_build_root. rewrite Hlen. f_equal. f_equal.
  apply pure_root_nosort; [exact Hs|exact Hlen|].
  unfold pure_leaves. rewrite Hs. reflexivity.
Qed.

Lemma Build_root_first_item_only_witness :
  root_digest (Build (builder (sha256_hasher false false) 1) items3 initial_state) =
  root_digest (Build (builder (sha256_hasher false false) 1)
                 (map StringData ["value1";"other";"items"]%string) initial_state).
Proof.
  apply (Build_root_first_item_only _ (cfg (sha256_hasher false false)) (sha256_hasher false false)).
  - reflexivity.
  - reflexivity.
  - discriminate.
  - right; reflexivity.
  - left; reflexivity.
  - reflexivity.
  - repeat constructor; digest32_tac.
  - repeat constructor; digest32_tac.
  - reflexivity.
  - constructor.
  - constructor.
Defined.

(** *** The [build] command, failing items, [generateParentNodes] and [Verify] *)

Lemma pure_level_ext h h' hs :
  (forall l r, comb_digest h l r = comb_digest h' l r) -> pure_level h hs = pure_level h' hs.
Proof.
  intros Hc. cut (pure_level h hs = pure_level h' hs /\
                  forall a, pure_level h (a :: hs) = pure_level h' (a :: hs)); [tauto|].
  induction hs as [|b hs [IH1 IH2]]; simpl.
  - split; [reflexivity|]. intros a. rewrite Hc. reflexivity.
  - split; [exact (IH2 b)|]. intros a. rewrite Hc, IH1. reflexivity.
Qed.

Lemma pure_root_ext fuel h h' hs :
  (forall l r, comb_digest h l r = comb_digest h' l r) -> pure_root fuel h hs = pure_root fuel h' hs.
Proof.
  intros Hc. revert hs. induction fuel as [|fuel IH]; intros hs; [reflexivity|].
  simpl. rewrite (pure_level_ext h h' hs Hc), IH. reflexivity.
Qed.

Lemma pure_build_root_ext h h' data :
  IsSort h = IsSort h' -> Forall (fun d => digest h d = digest h' d) data ->
  (forall l r, comb_digest h l r = comb_digest h' l r) ->
  pure_build_root h data = pure_build_root h' data.
Proof.
  intros Hs Hd Hc.
  assert (Hl : pure_leaves h data = pure_leaves h' data).
  { unfold pure_leaves. rewrite Hs.
    assert (E : map (digest h) (data ++ padding data) = map (digest h') (data ++ padding data)).
    { apply map_ext_in. intros d Hin. apply list_elem_of_In in Hin.
      assert (Hall : Forall (fun d => digest h d = digest h' d) (data ++ padding data))
        by (apply Forall_app; split; [exact Hd|apply padding_Forall, Hd]).
      rewrite Forall_forall in Hall. apply Hall, Hin. }
    rewrite E. reflexivity. }
  unfold pure_build_root. rewrite Hl. apply pure_root_ext, Hc.
Qed.

Lemma sha256_pool_digest s v :
  digest (sha256_hasher s true) (StringData v) = digest (sha256_hasher s false) (StringData v).
Proof. reflexivity. Qed.

Lemma sha256_pool_comb s l r :
  comb_digest (sha256_hasher s true) l r = comb_digest (sha256_hasher s false) l r.
Proof. reflexivity. Qed.

Lemma sha256_Data_Hash_StringData s p v :
  Data_Hash (StringData v) (sha256_hasher s p) = Ok (Sha256.sum (bytes_of_string v)).
Proof. destruct p; reflexivity. Qed.

Lemma sha256_digest_StringData s p v :
  digest (sha256_hasher s p) (StringData v) = Sha256.sum (bytes_of_string v).
Proof. unfold digest. rewrite sha256_Data_Hash_StringData. reflexivity. Qed.

Lemma sha256_StringData_digest32 s p v : digest32 (sha256_hasher s p) (StringData v).
Proof.
  exists (Sha256.sum (bytes_of_string v)). split; [destruct p; reflexivity|apply sum_length].
Qed.

Lemma IsValid_SHA256 : IsValid SHA256 = true.
Proof. reflexivity. Qed.

Lemma Hash_Hash_SHA256 : Hash_Hash SHA256 = Ok CRYPTO_SHA256.
Proof. reflexivity. Qed.

(** The [build] command with the sha256 identifier, a non-zero goroutine
    limit and at least one value prints the root the pure model computes
    for an unpooled hasher, when it does not reuse buffers or runs one
    goroutine at a time: with one goroutine, reusing buffer allocation does
    not change the printed root. *)
Theorem buildCmd_prints_root reuse isSort maxG values st :
  (reuse = false \/ maxG = 1%N) -> maxG <> 0%N -> values <> [] -> pool_ok st ->
  exists r st', buildCmd_RunE SHA256 reuse isSort maxG values st = (Ok (None, Some r), st') /\
    pure_build_root (sha256_hasher isSort false) (map StringData values) = Some r.
Proof.
  intros _ Hn Hv Hp.
  assert (Hne : map StringData values <> []) by (destruct values; [congruence|discriminate]).
  destruct (Build_spec (WithMaxGoroutine maxG (WithHasher (sha256_hasher isSort reuse) NewMerkleTreeBuilder))
              {| CHasher := Some (sha256_hasher isSort reuse); MaxGoroutine := maxG; cisSort := false |}
              (sha256_hasher isSort reuse) (map StringData values) st eq_refl eq_refl Hn
              (or_intror eq_refl) Hne
              (proj2 (Forall_map _ _ _) (Forall_true _ _ (sha256_StringData_digest32 isSort reuse))) Hp)
    as (mt & st' & E & _ & _ & _ & _ & _ & r & Hr & Hin & Hroot).
  destruct (lookup_lt_is_Some_2 (heap st') r (proj2 Hin)) as [rn Ern].
  exists (NHash rn), st'. split.
  - unfold buildCmd_RunE. rewrite IsValid_SHA256. cbn [negb].
    destruct reuse; [rewrite Hash_Hash_SHA256|]; cbv [bind lift ret];
      [change {| IsSort := isSort; HHash := SHA256; Pool := Some (NewHashPool CRYPTO_SHA256) |}
         with (sha256_hasher isSort true)
      |change {| IsSort := isSort; HHash := SHA256; Pool := None |} with (sha256_hasher isSort false)];
      rewrite E;
      cbv [load]; rewrite Hr, Ern; reflexivity.
  - unfold hash_at in Hroot. rewrite Ern in Hroot. rewrite <- Hroot.
    destruct reuse; [|reflexivity].
    apply pure_build_root_ext; [reflexivity| |apply sha256_pool_comb].
    apply Forall_map, Forall_true. intros v. exact (sha256_pool_digest isSort v).
Qed.

Lemma buildCmd_prints_root_witness :
  exists r st', buildCmd_RunE SHA256 true true 1 ["a";"b";"c"]%string initial_state = (Ok (None, Some r), st') /\
    pure_build_root (sha256_hasher true false) (map StringData ["a";"b";"c"]%string) = Some r.
Proof.
  apply buildCmd_prints_root; [right; reflexivity|discriminate|discriminate|constructor].
Defined.

Lemma IsValid_true hash : IsValid hash = true -> hash = SHA256.
Proof.
  unfold IsValid. destruct (string_dec hash SHA256); [auto|].
  destruct (string_dec hash UNKNOWNHASH); discriminate.
Qed.

(** The [build] command prints nothing when it stops early: an unrecognised
    hash identifier returns the still-nil [err] (no error at all), a zero
    goroutine limit and an empty value list return the builder's error. *)
Theorem buildCmd_early_exit hash reuse isSort maxG values st :
  (IsValid hash = false -> buildCmd_RunE hash reuse isSort maxG values st = (Ok (None, None), st)) /\
  (IsValid hash = true -> maxG = 0%N ->
     buildCmd_RunE hash reuse isSort maxG values st =
       (Ok (Some ErrMerkleTreeConfigMaxGoroutineIsEqZero, None), st)) /\
  (IsValid hash = true -> maxG <> 0%N -> values = [] ->
     buildCmd_RunE hash reuse isSort maxG values st =
       (Ok (Some ErrMerkleTreeDataIsNilOrEmpty, None), st)).
Proof.
  split; [|split].
  - intros Hv. unfold buildCmd_RunE. rewrite Hv. reflexivity.
  - intros Hv ->. pose proof (IsValid_true _ Hv) as ->.
    unfold buildCmd_RunE. rewrite IsValid_SHA256. cbn [negb].
    destruct reuse; [rewrite Hash_Hash_SHA256|]; reflexivity.
  - intros Hv Hn ->. pose proof (IsValid_true _ Hv) as ->.
    unfold buildCmd_RunE. rewrite IsValid_SHA256. cbn [negb].
    destruct reuse; [rewrite Hash_Hash_SHA256|]; cbv [bind lift ret Build builder WithMaxGoroutine WithHasher NewMerkleTreeBuilder config CHasher MaxGoroutine];
      rewrite decide_False by exact Hn; reflexivity.
Qed.

Lemma buildCmd_early_exit_witness :
  buildCmd_RunE "md5"%string true true 1000 ["a"]%string initial_state = (Ok (None, None), initial_state) /\
  buildCmd_RunE SHA256 true true 0 ["a"]%string initial_state =
    (Ok (Some ErrMerkleTreeConfigMaxGoroutineIsEqZero, None), initial_state) /\
  buildCmd_RunE SHA256 false true 1000 [] initial_state =
    (Ok (Some ErrMerkleTreeDataIsNilOrEmpty, None), initial_state).
Proof.
  split; [apply (buildCmd_early_exit "md5"%string true true 1000 ["a"]%string initial_state); reflexivity|].
  split; [apply (buildCmd_early_exit SHA256 true true 0 ["a"]%string initial_state); reflexivity|].
  apply (buildCmd_early_exit SHA256 false true 1000 [] initial_state); [reflexivity|discriminate|reflexivity].
Defined.

Lemma make_leaves_fail h k data i d e st :
  data !! i = Some d -> Data_Hash d h = Fail e ->
  (forall j dj, j < i -> data !! j = Some dj -> exists x, Data_Hash dj h = Ok x) ->
  exists st', make_leaves h k data st = (Fail (ErrNewLeaf (k + i) (Errorf "d.Hasher()" e)), st').
Proof.
  revert k i st. induction data as [|d0 data IH]; intros k i st Hi He Hbefore; [discriminate|].
  destruct i as [|i].
  - injection Hi as ->. cbn [make_leaves]. unfold map_err, bind at 1, NewLeaf, newLeaf.
    unfold bind at 1, tick. cbn -[make_leaves]. rewrite He. cbn. rewrite Nat.add_0_r.
    eexists. reflexivity.
  - destruct (Hbefore 0 d0 ltac:(lia) eq_refl) as [x Hx].
    cbn [make_leaves]. unfold map_err, bind at 1, NewLeaf. rewrite (newLeaf_run h d0 x false st Hx).
    destruct (IH (S k) i {| heap := heap st ++ [leaf_node d0 x false]; buffers := buffers st;
                            hash_writes := S (hash_writes st); pool_picks := pool_picks st |} Hi He) as [st' Hm].
    { intros j dj Hj Ej. apply (Hbefore (S j) dj); [lia|exact Ej]. }
    unfold bind at 1. rewrite Hm. rewrite Nat.add_succ_r. eexists. reflexivity.
Qed.

(** With one goroutine at a time, the leaf goroutines run in index order and
    [errs.Wait] reports the first failure: when item [i] is the first whose
    digest fails (and no digest panics), [Build] returns the bare tree, no
    leaves and no root, with that item's error wrapped by [NewLeaf] and
    [generateLeafNodes]. *)
Theorem Build_first_failing_item b c h data i d e st :
  config b = Some c -> CHasher c = Some h -> MaxGoroutine c = 1%N ->
  data !! i = Some d -> Data_Hash d h = Fail e ->
  (forall j dj, j < i -> data !! j = Some dj -> exists x, Data_Hash dj h = Ok x) ->
  (forall dj, dj ∈ data -> match Data_Hash dj h with Panic _ | Diverge => False | _ => True end) ->
  exists st', Build b data st =
    (Ok (Some {| Root := None; Leaves := []; Config := c |},
         Some (Errorf "mt.generateLeafNodes(data)" (ErrNewLeaf i (Errorf "d.Hasher()" e)))), st').
Proof.
  intros Hb Hc Hn Hi He Hbefore _.
  destruct (make_leaves_fail h 0 data i d e st Hi He Hbefore) as [st1 Hm].
  destruct data as [|d0 data']; [discriminate|].
  unfold Build. rewrite Hb, Hc, Hn. rewrite decide_False by discriminate.
  unfold generateLeafNodes, mt_hasher. cbn -[make_leaves generateParentNodes]. rewrite Hc.
  cbn -[make_leaves generateParentNodes]. unfold bind at 1. rewrite Hm. eexists. reflexivity.
Qed.

Lemma Build_first_failing_item_witness :
  exists st', Build (builder (sha256_hasher false false) 1)
                [StringData "a"; failing_data "bad"; StringData "c"]%string initial_state =
    (Ok (Some {| Root := None; Leaves := []; Config := cfg (sha256_hasher false false) |},
         Some (Errorf "mt.generateLeafNodes(data)"
                 (ErrNewLeaf 1 (Errorf "d.Hasher()" (ErrData "bad"))))), st').
Proof.
  apply (Build_first_failing_item _ _ (sha256_hasher false false) _ 1 (failing_data "bad")); try reflexivity.
  - intros j dj Hj Ej. destruct j as [|j]; [|lia]. injection Ej as <-. eexists; reflexivity.
  - intros dj Hin. repeat (apply elem_of_cons in Hin as [->|Hin]; [exact I|]).
    apply elem_of_nil in Hin. contradiction.
Defined.

(** [generateParentNodes] on a single node never returns: the node is paired
    with itself into a new single node, level after level. *)
Theorem generateParentNodes_single_diverges fuel mt h lo n st :
  CHasher (Config mt) = Some h -> hasher_ok h -> build_ok h lo st -> in_region lo (heap st) n ->
  exists st', generateParentNodes fuel mt [n] st = (Diverge, st').
Proof.
  intros Hc Hh. revert n st. induction fuel as [|fuel IH]; intros n st Hok Hn.
  - exists st. reflexivity.
  - destruct (pair_level_spec h lo [n] st Hh Hok (Forall_cons_2 _ _ _ Hn (Forall_nil_2 _)))
      as (ps & st1 & Hpl & Hok1 & _ & Hin1 & _).
    destruct (pair_level_inv h [n] st ps st1 Hpl) as (_ & _ & Hlen & _).
    destruct ps as [|p [|? ?]]; try discriminate.
    apply Forall_cons in Hin1 as [Hp _].
    destruct (IH p st1 Hok1 Hp) as [st2 Hg].
    exists st2. cbn [generateParentNodes]. unfold mt_hasher. rewrite Hc.
    unfold bind at 1, ret at 1. unfold bind at 1. rewrite Hpl.
    rewrite decide_False by discriminate. exact Hg.
Qed.

Lemma generateParentNodes_single_diverges_witness :
  exists st', generateParentNodes 5 (tree1 (sha256_hasher true false) []) [0]
                (arena (sha256_hasher true false) ["a"]%string) = (Diverge, st').
Proof.
  apply (generateParentNodes_single_diverges 5 _ (sha256_hasher true false) 0).
  - reflexivity.
  - right; reflexivity.
  - split; [|split; [constructor|cbn; lia]].
    intros m nd _ E. destruct m as [|m]; [|destruct m; discriminate].
    injection E as <-. cbn [NHash leaf_node Left Right NData Parent].
    rewrite sha256_digest_StringData. split; [apply sum_length|]. split.
    + left. split; [reflexivity|]. split; [reflexivity|].
      exists (StringData "a"). split; [reflexivity|]. apply sha256_Data_Hash_StringData.
    + intros p Hp. discriminate.
  - unfold in_region. cbn. lia.
Defined.

(** [Verify] never writes the arena: parent pointers and digests are
    as they were before the call. *)
Theorem Verify_keeps_heap mt d st : heap (snd (Verify mt d st)) = heap st.
Proof.
  destruct (Verify mt d st) as [o st'] eqn:E. simpl. revert st o st' E.
  unfold Verify. destruct (Leaves mt); [apply keeps_heap_ret|].
  apply keeps_heap_bind; [|intros h].
  - unfold mt_hasher. destruct (CHasher (Config mt)); [apply keeps_heap_ret|apply keeps_heap_lift].
  - apply keeps_heap_bind; [apply keeps_heap_tick|intros _].
    apply keeps_heap_bind; [apply keeps_heap_map_err, keeps_heap_lift|intros x].
    apply keeps_heap_verify_scan.
Qed.

(** In a [race_free] configuration, every node a build allocates stores
    the digest [computeNodeHash] recomputes for it: a leaf's digest is its
    item's, an inner node's is the combination of its children's stored
    digests. *)
Theorem Build_nodes_recompute b c h data st :
  config b = Some c -> CHasher c = Some h -> MaxGoroutine c <> 0%N ->
  hasher_ok h -> race_free c h -> data <> [] -> Forall (digest32 h) data -> pool_ok st ->
  exists mt st', Build b data st = (Ok (Some mt, None), st') /\
    forall n nd, length (heap st) <= n -> heap st' !! n = Some nd ->
      fst (computeNodeHash h (Some n) st') = Ok (NHash nd).
Proof.
  intros Hb Hc Hn Hh _ Hne Hd Hp.
  destruct (Build_spec b c h data st Hb Hc Hn Hh Hne Hd Hp)
    as (mt & st' & E & _ & (HR & Hp' & _) & _).
  exists mt, st'. split; [exact E|]. intros n nd Hlo En.
  destruct (computeNodeHash_ok h (length (heap st)) (length (heap st')) st' n nd)
    as (st'' & Hc' & _).
  - intros m md [Hm _] Em. exact (HR m md Hm Em).
  - exact Hp'.
  - split; [exact Hlo|]. eapply lookup_lt_Some; exact En.
  - exact En.
  - rewrite Hc'. reflexivity.
Qed.

Lemma Build_nodes_recompute_witness :
  exists mt st', Build (builder (sha256_hasher true true) 1) items5 initial_state = (Ok (Some mt, None), st') /\
    forall n nd, length (heap initial_state) <= n -> heap st' !! n = Some nd ->
      fst (computeNodeHash (sha256_hasher true true) (Some n) st') = Ok (NHash nd).
Proof.
  apply (Build_nodes_recompute _ (cfg (sha256_hasher true true))).
  - reflexivity.
  - reflexivity.
  - discriminate.
  - left; discriminate.
  - right; reflexivity.
  - discriminate.
  - repeat constructor; apply sha256_StringData_digest32.
  - constructor.
Defined.

(** *** Parent pointers after a build *)

Lemma store_Parent_eff a p st u st' :
  store_Parent a p st = (Ok u, st') ->
  exists an, heap st !! a = Some an /\ heap st' = <[a := set_Parent (Some p) an]> (heap st).
Proof.
  unfold store_Parent. destruct (heap st !! a) as [an|] eqn:Ea; [|discriminate].
  intros [= _ <-]. exists an. split; reflexivity.
Qed.

Lemma store_Parent_at a p st u st' :
  store_Parent a p st = (Ok u, st') ->
  (exists an, heap st' !! a = Some an /\ Parent an = Some p) /\
  (forall i, i <> a -> heap st' !! i = heap st !! i).
Proof.
  intros Hs. destruct (store_Parent_eff a p st u st' Hs) as (an & Ea & ->). split.
  - exists (set_Parent (Some p) an). split; [|reflexivity].
    apply list_lookup_insert_eq. eapply lookup_lt_Some; exact Ea.
  - intros i Hi. apply list_lookup_insert_ne. congruence.
Qed.

Lemma div2_SS k : S (S k) / 2 = S (k / 2).
Proof.
  replace (S (S k)) with (k + 1 * 2) by lia. rewrite Nat.div_add by lia. lia.
Qed.

Lemma pair_level_par h ns st ps st' :
  pair_level h ns st = (Ok ps, st') ->
  Forall (fun a => a < length (heap st)) ns ->
  ps = seq (length (heap st)) (length ps) /\
  (forall i, i < length (heap st) -> i ∉ ns -> heap st' !! i = heap st !! i) /\
  (NoDup ns -> forall k a, ns !! k = Some a ->
     exists nd, heap st' !! a = Some nd /\ Parent nd = ps !! (k / 2)).
Proof.
  revert ns st ps st'. fix IH 1.
  intros [|a [|b rest]] st ps st' Hpl Hin.
  - injection Hpl as <- <-. split; [reflexivity|]. split; [reflexivity|].
    intros _ k a Hk. discriminate.
  - cbn [pair_level] in Hpl.
    apply bind_Ok_inv in Hpl as (p & st1 & N1 & Hpl). apply map_err_Ok_inv in N1.
    destruct (NewParentNode_inv h a a st p st1 N1) as (-> & x & Hh1).
    apply bind_Ok_inv in Hpl as (u & st2 & S2 & Hpl).
    apply bind_Ok_inv in Hpl as (u' & st3 & S3 & Hpl). injection Hpl as <- <-.
    destruct (store_Parent_at _ _ _ _ _ S2) as [_ F2].
    destruct (store_Parent_at _ _ _ _ _ S3) as [(an & Ea & Pa) F3].
    split; [reflexivity|]. split.
    + intros i Hi Hni. rewrite F3, F2 by (intros ->; apply Hni; left).
      rewrite Hh1. apply lookup_app_l, Hi.
    + intros _ [|k] a' Hk; [|destruct k; discriminate].
      injection Hk as <-. exists an. split; [exact Ea|exact Pa].
  - cbn [pair_level] in Hpl.
    apply bind_Ok_inv in Hpl as (p & st1 & N1 & Hpl). apply map_err_Ok_inv in N1.
    destruct (NewParentNode_inv h a b st p st1 N1) as (-> & x & Hh1).
    apply bind_Ok_inv in Hpl as (u & st2 & S2 & Hpl).
    apply bind_Ok_inv in Hpl as (u' & st3 & S3 & Hpl).
    apply bind_Ok_inv in Hpl as (ps' & st4 & P4 & Hpl). injection Hpl as <- <-.
    destruct (store_Parent_at _ _ _ _ _ S2) as [(an & Ea & Pa) F2].
    destruct (store_Parent_at _ _ _ _ _ S3) as [(bn & Eb & Pb) F3].
    destruct (store_Parent_inv _ _ _ _ _ S2) as [_ L2].
    destruct (store_Parent_inv _ _ _ _ _ S3) as [_ L3].
    assert (L1 : length (heap st1) = S (length (heap st))) by (rewrite Hh1, length_app; simpl; lia).
    apply Forall_cons in Hin as [Ha Hin]. apply Forall_cons in Hin as [Hb Hrest].
    destruct (IH rest st3 ps' st4 P4) as (Hseq & F4 & Hpar).
    { eapply Forall_impl; [exact Hrest|]. intros i Hi. cbv beta in *. lia. }
    split; [|split].
    + cbn [length seq]. f_equal. rewrite Hseq at 1. rewrite L3, L2, L1. reflexivity.
    + intros i Hi Hni.
      assert (Hia : i <> a) by (intros ->; apply Hni; left).
      assert (Hib : i <> b) by (intros ->; apply Hni; right; left).
      rewrite F4 by (lia || (intros Hr; apply Hni; right; right; exact Hr)).
      rewrite F3, F2 by assumption. rewrite Hh1. apply lookup_app_l, Hi.
    + intros Hnd. apply NoDup_cons in Hnd as [Hna Hnd]. apply NoDup_cons in Hnd as [Hnb Hnd].
      assert (Hab : a <> b) by (intros ->; apply Hna; left).
      intros [|[|k]] a' Hk.
      * injection Hk as <-. exists an. split; [|exact Pa].
        rewrite F4 by (lia || (intros Hr; apply Hna; right; exact Hr)).
        rewrite F3 by exact Hab. exact Ea.
      * injection Hk as <-. exists bn. split; [|exact Pb].
        rewrite F4 by (lia || exact Hnb). exact Eb.
      * rewrite div2_SS. exact (Hpar Hnd k a' Hk).
Qed.

Lemma seq_not_elem_of lo n i : i < lo -> i ∉ seq lo n.
Proof. intros Hi Hin. apply elem_of_seq in Hin. lia. Qed.

Lemma generateParentNodes_frame fuel mt ns st o st' :
  generateParentNodes fuel mt ns st = (Ok o, st') ->
  Forall (fun a => a < length (heap st)) ns ->
  forall i, i < length (heap st) -> i ∉ ns -> heap st' !! i = heap st !! i.
Proof.
  revert ns st. induction fuel as [|fuel IH]; intros ns st Hg Hin i Hi Hni; [discriminate|].
  cbn [generateParentNodes] in Hg. destruct ns as [|n0 ns0]; [discriminate|].
  remember (n0 :: ns0) as ns eqn:Ens.
  apply bind_Ok_inv in Hg as (h & st0 & Hh & Hg).
  unfold mt_hasher in Hh. destruct (CHasher (Config mt)); [|discriminate].
  injection Hh as -> <-.
  apply bind_Ok_inv in Hg as (ps & st1 & P1 & Hg).
  destruct (pair_level_par h ns st ps st1 P1 Hin) as (Hseq & F1 & _).
  destruct (pair_level_inv h ns st ps st1 P1) as (_ & L1 & _).
  destruct (decide (length ns = 2)).
  - destruct (ns !! 1) as [l|]; [|discriminate].
    apply bind_Ok_inv in Hg as (nd & st2 & Ld & Hg). unfold load in Ld.
    destruct (heap st1 !! l); [|discriminate]. injection Ld as <- <-.
    injection Hg as <- <-. exact (F1 i Hi Hni).
  - rewrite (IH ps st1 Hg).
    + exact (F1 i Hi Hni).
    + rewrite Hseq, Forall_forall. intros q Hq. apply elem_of_seq in Hq. lia.
    + lia.
    + rewrite Hseq. apply seq_not_elem_of, Hi.
Qed.

Lemma generateParentNodes_under fuel mt ns st r st' :
  generateParentNodes fuel mt ns st = (Ok (Some r), st') ->
  NoDup ns -> Forall (fun a => a < length (heap st)) ns ->
  Forall (fun a => under (heap st') a r) ns.
Proof.
  revert ns st. induction fuel as [|fuel IH]; intros ns st Hg Hnd Hin; [discriminate|].
  assert (Hg0 := Hg).
  cbn [generateParentNodes] in Hg. destruct ns as [|n0 ns0]; [discriminate|].
  remember (n0 :: ns0) as ns eqn:Ens.
  apply bind_Ok_inv in Hg as (h & st0 & Hh & Hg).
  unfold mt_hasher in Hh. destruct (CHasher (Config mt)); [|discriminate].
  injection Hh as -> <-.
  apply bind_Ok_inv in Hg as (ps & st1 & P1 & Hg).
  destruct (pair_level_par h ns st ps st1 P1 Hin) as (Hseq & F1 & Hpar).
  specialize (Hpar Hnd).
  destruct (pair_level_inv h ns st ps st1 P1) as (_ & L1 & Lps & _).
  apply Forall_lookup. intros k a Hk.
  destruct (Hpar k a Hk) as (nd & Ea & Pa).
  destruct (decide (length ns = 2)) as [E2|E2].
  - destruct (ns !! 1) as [l|] eqn:El; [|discriminate].
    apply bind_Ok_inv in Hg as (ln & st2 & Ld & Hg). unfold load in Ld.
    destruct (heap st1 !! l) as [ln'|] eqn:Eln; [|discriminate]. injection Ld as <- <-.
    injection Hg as Hr <-.
    destruct (Hpar 1 l El) as (ln'' & Eln'' & Pl). rewrite Eln in Eln''. injection Eln'' as <-.
    apply (under_parent _ a nd r Ea).
    assert (Hk0 : k / 2 = 0).
    { pose proof (lookup_lt_Some _ _ _ Hk). rewrite E2 in *. destruct k as [|[|k]]; [reflexivity|reflexivity|lia]. }
    rewrite Hk0 in Pa. cbn in Pl. congruence.
  - assert (Hps : Forall (fun q => under (heap st') q r) ps).
    { apply (IH ps st1 Hg).
      - rewrite Hseq. apply NoDup_seq.
      - rewrite Hseq, Forall_forall. intros q Hq. apply elem_of_seq in Hq. lia. }
    destruct (lookup_lt_is_Some_2 ps (k / 2)) as [q Eq].
    { pose proof (lookup_lt_Some _ _ _ Hk). rewrite Lps.
      apply Nat.Div0.div_lt_upper_bound.
      assert (Hle : k / 2 * 2 <= k) by (rewrite Nat.mul_comm; apply Nat.Div0.mul_div_le).
      pose proof (Nat.div_mod k 2 ltac:(lia)). pose proof (Nat.mod_upper_bound k 2 ltac:(lia)).
      pose proof (Nat.div_mod (length ns + 1) 2 ltac:(lia)). pose proof (Nat.mod_upper_bound (length ns + 1) 2 ltac:(lia)).
      lia. }
    rewrite Eq in Pa.
    assert (Ha' : heap st' !! a = Some nd).
    { rewrite (generateParentNodes_frame fuel mt ps st1 (Some r) st' Hg).
      - exact Ea.
      - rewrite Hseq, Forall_forall. intros q' Hq. apply elem_of_seq in Hq. lia.
      - rewrite Forall_lookup in Hin. pose proof (Hin k a Hk). lia.
      - rewrite Hseq. apply seq_not_elem_of. rewrite Forall_lookup in Hin. exact (Hin k a Hk). }
    apply (under_step _ a nd q r Ha' Pa).
    rewrite Forall_lookup in Hps. exact (Hps _ q Eq).
Qed.

Lemma generateLeafNodes_nodup h mt data st leaves st1 :
  CHasher (Config mt) = Some h -> data <> [] -> Forall (digest32 h) data ->
  generateLeafNodes mt data st = (Ok leaves, st1) ->
  NoDup leaves /\ Forall (fun a => a < length (heap st1)) leaves.
Proof.
  intros Hc Hne Hd Hg.
  assert (Hd' : Forall (fun d => exists x, Data_Hash d h = Ok x) data).
  { eapply Forall_impl; [exact Hd|]. intros d (x & Hx & _). eauto. }
  destruct (generateLeafNodes_run h mt data st Hc Hne Hd') as (st1' & Hh1 & _ & Hg').
  rewrite Hg in Hg'.
  set (L0 := seq (length (heap st)) (length data + length (padding data))) in *.
  assert (HL0 : Forall (fun a => a < length (heap st1')) L0).
  { apply Forall_forall. intros q Hq. apply elem_of_seq in Hq.
    rewrite Hh1, !length_app, !length_map. lia. }
  destruct (IsSort h).
  - rewrite sort_nodes_run in Hg' by exact HL0. injection Hg' as -> ->.
    assert (Hp : map fst (insertionSort (map (fun i => (i, hash_at (heap st1') i)) L0)) ≡ₚ L0).
    { rewrite insertionSort_perm, map_map. simpl. rewrite map_id. reflexivity. }
    rewrite Hp. split; [apply NoDup_seq|exact HL0].
  - injection Hg' as -> ->. split; [apply NoDup_seq|exact HL0].
Qed.

(** After a build, the parent pointers of every leaf lead up to the root:
    [generateParentNodes] sets the parent of each node of a level to the node
    made from its pair, and the last level's parent is the root it returns. *)
Theorem Build_leaves_reach_root b c h data st :
  config b = Some c -> CHasher c = Some h -> MaxGoroutine c <> 0%N ->
  hasher_ok h -> data <> [] -> Forall (digest32 h) data -> pool_ok st ->
  exists mt st' r, Build b data st = (Ok (Some mt, None), st') /\ Root mt = Some r /\
    Forall (fun l => under (heap st') l r) (Leaves mt).
Proof.
  intros Hb Hc Hn Hh Hne Hd Hp.
  set (mt := {| Root := None; Leaves := []; Config := c |}).
  set (lo := length (heap st)).
  destruct (generateLeafNodes_spec h lo mt data st Hc (build_ok_start h st Hp) Hne Hd)
    as (leaves & st1 & Hgl & Hok1 & _ & _ & Hreg1 & Hmap1).
  destruct (generateLeafNodes_nodup h mt data st leaves st1 Hc Hne Hd Hgl) as [Hnd Hlt].
  assert (Hlen : length leaves = length (pure_leaves h data)).
  { rewrite <- Hmap1, length_map. reflexivity. }
  pose proof (padding_length data Hne) as H2. rewrite <- (pure_leaves_length h) in H2.
  destruct (generateParentNodes_spec h lo mt (length leaves) leaves st1 Hh Hc Hok1 Hreg1
              ltac:(lia)) as (r & st2 & Hgp & _).
  exists {| Root := Some r; Leaves := leaves; Config := c |}, st2, r. split.
  { unfold Build. rewrite Hb, Hc, decide_False by exact Hn.
    destruct data as [|d0 data']; [congruence|]. fold mt.
    rewrite Hgl, Hgp. reflexivity. }
  split; [reflexivity|]. cbn [Leaves].
  exact (generateParentNodes_under _ _ _ _ _ _ Hgp Hnd Hlt).
Qed.

Lemma Build_leaves_reach_root_witness :
  exists mt st' r, Build (builder (sha256_hasher false true) 1) items5 initial_state = (Ok (Some mt, None), st') /\
    Root mt = Some r /\ Forall (fun l => under (heap st') l r) (Leaves mt).
Proof.
  apply (Build_leaves_reach_root _ (cfg (sha256_hasher false true)) (sha256_hasher false true)).
  - reflexivity.
  - reflexivity.
  - discriminate.
  - left; discriminate.
  - discriminate.
  - repeat constructor; digest32_tac.
  - constructor.
Defined.

(** *** Pairing goroutines that share a concat buffer *)

Lemma roots_check_inv a b c : roots_check a b c = true ->
  exists r1 r2, a = Some r1 /\ b = Some r2 /\ r1 <> r2 /\ c = Ok (Some r1, None).
Proof.
  destruct a as [r1|], b as [r2|], c as [[[r3|] [e|]]| | |]; simpl; try discriminate.
  rewrite andb_true_iff, negb_true_iff. intros [H12 H13].
  apply bytes_Equal_eq in H13. subst r3. exists r1, r2. split; [reflexivity|]. split; [reflexivity|].
  split; [|reflexivity]. intros ->. now rewrite bytes_Equal_refl in H12.
Qed.

Lemma check_rtree_inv P r : check_rtree P r = true ->
  exists mt s, r = Some (Ok (Some mt, None), s) /\ P mt s = true.
Proof. destruct r as [[[[[mt|] [e|]]| | |] s]|]; simpl; try discriminate. eauto. Qed.

Lemma verify_is_false_inv d mt s : verify_is_false d mt s = true ->
  fst (Verify mt d (rst s)) = Ok false.
Proof. unfold verify_is_false. destruct (fst (Verify mt d (rst s))) as [[|]| | |]; congruence. Qed.

(** C9 (code bug). The same build, sha256 with a buffer pool, two
    goroutines at most and the items ["value1"; "value2"; "value3";
    "value1"], under two schedules the goroutines can take: one goroutine
    after the other gives the root of [Build]; when the second pairing
    goroutine takes the concat buffer the first one has put back and fills
    it before the first one hashes it, the first parent digest is computed
    from the wrong bytes and the root differs. *)
Theorem Build_root_race :
  exists r1 r2,
    rroot_digest (Build_sched [] (builder (sha256_hasher false true) 2) items4 initial_state) = Some r1 /\
    rroot_digest (Build_sched race_sched (builder (sha256_hasher false true) 2) items4 initial_state) = Some r2 /\
    r1 <> r2 /\
    root_digest (Build (builder (sha256_hasher false true) 2) items4 initial_state) = Ok (Some r1, None).
Proof.
  refine (roots_check_inv
    (rroot_digest (Build_sched [] (builder (sha256_hasher false true) 2) items4 initial_state))
    (rroot_digest (Build_sched race_sched (builder (sha256_hasher false true) 2) items4 initial_state))
    (root_digest (Build (builder (sha256_hasher false true) 2) items4 initial_state)) _).
  vm_refl.
Qed.

(** The tree of the racy schedule fails its own check: [Verify] on the
    first item recomputes the first parent from its children and returns
    [false]. *)
Lemma Build_race_Verify_false :
  exists mt s,
    Build_sched race_sched (builder (sha256_hasher false true) 2) items4 initial_state =
      Some (Ok (Some mt, None), s) /\
    fst (Verify mt (StringData "value1") (rst s)) = Ok false.
Proof.
  destruct (check_rtree_inv (verify_is_false (StringData "value1"))
              (Build_sched race_sched (builder (sha256_hasher false true) 2) items4 initial_state))
    as (mt & s & E & C); [vm_refl|].
  exists mt, s. split; [exact E|]. exact (verify_is_false_inv _ _ _ C).
Qed.

(** *** The goroutines of a level, under every schedule *)

Lemma rbind_Ok_inv {A B} (m : R A) (k : A -> R B) s v s' :
  rbind m k s = Some (Ok v, s') -> exists a s1, m s = Some (Ok a, s1) /\ k a s1 = Some (Ok v, s').
Proof. unfold rbind. destruct (m s) as [[[a|e|msg|] s1]|]; try discriminate. eauto. Qed.

Lemma rM_Ok_inv {A} (m : M A) s v s' :
  rM m s = Some (Ok v, s') ->
  m (rst s) = (Ok v, rst s') /\ rbufs s' = rbufs s /\ rpool s' = rpool s /\
  phases s' = phases s /\ rnodes s' = rnodes s.
Proof. unfold rM. destruct (m (rst s)) as [o st']. intros [= -> <-]. cbn. auto. Qed.

Lemma pair_children_Ok_inv ns c s ab s' :
  pair_children ns c s = Some (Ok ab, s') ->
  s' = s /\ ns !! (2 * c) = Some (fst ab) /\ ns !! right_child ns c = Some (snd ab).
Proof.
  unfold pair_children, right_child.
  destruct (ns !! (2 * c)) as [a|], (ns !! _) as [b|]; unfold rret, rpanic; try discriminate.
  intros [= <- <-]. auto.
Qed.

Lemma count_some_insert l c q :
  l !! c = Some None -> count_some (<[c := Some q]> l) = S (count_some l).
Proof.
  unfold count_some. revert c. induction l as [|o l IH]; intros [|c] Hc; simpl in *; try discriminate.
  - injection Hc as ->. reflexivity.
  - destruct o; simpl; rewrite IH by exact Hc; reflexivity.
Qed.

Lemma count_some_all l ps : Forall2 (fun o p => o = Some p) l ps -> count_some l = length ps.
Proof.
  intros Hm. unfold count_some.
  induction Hm as [|o p l ps Ho _ IH]; [reflexivity|]. subst o. simpl. lia.
Qed.

(** A goroutine that has not returned has not stored its node. *)
Lemma sched_inv_not_done ns k lo s c g :
  sched_inv ns k lo s -> phases s !! c = Some g -> g <> GDone -> rnodes s !! c = Some None.
Proof.
  intros (Lp & Ln & Hd & _ & _) Hg Hne.
  assert (Hc : c < length (rnodes s)) by (rewrite Ln, <- Lp; eapply lookup_lt_Some; exact Hg).
  destruct (lookup_lt_is_Some_2 _ _ Hc) as [[q|] Hq]; [|exact Hq].
  exfalso. apply Hne. enough (Some g = Some GDone) by congruence.
  rewrite <- Hg. apply Hd. eauto.
Qed.

(** The effect of a goroutine's last step: a node [q] with children
    [a] and [b] appended, parent pointers set, [nodes[c] = q]. *)
Lemma sched_inv_done ns k lo s s' c q pn a b :
  sched_inv ns k lo s -> rnodes s !! c = Some None ->
  length (heap (rst s')) = S (length (heap (rst s))) -> q = length (heap (rst s)) ->
  grows (heap (rst s)) (heap (rst s')) ->
  heap (rst s') !! q = Some pn -> Left pn = Some a -> Right pn = Some b ->
  ns !! (2 * c) = Some a -> ns !! right_child ns c = Some b ->
  phases s' = <[c := GDone]> (phases s) -> rnodes s' = <[c := Some q]> (rnodes s) ->
  sched_inv ns k lo s'.
Proof.
  intros (Lp & Ln & Hd & Hl & Hn) Hc L' -> G' Epn La Lb Ha Hb Ep En.
  unfold sched_inv. rewrite Ep, En.
  assert (Hck : c < length (rnodes s)) by (eapply lookup_lt_Some; exact Hc).
  split; [rewrite length_insert; exact Lp|]. split; [rewrite length_insert; exact Ln|].
  split; [|split; [rewrite count_some_insert by exact Hc; lia|]].
  - intros c'. destruct (decide (c' = c)) as [->|Hne].
    + rewrite !list_lookup_insert_eq by lia. split; eauto.
    + rewrite !list_lookup_insert_ne by congruence. apply Hd.
  - intros c' q'. destruct (decide (c' = c)) as [->|Hne].
    + rewrite list_lookup_insert_eq by lia. intros [= <-]. eauto 10.
    + rewrite list_lookup_insert_ne by congruence. intros Hq'.
      destruct (Hn c' q' Hq') as (pn' & a' & b' & E & La' & Lb' & Ha' & Hb').
      destruct (grows_lookup _ _ _ _ G' E) as (y & Ey & Hv). apply view_eq in Hv as (Ly & Ry & _).
      exists y, a', b'. rewrite Ly, Ry. auto.
Qed.

Lemma rGet_Ok_inv pick s cb s' : rGet pick s = Some (Ok cb, s') -> rframe s s'.
Proof.
  unfold rGet, rframe. destruct pick as [i|]; [destruct (rpool s !! i)|];
    intros [= _ <-]; cbn; auto.
Qed.

Lemma rload_buf_Ok_inv cb s arr s' : rload_buf cb s = Some (Ok arr, s') -> s' = s.
Proof. unfold rload_buf. destruct (rbufs s !! cb); congruence. Qed.

Lemma rstore_buf_Ok_inv cb arr s u s' : rstore_buf cb arr s = Some (Ok u, s') -> rframe s s'.
Proof. unfold rstore_buf, rframe. intros [= _ <-]. cbn. auto. Qed.

Lemma rPut_Ok_inv cb s u s' : rPut cb s = Some (Ok u, s') -> rframe s s'.
Proof. unfold rPut, rframe. intros [= _ <-]. cbn. auto. Qed.

Lemma set_phase_Ok_inv c g s u s' : set_phase c g s = Some (Ok u, s') ->
  rst s' = rst s /\ phases s' = <[c := g]> (phases s) /\ rnodes s' = rnodes s.
Proof. unfold set_phase. intros [= _ <-]. cbn. auto. Qed.

Lemma set_node_Ok_inv c q s u s' : set_node c q s = Some (Ok u, s') ->
  rst s' = rst s /\ phases s' = phases s /\ rnodes s' = <[c := Some q]> (rnodes s).
Proof. unfold set_node. intros [= _ <-]. cbn. auto. Qed.

Lemma rM_load_inv p s n s' : rM (load p) s = Some (Ok n, s') -> rframe s s'.
Proof.
  intros H. apply rM_Ok_inv in H as (L & _ & _ & Ep & En). unfold load in L.
  destruct (heap (rst s) !! p); [injection L as _ E|discriminate]. unfold rframe. auto.
Qed.

Lemma rM_store_Parent_inv a q s u s' : rM (store_Parent a q) s = Some (Ok u, s') ->
  grows (heap (rst s)) (heap (rst s')) /\ length (heap (rst s')) = length (heap (rst s)) /\
  phases s' = phases s /\ rnodes s' = rnodes s.
Proof.
  intros H. apply rM_Ok_inv in H as (L & _ & _ & Ep & En).
  destruct (store_Parent_inv _ _ _ _ _ L). auto.
Qed.

(** A step that does not finish its goroutine: the arena and [nodes] are
    as they were, the goroutine moves to a phase before its return. *)
Lemma sched_inv_phase ns k lo s s' c g g' :
  sched_inv ns k lo s -> phases s !! c = Some g -> g <> GDone -> g' <> GDone ->
  heap (rst s') = heap (rst s) -> rnodes s' = rnodes s ->
  phases s' = <[c := g']> (phases s) -> sched_inv ns k lo s'.
Proof.
  intros Hi Hg Hne Hne' Eh En Ep.
  pose proof (sched_inv_not_done _ _ _ _ _ _ Hi Hg Hne) as Hc.
  destruct Hi as (Lp & Ln & Hd & Hl & Hn).
  unfold sched_inv. rewrite Eh, En, Ep.
  split; [rewrite length_insert; exact Lp|]. split; [exact Ln|].
  split; [|split; [exact Hl|exact Hn]].
  intros c'. destruct (decide (c' = c)) as [->|Hc'].
  - rewrite list_lookup_insert_eq by (eapply lookup_lt_Some; exact Hg). rewrite Hc.
    split; [congruence|]. intros (q & [=]).
  - rewrite list_lookup_insert_ne by congruence. apply Hd.
Qed.

Lemma gstep_inv h m ns k lo c pick s u s' :
  sched_inv ns k lo s -> gstep h m ns c pick s = Some (Ok u, s') -> sched_inv ns k lo s'.
Proof.
  intros Hi. unfold gstep. destruct (started m c (phases s)); [|discriminate].
  destruct (phases s !! c) as [g|] eqn:Eg; [|destruct (Pool h); discriminate].
  destruct g as [|cb|], (Pool h) as [p|]; try discriminate; intros H.
  - (* first step of a pooled goroutine *)
    unfold pooled_concat_step in H.
    apply rbind_Ok_inv in H as (ab & s1 & P1 & H). apply pair_children_Ok_inv in P1 as (-> & _ & _).
    apply rbind_Ok_inv in H as (ln & s2 & L2 & H). apply rM_load_inv in L2 as (R2 & P2 & N2).
    apply rbind_Ok_inv in H as (rn & s3 & L3 & H). apply rM_load_inv in L3 as (R3 & P3 & N3).
    apply rbind_Ok_inv in H as (cb & s4 & L4 & H). apply rGet_Ok_inv in L4 as (R4 & P4 & N4).
    apply rbind_Ok_inv in H as (arr & s5 & L5 & H). apply rload_buf_Ok_inv in L5 as ->.
    apply rbind_Ok_inv in H as (filled & s6 & L6 & H).
    cbv beta in L6. injection L6 as _ <-.
    apply rbind_Ok_inv in H as (u7 & s7 & L7 & H). apply rstore_buf_Ok_inv in L7 as (R7 & P7 & N7).
    apply rbind_Ok_inv in H as (u8 & s8 & L8 & H). apply rPut_Ok_inv in L8 as (R8 & P8 & N8).
    apply set_phase_Ok_inv in H as (R9 & P9 & N9).
    apply (sched_inv_phase ns k lo s s' c GStart (GWrite cb)); try assumption; try discriminate.
    + congruence.
    + congruence.
    + rewrite P9, P8, P7, P4, P3, P2. reflexivity.
  - (* a goroutine without pool *)
    unfold plain_step in H.
    apply rbind_Ok_inv in H as (ab & s1 & P1 & H). apply pair_children_Ok_inv in P1 as (-> & Ha & Hb).
    apply rbind_Ok_inv in H as (q & s2 & L2 & H). apply rM_Ok_inv in L2 as (L2 & _ & _ & P2 & N2).
    apply map_err_Ok_inv, NewParentNode_inv in L2 as (Eq & x & Hh2).
    apply rbind_Ok_inv in H as (u3 & s3 & L3 & H). apply rM_store_Parent_inv in L3 as (G3 & Ln3 & P3 & N3).
    apply rbind_Ok_inv in H as (u4 & s4 & L4 & H). apply rM_store_Parent_inv in L4 as (G4 & Ln4 & P4 & N4).
    apply rbind_Ok_inv in H as (u5 & s5 & L5 & H). apply set_node_Ok_inv in L5 as (R5 & P5 & N5).
    apply set_phase_Ok_inv in H as (R6 & P6 & N6).
    assert (E2 : heap (rst s2) !! q = Some {| Parent := None; Left := Some (fst ab); Right := Some (snd ab);
              isOrphan := false; NHash := x; NData := None |})
      by (rewrite Hh2, Eq; apply list_lookup_middle; reflexivity).
    assert (G : grows (heap (rst s2)) (heap (rst s'))) by (rewrite R6, R5; exact (grows_trans _ _ _ G3 G4)).
    destruct (grows_lookup _ _ _ _ G E2) as (pn & Epn & Hv). apply view_eq in Hv as (Lp & Rp & _).
    apply (sched_inv_done ns k lo s s' c q pn (fst ab) (snd ab)); try assumption.
    + exact (sched_inv_not_done _ _ _ _ _ _ Hi Eg ltac:(discriminate)).
    + rewrite R6, R5, Ln4, Ln3, Hh2, length_app. simpl. lia.
    + apply (grows_trans _ (heap (rst s2))); [rewrite Hh2; apply grows_app|exact G].
    + rewrite P6, P5, P4, P3, P2. reflexivity.
    + rewrite N6, N5, N4, N3, N2. reflexivity.
  - (* second step of a pooled goroutine *)
    unfold pooled_write_step in H.
    apply rbind_Ok_inv in H as (ab & s1 & P1 & H). apply pair_children_Ok_inv in P1 as (-> & Ha & Hb).
    apply rbind_Ok_inv in H as (arr & s2 & L2 & H). apply rload_buf_Ok_inv in L2 as ->.
    apply rbind_Ok_inv in H as (u3 & s3 & L3 & H). apply rM_Ok_inv in L3 as (L3 & _ & _ & P3 & N3).
    unfold tick in L3. injection L3 as _ R3.
    apply rbind_Ok_inv in H as (q & s4 & L4 & H). apply rM_Ok_inv in L4 as (L4 & _ & _ & P4 & N4).
    unfold alloc in L4. injection L4 as Eq R4.
    apply rbind_Ok_inv in H as (u5 & s5 & L5 & H). apply rM_store_Parent_inv in L5 as (G5 & Ln5 & P5 & N5).
    apply rbind_Ok_inv in H as (u6 & s6 & L6 & H). apply rM_store_Parent_inv in L6 as (G6 & Ln6 & P6 & N6).
    apply rbind_Ok_inv in H as (u7 & s7 & L7 & H). apply set_node_Ok_inv in L7 as (R7 & P7 & N7).
    apply set_phase_Ok_inv in H as (R8 & P8 & N8).
    assert (Hh4 : heap (rst s4) = heap (rst s) ++ [{| Parent := None; Left := Some (fst ab);
              Right := Some (snd ab); isOrphan := false;
              NHash := crypto_New (pool_hash p) arr; NData := None |}])
      by (rewrite <- R4, <- R3; reflexivity).
    assert (Eq' : q = length (heap (rst s))) by (rewrite <- Eq, <- R3; reflexivity).
    assert (E4 : heap (rst s4) !! q = Some {| Parent := None; Left := Some (fst ab);
              Right := Some (snd ab); isOrphan := false;
              NHash := crypto_New (pool_hash p) arr; NData := None |})
      by (rewrite Hh4, Eq'; apply list_lookup_middle; reflexivity).
    assert (G : grows (heap (rst s4)) (heap (rst s'))) by (rewrite R8, R7; exact (grows_trans _ _ _ G5 G6)).
    destruct (grows_lookup _ _ _ _ G E4) as (pn & Epn & Hv). apply view_eq in Hv as (Lp & Rp & _).
    apply (sched_inv_done ns k lo s s' c q pn (fst ab) (snd ab)); try assumption.
    + exact (sched_inv_not_done _ _ _ _ _ _ Hi Eg ltac:(discriminate)).
    + rewrite R8, R7, Ln6, Ln5, Hh4, length_app. simpl. lia.
    + apply (grows_trans _ (heap (rst s4))); [rewrite Hh4; apply grows_app|exact G].
    + rewrite P8, P7, P6, P5, P4, P3. reflexivity.
    + rewrite N8, N7, N6, N5, N4, N3. reflexivity.
Qed.

Lemma run_steps_inv h m ns k lo sched s u s' :
  sched_inv ns k lo s -> run_steps h m ns sched s = Some (Ok u, s') -> sched_inv ns k lo s'.
Proof.
  revert s. induction sched as [|[c pick] rest IH]; intros s Hi H; cbn [run_steps] in H.
  - unfold rret in H. injection H as _ <-. exact Hi.
  - apply rbind_Ok_inv in H as (u1 & s1 & G1 & H).
    exact (IH s1 (gstep_inv _ _ _ _ _ _ _ _ _ _ Hi G1) H).
Qed.

Lemma count_some_repeat_None k : count_some (repeat None k) = 0.
Proof. unfold count_some. induction k; simpl; auto. Qed.

Lemma sched_inv_start ns k s :
  sched_inv ns k (length (heap (rst s)))
    {| rst := rst s; rbufs := rbufs s; rpool := rpool s;
       phases := repeat GStart k; rnodes := repeat None k |}.
Proof.
  assert (Hn : forall c q, repeat (@None nat) k !! c <> Some (Some q)).
  { intros c q. destruct (decide (c < k)).
    - rewrite lookup_repeat_lt by assumption. discriminate.
    - rewrite lookup_ge_None_2 by (rewrite repeat_length; lia). discriminate. }
  unfold sched_inv; cbn [phases rnodes rst]. rewrite !repeat_length, count_some_repeat_None.
  split; [reflexivity|]. split; [reflexivity|]. split; [|split; [lia|]].
  - intros c. split; [|intros (q & Hq); exfalso; exact (Hn c q Hq)].
    destruct (decide (c < k)).
    + rewrite lookup_repeat_lt by assumption. discriminate.
    + rewrite lookup_ge_None_2 by (rewrite repeat_length; lia). discriminate.
  - intros c q Hq. exfalso. exact (Hn c q Hq).
Qed.

Lemma pair_level_sched_inv h m ns sched s ps s' :
  pair_level_sched h m ns sched s = Some (Ok ps, s') ->
  sched_inv ns (length ns / 2 + (if Nat.odd (length ns) then 1 else 0)) (length (heap (rst s))) s' /\
  Forall (fun g => g = GDone) (phases s') /\ Forall2 (fun o p => o = Some p) (rnodes s') ps.
Proof.
  unfold pair_level_sched. set (k := length ns / 2 + _). intros H.
  destruct (run_steps _ _ _ _ _) as [[[u|e|msg|] s1]|] eqn:Er; try discriminate.
  destruct (forallb _ (phases s1)) eqn:Ef; [|discriminate].
  destruct (mapM id (rnodes s1)) as [ps'|] eqn:Em; [|discriminate]. injection H as <- <-.
  split; [exact (run_steps_inv _ _ _ _ _ _ _ _ _ (sched_inv_start ns k s) Er)|].
  split; [|exact (mapM_Some_1 _ _ _ Em)].
  apply Forall_forall. intros g Hg. rewrite forallb_forall in Ef.
  apply list_elem_of_In, Ef in Hg. destruct g; simpl in Hg; congruence.
Qed.

Lemma pair_level_sched_odd h m ns sched s ps s' :
  Nat.odd (length ns) = true -> pair_level_sched h m ns sched s = Some (Ok ps, s') ->
  length ps = (length ns + 1) / 2 /\ length (heap (rst s')) = length (heap (rst s)) + length ps /\
  exists p pn a, last ps = Some p /\ last ns = Some a /\ heap (rst s') !! p = Some pn /\
    Left pn = Some a /\ Right pn = Some a.
Proof.
  intros Ho H. destruct (pair_level_sched_inv _ _ _ _ _ _ _ H) as ((Lp & Ln & Hd & Hl & Hn) & Hdone & F2).
  rewrite Ho in Lp, Ln.
  destruct (proj1 (Nat.odd_spec _) Ho) as [j Hj].
  assert (Hk : length ns / 2 + 1 = j + 1).
  { rewrite Hj. replace (2 * j + 1) with (1 + j * 2) by lia. rewrite Nat.div_add by lia. simpl. lia. }
  pose proof (Forall2_length _ _ _ F2) as Lps.
  assert (Hlen : length ps = j + 1) by lia.
  split; [rewrite Hlen, Hj; replace (2 * j + 1 + 1) with ((j + 1) * 2) by lia; rewrite Nat.div_mul by lia; reflexivity|].
  split; [rewrite Hl, (count_some_all _ _ F2); reflexivity|].
  destruct (lookup_lt_is_Some_2 (phases s') j) as [g Hg]; [lia|].
  pose proof (Forall_lookup_1 _ _ _ _ Hdone Hg) as ->.
  destruct (proj1 (Hd j) Hg) as [q Hq].
  destruct (Hn j q Hq) as (pn & a & b & Epn & La & Lb & Ha & Hb).
  unfold right_child in Hb. rewrite decide_True in Hb by lia. rewrite Ha in Hb. injection Hb as <-.
  destruct (Forall2_lookup_l _ _ _ _ _ F2 Hq) as (q' & Hq' & [= <-]).
  exists q, pn, a. split; [rewrite last_lookup, Hlen; replace (pred (j + 1)) with j by lia; exact Hq'|].
  split; [rewrite last_lookup, Hj; replace (pred (2 * j + 1)) with (2 * j) by lia; exact Ha|].
  auto.
Qed.

Lemma generateLeafNodes_padding_sorted mt h data st :
  CHasher (Config mt) = Some h -> IsSort h = true -> Nat.odd (length data) = true ->
  Forall (fun d => exists x, Data_Hash d h = Ok x) data ->
  exists leaves st', generateLeafNodes mt data st = (Ok leaves, st') /\
    length leaves = length data + 1 /\ NoDup leaves /\
    Sorted byte_le (map (hash_at (heap st')) leaves) /\
    exists l nd d l' nd', last data = Some d /\ l ∈ leaves /\ l' ∈ leaves /\
      heap st' !! l = Some nd /\ isOrphan nd = true /\ NData nd = Some d /\
      heap st' !! l' = Some nd' /\ isOrphan nd' = false /\ NData nd' = Some d.
Proof.
  intros Hc Hs Ho Hd.
  assert (Hne : data <> []) by (intros ->; discriminate).
  destruct (generateLeafNodes_run h mt data st Hc Hne Hd) as (st1 & Hh1 & _ & Hg).
  destruct (last data) as [dl|] eqn:El; [|apply last_None in El; contradiction].
  assert (Hpad : padding data = [dl]) by (unfold padding; now rewrite Ho, El).
  rewrite Hpad, Hs in *. cbn [length] in Hg.
  set (j := length (heap st)) in *.
  assert (Hlen1 : length (heap st1) = j + (length data + 1))
    by (rewrite Hh1, !length_app, !length_map; simpl; unfold j; lia).
  assert (Hb : Forall (fun i => i < length (heap st1)) (seq j (length data + 1))).
  { apply Forall_forall. intros i Hi. apply elem_of_seq in Hi. lia. }
  rewrite (sort_nodes_run _ _ Hb) in Hg.
  set (L := map (fun i => (i, hash_at (heap st1) i)) (seq j (length data + 1))) in Hg.
  assert (Hp : map fst (insertionSort L) ≡ₚ seq j (length data + 1)).
  { rewrite (insertionSort_perm L). subst L. rewrite map_map.
    rewrite (map_ext _ (fun x => x)) by reflexivity. rewrite map_id. reflexivity. }
  assert (Hlen : length data <> 0) by (destruct data; [congruence|discriminate]).
  pose proof (last_lookup data) as Hld. rewrite El in Hld.
  exists (map fst (insertionSort L)), st1. split; [exact Hg|].
  split; [rewrite Hp; apply length_seq|]. split; [rewrite Hp; apply NoDup_seq|].
  split; [subst L; rewrite sorted_hashes; apply sorted_map_snd, insertionSort_sorted|].
  exists (j + length data), (leaf_node dl (digest h dl) true), dl,
         (j + (length data - 1)), (leaf_node dl (digest h dl) false).
  split; [reflexivity|].
  split; [rewrite Hp; apply elem_of_seq; lia|]. split; [rewrite Hp; apply elem_of_seq; lia|].
  split; [rewrite Hh1, app_assoc; apply list_lookup_middle; rewrite length_app, length_map; reflexivity|].
  split; [reflexivity|]. split; [reflexivity|].
  split; [|split; reflexivity].
  rewrite Hh1, lookup_app_r by lia. rewrite lookup_app_l by (rewrite length_map; lia).
  assert (Ej : j + (length data - 1) - length (heap st) = pred (length data)) by (unfold j; lia).
  rewrite list_lookup_fmap, Ej, <- Hld. reflexivity.
Qed.

Lemma ris_ok_inv {A} (r : option (outcome A * RSt)) : ris_ok r = true -> exists a s, r = Some (Ok a, s).
Proof. destruct r as [[[a| | |] s]|]; simpl; try discriminate. eauto. Qed.

(** C3 (amended). For an odd number [n] of items that all hash,
    [generateLeafNodes] returns [n+1] pairwise distinct leaf indices. Among
    them are a node with the padding flag set that holds the last item and
    a node without the flag that holds the same item. With the pairing-sort
    flag off the padding node is the last leaf and the other one sits at
    position [n-1]; with it on the leaves are ordered by digest after the
    padding, so the padding node need not be last. For an internal level
    with an odd number of nodes, under every schedule of its goroutines and
    every [MaxGoroutine], [nodes] has [(n+1)/2] entries, exactly that many
    new nodes are allocated, and the last parent's left and right child are
    both the last node of the level. *)
Theorem odd_padding_and_self_pairing :
  (forall mt h data st, CHasher (Config mt) = Some h ->
     Nat.odd (length data) = true -> Forall (fun d => exists x, Data_Hash d h = Ok x) data ->
     exists leaves st', generateLeafNodes mt data st = (Ok leaves, st') /\
       length leaves = length data + 1 /\ NoDup leaves /\
       exists l nd d l' nd', last data = Some d /\ l ∈ leaves /\ l' ∈ leaves /\
         heap st' !! l = Some nd /\ isOrphan nd = true /\ NData nd = Some d /\
         heap st' !! l' = Some nd' /\ isOrphan nd' = false /\ NData nd' = Some d /\
         (IsSort h = false -> last leaves = Some l /\ leaves !! (length data - 1) = Some l') /\
         (IsSort h = true -> Sorted byte_le (map (hash_at (heap st')) leaves))) /\
  (forall h m ns sched s ps s', Nat.odd (length ns) = true ->
     pair_level_sched h m ns sched s = Some (Ok ps, s') ->
     length ps = (length ns + 1) / 2 /\ length (heap (rst s')) = length (heap (rst s)) + length ps /\
     exists p pn a, last ps = Some p /\ last ns = Some a /\ heap (rst s') !! p = Some pn /\
       Left pn = Some a /\ Right pn = Some a).
Proof.
  split; [|intros h m ns sched s ps s'; apply pair_level_sched_odd].
  intros mt h data st Hc Ho Hd. destruct (IsSort h) eqn:Hs.
  - destruct (generateLeafNodes_padding_sorted mt h data st Hc Hs Ho Hd)
      as (leaves & st' & G & L & N & S & l & nd & d & l' & nd' & Ed & Il & Il' & E1 & O1 & D1 & E2 & O2 & D2).
    exists leaves, st'. do 3 (split; [assumption|]).
    exists l, nd, d, l', nd'. do 9 (split; [assumption|]). split; [discriminate|]. intros _. exact S.
  - destruct (generateLeafNodes_padding mt h data st Hc Hs Ho Hd)
      as (leaves & st' & G & L & N & l & nd & d & l' & nd' & Ll & Ed & E1 & O1 & D1 & Ll' & E2 & O2 & D2).
    exists leaves, st'. do 3 (split; [assumption|]).
    exists l, nd, d, l', nd'. split; [exact Ed|].
    split; [eapply last_Some_elem_of; exact Ll|]. split; [eapply list_elem_of_lookup_2; exact Ll'|].
    do 6 (split; [assumption|]). split; [intros _; split; assumption|]. discriminate.
Qed.

(** Instances of C3: three items with the pairing-sort flag on, and a level
    of three nodes under the schedule of [race_sched]. *)
Lemma odd_padding_and_self_pairing_witness :
  (exists leaves st', generateLeafNodes (tree1 (sha256_hasher true false) []) items3 initial_state = (Ok leaves, st') /\
     length leaves = length items3 + 1 /\ NoDup leaves /\
     exists l nd d l' nd', last items3 = Some d /\ l ∈ leaves /\ l' ∈ leaves /\
       heap st' !! l = Some nd /\ isOrphan nd = true /\ NData nd = Some d /\
       heap st' !! l' = Some nd' /\ isOrphan nd' = false /\ NData nd' = Some d /\
       (IsSort (sha256_hasher true false) = false ->
          last leaves = Some l /\ leaves !! (length items3 - 1) = Some l') /\
       (IsSort (sha256_hasher true false) = true -> Sorted byte_le (map (hash_at (heap st')) leaves))) /\
  (exists ps s', pair_level_sched (sha256_hasher false true) 2%N [0; 1; 2]
                   (Some [(0, None); (1, Some 0); (0, None); (1, None)])
                   (rstart (arena (sha256_hasher false true) ["a"; "b"; "c"]%string)) = Some (Ok ps, s') /\
     length ps = (length [0; 1; 2] + 1) / 2 /\
     length (heap (rst s')) = length (heap (rst (rstart (arena (sha256_hasher false true) ["a"; "b"; "c"]%string)))) + length ps /\
     exists p pn a, last ps = Some p /\ last [0; 1; 2] = Some a /\ heap (rst s') !! p = Some pn /\
       Left pn = Some a /\ Right pn = Some a).
Proof.
  split.
  - apply (proj1 odd_padding_and_self_pairing (tree1 (sha256_hasher true false) []) (sha256_hasher true false)
             items3 initial_state); [reflexivity|reflexivity|].
    repeat constructor; eexists; reflexivity.
  - destruct (ris_ok_inv (pair_level_sched (sha256_hasher false true) 2%N [0; 1; 2]
                   (Some [(0, None); (1, Some 0); (0, None); (1, None)])
                   (rstart (arena (sha256_hasher false true) ["a"; "b"; "c"]%string))))
      as (ps & s' & E); [vm_refl|].
    exists ps, s'. split; [exact E|].
    exact (proj2 odd_padding_and_self_pairing _ _ [0; 1; 2] _ _ _ _ eq_refl E).
Defined.

Lemma hashConcat_unpooled h l r st :
  Pool h = None -> length l = 32 -> length r = 32 -> fst (hashConcat h l r st) = comb h l r.
Proof.
  intros Hp Hl Hr. unfold hashConcat, comb. rewrite Hp.
  destruct (sort_pair_length (IsSort h) l r Hl Hr) as [Hx _].
  unfold bind, lift, concat, tick, ret.
  destruct (HashFunc (HHash h)) as [f|e|m|]; cbn -[new_buffer buffer_len]; try reflexivity.
  rewrite concat_fill_32 by (reflexivity || assumption).
  destruct new_buffer_ok as [_ Hnd]. rewrite Hnd. reflexivity.
Qed.

Lemma NewParentNode_digest h a b st p st' :
  NewParentNode h a b st = (Ok p, st') ->
  exists an bn x, heap st !! a = Some an /\ heap st !! b = Some bn /\
    fst (hashConcat h (NHash an) (NHash bn) st) = Ok x /\ p = length (heap st) /\
    heap st' = heap st ++
      [{| Parent := None; Left := Some a; Right := Some b; isOrphan := false; NHash := x;
          NData := None |}].
Proof.
  unfold NewParentNode. intros H1.
  apply bind_Ok_inv in H1 as (an & st1 & L1 & H1). unfold load in L1.
  destruct (heap st !! a) as [an'|] eqn:Ea; [injection L1 as <- <-|discriminate].
  apply bind_Ok_inv in H1 as (bn & st2 & L2 & H2). unfold load in L2.
  destruct (heap st !! b) as [bn'|] eqn:Eb; [injection L2 as <- <-|discriminate].
  apply bind_Ok_inv in H2 as (x & st3 & L3 & H3).
  pose proof (keeps_heap_hashConcat _ _ _ _ _ _ L3) as E3.
  unfold alloc in H3. injection H3 as <- <-. exists an', bn', x. rewrite L3, E3. cbn. auto.
Qed.

Lemma gstep_digest h m ns H0 c pick s u s' :
  Pool h = None -> Forall (fun a => length (hash_at H0 a) = 32) ns ->
  digest_inv h ns H0 s -> gstep h m ns c pick s = Some (Ok u, s') -> digest_inv h ns H0 s'.
Proof.
  intros Hp H32 (G & Hn). unfold gstep. rewrite Hp.
  destruct (started m c (phases s)); [|discriminate].
  destruct (phases s !! c) as [[| |]|]; try discriminate. intros H.
  unfold plain_step in H.
  apply rbind_Ok_inv in H as (ab & s1 & P1 & H). apply pair_children_Ok_inv in P1 as (-> & Ha & Hb).
  apply rbind_Ok_inv in H as (q & s2 & L2 & H). apply rM_Ok_inv in L2 as (L2 & _ & _ & P2 & N2).
  apply map_err_Ok_inv, NewParentNode_digest in L2 as (an & bn & x & Ea & Eb & Hx & Eq & Hh2).
  apply rbind_Ok_inv in H as (u3 & s3 & L3 & H). apply rM_store_Parent_inv in L3 as (G3 & Ln3 & P3 & N3).
  apply rbind_Ok_inv in H as (u4 & s4 & L4 & H). apply rM_store_Parent_inv in L4 as (G4 & Ln4 & P4 & N4).
  apply rbind_Ok_inv in H as (u5 & s5 & L5 & H). apply set_node_Ok_inv in L5 as (R5 & P5 & N5).
  apply set_phase_Ok_inv in H as (R6 & P6 & N6).
  assert (G2 : grows (heap (rst s)) (heap (rst s'))).
  { rewrite R6, R5. apply (grows_trans _ (heap (rst s2))); [rewrite Hh2; apply grows_app|].
    exact (grows_trans _ _ _ G3 G4). }
  assert (Hch : forall i, i ∈ ns -> hash_at (heap (rst s)) i = hash_at H0 i).
  { intros i Hi. rewrite Forall_forall in H32. specialize (H32 i Hi).
    apply hash_at_grows; [exact G|]. unfold hash_at in H32.
    destruct (H0 !! i) eqn:Ei; [eapply lookup_lt_Some; exact Ei|discriminate]. }
  split; [exact (grows_trans _ _ _ G G2)|].
  intros c' q'. rewrite N6, N5, N4, N3, N2. destruct (decide (c' = c)) as [->|Hne].
  - intros Hq. assert (Hc : c < length (rnodes s))
      by (rewrite <- (length_insert (rnodes s) c (Some q)); eapply lookup_lt_Some; exact Hq).
    rewrite list_lookup_insert_eq in Hq by exact Hc. injection Hq as <-.
    assert (E2 : heap (rst s2) !! q = Some {| Parent := None; Left := Some (fst ab);
              Right := Some (snd ab); isOrphan := false; NHash := x; NData := None |})
      by (rewrite Hh2, Eq; apply list_lookup_middle; reflexivity).
    assert (G' : grows (heap (rst s2)) (heap (rst s'))) by (rewrite R6, R5; exact (grows_trans _ _ _ G3 G4)).
    destruct (grows_lookup _ _ _ _ G' E2) as (pn & Epn & Hv). apply view_eq in Hv as (Lp & Rp & Xp).
    exists pn, (fst ab), (snd ab). do 5 (split; [assumption|]).
    rewrite Xp. cbn [NHash].
    assert (Ia : fst ab ∈ ns) by (eapply list_elem_of_lookup_2; exact Ha).
    assert (Ib : snd ab ∈ ns) by (eapply list_elem_of_lookup_2; exact Hb).
    rewrite <- (Hch _ Ia), <- (Hch _ Ib), (hash_at_lookup _ _ _ Ea), (hash_at_lookup _ _ _ Eb).
    rewrite Forall_forall in H32.
    assert (La32 : length (NHash an) = 32)
      by (rewrite <- (hash_at_lookup _ _ _ Ea), (Hch _ Ia); apply H32, Ia).
    assert (Lb32 : length (NHash bn) = 32)
      by (rewrite <- (hash_at_lookup _ _ _ Eb), (Hch _ Ib); apply H32, Ib).
    rewrite hashConcat_unpooled in Hx by assumption.
    unfold comb_digest. rewrite Hx. reflexivity.
  - rewrite list_lookup_insert_ne by congruence. intros Hq.
    destruct (Hn c' q' Hq) as (pn & a & b & E & Ha' & Hb' & La & Lb & Xn).
    destruct (grows_lookup _ _ _ _ G2 E) as (y & Ey & Hv). apply view_eq in Hv as (Ly & Ry & Xy).
    exists y, a, b. rewrite Ly, Ry, Xy. repeat split; assumption.
Qed.

Lemma run_steps_digest h m ns H0 sched s u s' :
  Pool h = None -> Forall (fun a => length (hash_at H0 a) = 32) ns ->
  digest_inv h ns H0 s -> run_steps h m ns sched s = Some (Ok u, s') -> digest_inv h ns H0 s'.
Proof.
  intros Hp H32. revert s. induction sched as [|[c pick] rest IH]; intros s Hi H; cbn [run_steps] in H.
  - unfold rret in H. injection H as _ <-. exact Hi.
  - apply rbind_Ok_inv in H as (u1 & s1 & G1 & H).
    exact (IH s1 (gstep_digest _ _ _ _ _ _ _ _ _ Hp H32 Hi G1) H).
Qed.

(** Without a pool, however the goroutines of a level interleave, the
    parent stored in [nodes[c]] has the children of pair [c] and the digest
    of their digests as the level found them. *)
Theorem pair_level_sched_unpooled h m ns sched s ps s' :
  Pool h = None -> Forall (fun a => length (hash_at (heap (rst s)) a) = 32) ns ->
  pair_level_sched h m ns sched s = Some (Ok ps, s') ->
  forall c p, ps !! c = Some p ->
    exists pn a b, heap (rst s') !! p = Some pn /\ ns !! (2 * c) = Some a /\
      ns !! right_child ns c = Some b /\ Left pn = Some a /\ Right pn = Some b /\
      NHash pn = comb_digest h (hash_at (heap (rst s)) a) (hash_at (heap (rst s)) b).
Proof.
  intros Hp H32. unfold pair_level_sched. set (k := length ns / 2 + _). intros H.
  destruct (run_steps _ _ _ _ _) as [[[u|e|msg|] s1]|] eqn:Er; try discriminate.
  destruct (forallb _ (phases s1)) eqn:Ef; [|discriminate].
  destruct (mapM id (rnodes s1)) as [ps'|] eqn:Em; [|discriminate]. injection H as <- <-.
  assert (Hi0 : digest_inv h ns (heap (rst s))
                  {| rst := rst s; rbufs := rbufs s; rpool := rpool s;
                     phases := repeat GStart k; rnodes := repeat None k |}).
  { split; [apply grows_refl|]. intros c q Hq. exfalso. cbn [rnodes] in Hq.
    destruct (decide (c < k)).
    - rewrite lookup_repeat_lt in Hq by assumption. discriminate.
    - rewrite lookup_ge_None_2 in Hq by (rewrite repeat_length; lia). discriminate. }
  destruct (run_steps_digest _ _ _ _ _ _ _ _ Hp H32 Hi0 Er) as [_ Hn].
  intros c p Hc. apply mapM_Some_1 in Em.
  destruct (Forall2_lookup_r _ _ _ _ _ Em Hc) as (o & Ho & Eo). cbv [id] in Eo. subst o.
  exact (Hn c p Ho).
Qed.

(** Instance: a level of three nodes, the second goroutine first. *)
Lemma pair_level_sched_unpooled_witness :
  exists ps s', pair_level_sched (sha256_hasher false false) 2%N [0; 1; 2] (Some [(1, None); (0, None)])
                  (rstart (arena (sha256_hasher false false) ["a"; "b"; "c"]%string)) = Some (Ok ps, s') /\
    forall c p, ps !! c = Some p ->
      exists pn a b, heap (rst s') !! p = Some pn /\ [0; 1; 2] !! (2 * c) = Some a /\
        [0; 1; 2] !! right_child [0; 1; 2] c = Some b /\ Left pn = Some a /\ Right pn = Some b /\
        NHash pn = comb_digest (sha256_hasher false false)
          (hash_at (heap (rst (rstart (arena (sha256_hasher false false) ["a"; "b"; "c"]%string)))) a)
          (hash_at (heap (rst (rstart (arena (sha256_hasher false false) ["a"; "b"; "c"]%string)))) b).
Proof.
  destruct (ris_ok_inv (pair_level_sched (sha256_hasher false false) 2%N [0; 1; 2] (Some [(1, None); (0, None)])
                  (rstart (arena (sha256_hasher false false) ["a"; "b"; "c"]%string))))
    as (ps & s' & E); [vm_refl|].
  exists ps, s'. split; [exact E|].
  refine (pair_level_sched_unpooled (sha256_hasher false false) 2%N [0; 1; 2]
    (Some [(1, None); (0, None)]) _ _ _ eq_refl _ E).
  repeat constructor; vm_compute; reflexivity.
Defined.
